(** * express-landlord: tenant resolution, merge and resource lifecycle

    A shallow embedding of the tenant core of the library
    ([lib/tenant.js], [lib/landlord.js], [lib/express-landlord.js]) and the
    properties its specification states about it.

    - [Json]     configuration data and lodash's [_.merge] on it
    - [Store]    the same merge on a store of mutable objects
    - [Effects]  exceptions, the call trace and the state/error monad
    - [Tenant]   the [Tenant] class
    - [Coll]     the [tenants] object: an ordinary JavaScript object used as
                 a dictionary, with its prototype chain
    - [Landlord] [loadTenants] and [detachDatabases]
    - [Express]  the middleware returned by [ExpressLandlord.use]

    and of the code around it:

    - [LoadLog]         what [loadTenants] logs
    - [JsString]        the string methods the library calls
    - [Providers]       the [Tenant] constructor and the two configuration
                        providers ([lib/configuration-providers])
    - [Attach]          [Landlord.attachDatabases]
    - [ExpressLandlord] the constructor, [use] and [cleanup]
    - [RouteReporter]   [lib/express-route-reporter.js] *)

From stdpp Require Import gmap strings list fin_maps pretty.
From Stdlib Require Import ZArith NArith Ascii Lia.

#[local] Set Warnings "-register-all,-clear-no-such-hyp".
#[local] Open Scope string_scope.
#[local] Open Scope list_scope.
#[local] Open Scope stdpp_scope.

(* ===================================================================== *)
(** * Configuration data *)
(* ===================================================================== *)

Module Json.

(** Primitive leaves of a configuration document. *)
Inductive atom :=
  | ANull
  | ABool (b : bool)
  | ANum (n : Z)
  | AStr (s : string).

(** A configuration value: a primitive or a plain object.  Configurations
    are trees of plain objects with primitive leaves, what a
    [*.tenant.json] file without arrays holds.  Arrays, [undefined] and
    functions are outside this model, and so is the property name
    [__proto__] inside a configuration, which lodash treats on its own.
    The order of keys is immaterial, so an object is a finite map from
    property names to values. *)
Inductive value :=
  | VAtom (a : atom)
  | VObj (o : gmap string value).

(** A plain object: the type of [Tenant._config]. *)
Abbreviation obj := (gmap string value).

(** JavaScript truthiness. *)
Definition atom_truthy (a : atom) : bool :=
  match a with
  | ANull => false
  | ABool b => b
  | ANum n => negb (n =? 0)%Z
  | AStr s => negb (String.eqb s "")
  end.

Definition truthy (v : value) : bool :=
  match v with
  | VAtom a => atom_truthy a
  | VObj _ => true
  end.

(** Number of constructors of a value, for induction under the map. *)
Fixpoint vsize (v : value) : nat :=
  match v with
  | VAtom _ => 1
  | VObj o => S (map_fold (fun _ x acc => vsize x + acc) 0 o)
  end.

(** ** lodash's [_.merge]

    lodash is an external dependency; its merge is given as documented:
    plain objects are merged recursively, any other value is assigned, the
    sources are applied from left to right.

    [baseMergeDeep] decides, for one source property [y] and the value [x]
    the destination currently holds under the same key, what the destination
    holds afterwards: a plain-object source is merged recursively into the
    destination's object (into a new [{}] when the destination holds no
    object there); any other source value is assigned as it is. *)
Fixpoint combine (x : option value) (y : value) {struct y} : value :=
  match y with
  | VObj b =>
      let a := match x with Some (VObj a) => a | _ => ∅ end in
      VObj (map_imap (fun k y' => Some (combine (a !! k) y')) b ∪ a)
  | VAtom _ => y
  end.

(** [baseMerge object source]: every property of [source] is combined into
    [object]; properties only [object] has stay. *)
Definition baseMerge (object source : obj) : obj :=
  map_imap (fun k y => Some (combine (object !! k) y)) source ∪ object.

(** The own enumerable keys lodash iterates when the source is a string
    primitive: its indices, each holding a one-character string. *)
Fixpoint string_entries (i : nat) (s : string) : obj :=
  match s with
  | EmptyString => ∅
  | String c s' => <[pretty i := VAtom (AStr (String c EmptyString))]> (string_entries (S i) s')
  end.

(** An argument of [_.merge] after the destination: [undefined] or a
    value. *)
Inductive arg :=
  | Undefined
  | Val (v : value).

(** What a source contributes.  [createAssigner] skips falsy sources;
    [keysIn] of a number or a boolean is empty. *)
Definition source_props (s : arg) : obj :=
  match s with
  | Undefined => ∅
  | Val (VObj o) => o
  | Val (VAtom (AStr s)) => string_entries 0 s
  | Val (VAtom _) => ∅
  end.

(** [_.merge({}, s1, s2)]. *)
Definition merge (s1 s2 : arg) : obj :=
  baseMerge (baseMerge ∅ (source_props s1)) (source_props s2).

End Json.

(* ===================================================================== *)
(** * The merge on a store of mutable objects *)
(* ===================================================================== *)

(** JavaScript objects are mutable and held by reference, and [_.merge]
    writes into its first argument.  This module gives the same algorithm
    on a store, to state what a call leaves untouched.  [Json.merge] is the
    value it computes. *)
Module Store.
Import Json.

Abbreviation loc := nat.

(** What a property holds: a primitive, or a reference to an object. *)
Inductive hval :=
  | HAtom (a : atom)
  | HRef (l : loc).

Abbreviation hobj := (gmap string hval).
Abbreviation heap := (gmap loc hobj).

(** [{}]: a new object at an unused location. *)
Definition alloc (h : heap) : loc * heap :=
  let l := fresh (dom h) in (l, <[l := ∅]> h).

(** [l[k]] *)
Definition read (h : heap) (l : loc) (k : string) : option hval :=
  h !! l ≫= fun o => o !! k.

(** [l[k] = v] *)
Definition assign (l : loc) (k : string) (v : hval) (h : heap) : heap :=
  alter (fun o => <[k := v]> o) l h.

Definition keysIn (h : heap) (l : loc) : list string :=
  match h !! l with
  | Some o => (map_to_list o).*1
  | None => []
  end.

(** One property of the source.  An object is merged into the object the
    destination holds under the key, or into a new [{}] that is then stored
    there ([baseMergeDeep]); a primitive is assigned. *)
Definition merge_property (rec : loc → loc → heap → heap)
    (object source : loc) (h : heap) (key : string) : heap :=
  match read h source key with
  | Some (HRef srcValue) =>
      let '(newValue, h1) :=
        match read h object key with
        | Some (HRef objValue) => (objValue, h)
        | _ => alloc h
        end in
      assign object key (HRef newValue) (rec newValue srcValue h1)
  | Some (HAtom a) => assign object key (HAtom a) h
  | None => h
  end.

(** [baseMerge(object, source)], for sources nested at most [fuel] deep. *)
Fixpoint baseMerge (fuel : nat) (object source : loc) (h : heap) : heap :=
  match fuel with
  | 0 => h
  | S fuel' =>
      foldl (merge_property (baseMerge fuel') object source) h (keysIn h source)
  end.

(** An argument of [_.merge] after the destination. *)
Inductive harg :=
  | SUndefined
  | SVal (v : hval).

(** The characters of a string source, assigned one by one. *)
Definition assign_entries (object : loc) (o : obj) (h : heap) : heap :=
  map_fold (fun k v h =>
    match v with
    | VAtom a => assign object k (HAtom a) h
    | VObj _ => h
    end) h o.

Definition merge_source (fuel : nat) (object : loc) (s : harg) (h : heap) : heap :=
  match s with
  | SVal (HRef source) => baseMerge fuel object source h
  | SVal (HAtom (AStr str)) => assign_entries object (string_entries 0 str) h
  | _ => h
  end.

(** [_.merge({}, s1, s2)]: the new object and the store afterwards. *)
Definition merge (fuel : nat) (s1 s2 : harg) (h : heap) : loc * heap :=
  let '(object, h0) := alloc h in
  (object, merge_source fuel object s2 (merge_source fuel object s1 h0)).

(** [tenant.applyDefaults(defaultConfig)] for a tenant whose [_config] is
    the object at [config]: the new [_config] and the store afterwards. *)
Definition applyDefaults (fuel : nat) (defaultConfig : harg) (config : loc) (h : heap)
  : loc * heap :=
  merge fuel defaultConfig (SVal (HRef config)) h.

(** The store never changes below [old]: every object that exists at
    [old] is the same in [h]; and the objects added since refer to added
    objects only. *)
Definition extends (old h : heap) : Prop :=
  (∀ l, l ∈ dom old → h !! l = old !! l)
  ∧ (∀ l o k l',
       l ∉ dom old → h !! l = Some o → o !! k = Some (HRef l') → l' ∉ dom old).

(** ** Reading values back *)

(** The object at [l] holds the value [o]: property by property, with the
    nested objects held the same way.  Objects may be shared. *)
Inductive repr (h : heap) : loc → obj → Prop :=
  | repr_node l ho (o : obj) :
      h !! l = Some ho →
      (∀ k, o !! k = None → ho !! k = None) →
      (∀ k a, o !! k = Some (VAtom a) → ho !! k = Some (HAtom a)) →
      (∀ k o', o !! k = Some (VObj o') →
         ∃ l', ho !! k = Some (HRef l') ∧ repr h l' o') →
      repr h l o.

Definition repr_arg (h : heap) (s : harg) (a : arg) : Prop :=
  match s, a with
  | SUndefined, Undefined => True
  | SVal (HAtom x), Val (VAtom y) => x = y
  | SVal (HRef l), Val (VObj o) => repr h l o
  | _, _ => False
  end.

(** Nesting bound of an argument, for the fuel. *)
Definition arg_size (a : arg) : nat :=
  match a with
  | Undefined => 0
  | Val v => vsize v
  end.

(** The object at [l] holds [o] and owns what it refers to: the objects
    below it lie in the region [F], no object is reached twice, and the
    regions [Fk k] below different keys are disjoint.  This is how the
    destination of a merge is laid out. *)
Inductive tree (h : heap) : loc → obj → gset loc → Prop :=
  | tree_node l ho (o : obj) (F : gset loc) (Fk : string → gset loc) :
      h !! l = Some ho →
      l ∈ F →
      (∀ k, Fk k ⊆ F ∖ {[l]}) →
      (∀ k1 k2, k1 ≠ k2 → Fk k1 ## Fk k2) →
      (∀ k, o !! k = None → ho !! k = None) →
      (∀ k a, o !! k = Some (VAtom a) → ho !! k = Some (HAtom a)) →
      (∀ k o', o !! k = Some (VObj o') →
         ∃ l', ho !! k = Some (HRef l') ∧ tree h l' o' (Fk k)) →
      tree h l o F.

(** What a step of the merge achieves from a store [h] in which the
    destination [d] owns the region [F]: in [h'] the destination holds
    [o'] and owns a region that grew by new objects only, and the objects
    of [h] outside [F] are as they were. *)
Definition post (h : heap) (F : gset loc) (h' : heap) (d : loc) (o' : obj) : Prop :=
  ∃ F', tree h' d o' F'
        ∧ F ⊆ F'
        ∧ F' ⊆ dom h'
        ∧ (F' ∖ F) ## dom h
        ∧ (∀ l, l ∈ dom h → l ∉ F → h' !! l = h !! l)
        ∧ dom h ⊆ dom h'.

(** The value the destination holds after [merge_property] for the key
    [k] of the source [src]. *)
Definition merge_key (src acc : obj) (k : string) : obj :=
  match src !! k with
  | Some y => <[k := combine (acc !! k) y]> acc
  | None => acc
  end.

End Store.

(* ===================================================================== *)
(** * Exceptions, external calls and the state/error monad *)
(* ===================================================================== *)

Module Effects.
Import Json.

(** A thrown exception: [throw new Error(msg)] in the library, or a
    [TypeError] raised by the runtime (its text is descriptive only). *)
Inductive exn :=
  | Error (msg : string)
  | TypeError (what : string).

(** The two values without properties, [null] and [undefined]: reading a
    property of one of them throws a [TypeError]. *)
Inductive nullish :=
  | JsNull
  | JsUndefined.

Definition nullish_text (u : nullish) : string :=
  match u with
  | JsNull => "null"
  | JsUndefined => "undefined"
  end.

(** [u.prop] for such a value. *)
Definition cannot_read (u : nullish) (prop : string) : exn :=
  TypeError ("Cannot read properties of " +:+ nullish_text u
             +:+ " (reading '" +:+ prop +:+ "')").

(** What a database factory may return: any JavaScript value.  A client
    object is opaque and truthy. *)
Inductive handle :=
  | HUndefined
  | HNull
  | HBool (b : bool)
  | HNum (n : Z)
  | HStr (s : string)
  | HObject (id : nat).

Definition handle_truthy (h : handle) : bool :=
  match h with
  | HUndefined | HNull => false
  | HBool b => b
  | HNum n => negb (n =? 0)%Z
  | HStr s => negb (String.eqb s "")
  | HObject _ => true
  end.

(** Calls that leave the library, in the order they are made. *)
Inductive event :=
  | ELog (msg : string)            (* log(msg) *)
  | ELoadTenants (i : nat)         (* providers[i].loadTenants(log) *)
  | EFactory (cfg : arg)           (* factory(cfg) *)
  | EFinalizer (h : handle).       (* finalizer(h) *)

Abbreviation trace := (list event).

(** A computation over a mutable object of type [St]: it may change the
    object, extend the trace, and either return or throw.  What was changed
    before a throw stays changed. *)
Definition M (St A : Type) : Type := St → trace → St * trace * (exn + A).

Definition ret {St A} (a : A) : M St A := fun s tr => (s, tr, inr a).

Definition bind {St A B} (m : M St A) (k : A → M St B) : M St B :=
  fun s tr =>
    match m s tr with
    | (s', tr', inl e) => (s', tr', inl e)
    | (s', tr', inr a) => k a s' tr'
    end.

Definition throw {St A} (e : exn) : M St A := fun s tr => (s, tr, inl e).

Definition emit {St} (ev : event) : M St unit := fun s tr => (s, tr ++ [ev], inr tt).

Definition get {St} : M St St := fun s tr => (s, tr, inr s).

Definition put {St} (s : St) : M St unit := fun _ tr => (s, tr, inr tt).

Definition modify {St} (f : St → St) : M St unit := fun s tr => (f s, tr, inr tt).

Definition lift {St A} (r : exn + A) : M St A :=
  match r with
  | inl e => throw e
  | inr a => ret a
  end.

Definition log {St} (msg : string) : M St unit := emit (ELog msg).

Declare Scope js_scope.
Delimit Scope js_scope with js.
Notation "x <- m ;; k" := (bind m (fun x => k))
  (at level 100, m at next level, right associativity) : js_scope.
Notation "m ;; k" := (bind m (fun _ => k))
  (at level 100, right associativity) : js_scope.

(** [array.forEach(body)]. *)
Fixpoint forEach {St A} (body : A → M St unit) (l : list A) : M St unit :=
  match l with
  | [] => ret tt
  | a :: l' => (body a ;; forEach body l')%js
  end.

(** [array.forEach((a, i) => body(i, a))], counting from [i]. *)
Fixpoint forEach_from {St A} (i : nat) (body : nat → A → M St unit) (l : list A) : M St unit :=
  match l with
  | [] => ret tt
  | a :: l' => (body i a ;; forEach_from (S i) body l')%js
  end.

End Effects.

(* ===================================================================== *)
(** * tenant.js *)
(* ===================================================================== *)

Module Tenant.
Import Json Effects.
#[local] Open Scope js_scope.

(** The two callbacks of [options.db], each given by what it returns or
    throws for the value it is handed.  What a callback does besides that
    is not modelled; in particular a factory is taken not to write into the
    configuration it is handed. *)
Definition factory := arg → exn + handle.
Definition finalizer := handle → exn + unit.

(** The fields of a [Tenant] instance.  [_dbFinalizer] is [null] or the
    function passed to [attachDatabase]. *)
Record t := {
  _name : string;
  _config : obj;
  _db : handle;
  _dbFinalizer : option finalizer;
}.

(** The object [new Tenant(name, config)] builds. *)
Definition make (name : string) (config : obj) : t :=
  {| _name := name; _config := config; _db := HNull; _dbFinalizer := None |}.

Definition set_config (c : obj) (x : t) : t :=
  {| _name := _name x; _config := c; _db := _db x; _dbFinalizer := _dbFinalizer x |}.

Definition set_db (h : handle) (x : t) : t :=
  {| _name := _name x; _config := _config x; _db := h; _dbFinalizer := _dbFinalizer x |}.

Definition set_dbFinalizer (f : option finalizer) (x : t) : t :=
  {| _name := _name x; _config := _config x; _db := _db x; _dbFinalizer := f |}.

(** [this._config = _.merge({}, defaultConfig, this._config)] *)
Definition applyDefaults (defaultConfig : arg) (x : t) : t :=
  set_config (merge defaultConfig (Val (VObj (_config x)))) x.

Definition call_factory {St} (f : factory) (config : arg) : M St handle :=
  emit (EFactory config) ;; lift (f config).

Definition call_finalizer {St} (f : finalizer) (h : handle) : M St unit :=
  emit (EFinalizer h) ;; lift (f h).

Definition already_attached : exn := Error "tenant: Database already attached.".

Definition attachDatabase (f : factory) (fin : option finalizer) (config : arg) : M t unit :=
  this <- get ;;
  if handle_truthy (_db this) then throw already_attached
  else
    db <- call_factory f config ;;
    modify (set_db db) ;;
    modify (set_dbFinalizer fin).

Definition detachDatabase : M t unit :=
  this <- get ;;
  (if handle_truthy (_db this) then
     match _dbFinalizer this with
     | Some fin => call_finalizer fin (_db this)
     | None => ret tt
     end
   else ret tt) ;;
  modify (set_db HNull) ;;
  modify (set_dbFinalizer None).

(** The record with [_db] and [_dbFinalizer] set to [null]. *)
Definition clear (x : t) : t := set_dbFinalizer None (set_db HNull x).

(** The call [detachDatabase] makes on the record, if any, with its
    outcome: [this._dbFinalizer(this._db)] when both are truthy. *)
Definition finalizer_call (x : t) : option (exn + unit) :=
  if handle_truthy (_db x) then (fun fin => fin (_db x)) <$> _dbFinalizer x
  else None.

(** The finalizer of the record, if [detachDatabase] calls it, returns. *)
Definition finalizer_returns (x : t) : bool :=
  match finalizer_call x with
  | Some (inl _) => false
  | _ => true
  end.

End Tenant.

(* ===================================================================== *)
(** * The [tenants] object *)
(* ===================================================================== *)

(** [loadTenants] builds [const tenants = {}] and uses it as a dictionary
    with [name in tenants], [tenants[name]], [tenants[name] = tenant],
    [Object.keys] and [Object.values]; the middleware reads [tenants[key]].
    These are the operations of an ordinary object: own properties first,
    then the prototype chain. *)
Module Coll.
Import Json Effects.

(** Property names every ordinary object inherits from [Object.prototype]. *)
Definition object_prototype_names : list string :=
  ["constructor"; "__defineGetter__"; "__defineSetter__"; "hasOwnProperty";
   "__lookupGetter__"; "__lookupSetter__"; "isPrototypeOf";
   "propertyIsEnumerable"; "toString"; "valueOf"; "__proto__";
   "toLocaleString"].

(** Own fields of a [Tenant] instance, the accessors of [Tenant.prototype]
    (getters without setters) and its methods. *)
Definition tenant_field_names : list string :=
  ["_name"; "_config"; "_db"; "_dbFinalizer"].
Definition tenant_getter_names : list string := ["name"; "config"; "db"].
Definition tenant_method_names : list string :=
  ["constructor"; "applyDefaults"; "attachDatabase"; "detachDatabase"].

(** An array index: the canonical decimal form of an integer below
    [2^32 - 1].  Own keys of that form are enumerated first, in ascending
    order; the other keys follow in insertion order. *)
Definition digit_of (c : ascii) : option N :=
  let n := N_of_ascii c in
  if ((48 <=? n) && (n <=? 57))%N then Some (n - 48)%N else None.

Fixpoint parse_digits (acc : N) (s : string) : option N :=
  match s with
  | EmptyString => Some acc
  | String c s' =>
      match digit_of c with
      | Some d => parse_digits (acc * 10 + d)%N s'
      | None => None
      end
  end.

Definition array_index (k : string) : option N :=
  match k with
  | EmptyString => None
  | _ =>
      match parse_digits 0 k with
      | Some n =>
          if String.eqb (pretty n) k && (n <? 4294967295)%N then Some n else None
      | None => None
      end
  end.

Definition precedes (k k' : string) : bool :=
  match array_index k, array_index k' with
  | Some n, Some n' => (n <? n')%N
  | Some _, None => true
  | None, _ => false
  end.

(** Own properties, kept in enumeration order. *)
Abbreviation props := (list (string * Tenant.t)).

Fixpoint lookup (k : string) (l : props) : option Tenant.t :=
  match l with
  | [] => None
  | (k', v) :: l' => if String.eqb k k' then Some v else lookup k l'
  end.

Fixpoint replace (k : string) (v : Tenant.t) (l : props) : props :=
  match l with
  | [] => []
  | (k', v') :: l' =>
      if String.eqb k k' then (k, v) :: l' else (k', v') :: replace k v l'
  end.

Fixpoint place (k : string) (v : Tenant.t) (l : props) : props :=
  match l with
  | [] => [(k, v)]
  | (k', v') :: l' =>
      if precedes k k' then (k, v) :: l else (k', v') :: place k v l'
  end.

(** The object: its own properties and its prototype.  [proto = None] is
    [Object.prototype]; [proto = Some (name, config)] is the [Tenant]
    instance installed by an assignment to [__proto__].  Such an instance is
    not among the own values, so no loop of [Landlord] reaches it and its
    [_db] and [_dbFinalizer] stay [null]. *)
Record t := {
  own : props;
  proto : option (string * obj);
}.

Definition empty : t := {| own := []; proto := None |}.

Definition keys (c : t) : list string := (own c).*1.

(** What reading a property of the object may yield. *)
Inductive prop_value :=
  | PVUndefined
  | PVNull
  | PVTenant (x : Tenant.t)
  | PVBuiltin                  (* an inherited function, or [Object.prototype] *)
  | PVString (s : string)
  | PVConfig (o : obj).

Definition pv_truthy (v : prop_value) : bool :=
  match v with
  | PVUndefined | PVNull => false
  | PVTenant _ | PVBuiltin | PVConfig _ => true
  | PVString s => negb (String.eqb s "")
  end.

Definition mem (k : string) (l : list string) : bool := existsb (String.eqb k) l.

(** [k in tenants] *)
Definition has (c : t) (k : string) : bool :=
  match lookup k (own c) with
  | Some _ => true
  | None =>
      match proto c with
      | Some _ =>
          mem k tenant_field_names || mem k tenant_getter_names
          || mem k tenant_method_names || mem k object_prototype_names
      | None => mem k object_prototype_names
      end
  end.

(** A data field of the [Tenant] instance that serves as prototype. *)
Definition tenant_field (p : string * obj) (k : string) : option prop_value :=
  if String.eqb k "_name" then Some (PVString p.1)
  else if String.eqb k "_config" then Some (PVConfig p.2)
  else if String.eqb k "_db" || String.eqb k "_dbFinalizer" then Some PVNull
  else None.

Definition from_object_prototype (p : option (string * obj)) (k : string) : prop_value :=
  if String.eqb k "__proto__" then
    match p with
    | Some (n, cfg) => PVTenant (Tenant.make n cfg)
    | None => PVBuiltin
    end
  else if mem k object_prototype_names then PVBuiltin
  else PVUndefined.

(** [tenants[k]].  The getters of [Tenant.prototype] run with [tenants] as
    [this], so [tenants.config] is [tenants._config]. *)
Definition get (c : t) (k : string) : prop_value :=
  match lookup k (own c) with
  | Some x => PVTenant x
  | None =>
      match proto c with
      | None => from_object_prototype None k
      | Some p =>
          match tenant_field p k with
          | Some v => v
          | None =>
              if mem k tenant_getter_names then
                match lookup ("_" +:+ k) (own c) with
                | Some x => PVTenant x
                | None => default PVUndefined (tenant_field p ("_" +:+ k))
                end
              else if mem k tenant_method_names then PVBuiltin
              else from_object_prototype (Some p) k
          end
      end
  end.

(** [tenants[k] = x] in strict-mode code (a class body).  An own property
    is overwritten; [__proto__] is an inherited setter that replaces the
    prototype; an inherited getter without setter makes the assignment
    throw; any other key becomes a new own property. *)
Definition set (c : t) (k : string) (x : Tenant.t) : exn + t :=
  match lookup k (own c) with
  | Some _ => inr {| own := replace k x (own c); proto := proto c |}
  | None =>
      if String.eqb k "__proto__" then
        inr {| own := own c; proto := Some (Tenant._name x, Tenant._config x) |}
      else if match proto c with
              | Some _ => mem k tenant_getter_names
              | None => false
              end
      then inl (TypeError "Cannot set property which has only a getter")
      else inr {| own := place k x (own c); proto := proto c |}
  end.

(** [v.config] for a value read from the object. *)
Definition read_config (v : prop_value) : exn + arg :=
  match v with
  | PVUndefined | PVNull => inl (TypeError "Cannot read properties of undefined or null")
  | PVTenant x => inr (Val (VObj (Tenant._config x)))
  | PVBuiltin | PVString _ => inr Undefined
  | PVConfig o =>
      match o !! "config" with
      | Some v => inr (Val v)
      | None => inr Undefined
      end
  end.

(** Run a method on every own value, in enumeration order.  The objects are
    changed in place; an exception ends the loop. *)
Fixpoint forEach_value (body : M Tenant.t unit) (l : props) (tr : trace)
  : props * trace * (exn + unit) :=
  match l with
  | [] => ([], tr, inr tt)
  | (k, x) :: l' =>
      match body x tr with
      | (x', tr', inl e) => ((k, x') :: l', tr', inl e)
      | (x', tr', inr _) =>
          match forEach_value body l' tr' with
          | (l'', tr'', r) => ((k, x') :: l'', tr'', r)
          end
      end
  end.

Definition forEach_values (body : M Tenant.t unit) : M t unit :=
  fun c tr =>
    match forEach_value body (own c) tr with
    | (l, tr', r) => ({| own := l; proto := proto c |}, tr', r)
    end.

End Coll.

(* ===================================================================== *)
(** * landlord.js *)
(* ===================================================================== *)

Module Landlord.
Import Json Effects.
#[local] Open Scope js_scope.

(** [typeof] of a value that is neither [null] nor [undefined]. *)
Inductive js_type :=
  | TObject | TFunction | TString | TNumber | TBoolean | TSymbol | TBigint.

Definition typeof_string (ty : js_type) : string :=
  match ty with
  | TObject => "object"
  | TFunction => "function"
  | TString => "string"
  | TNumber => "number"
  | TBoolean => "boolean"
  | TSymbol => "symbol"
  | TBigint => "bigint"
  end.

(** What [provider.loadTenants(log)] does: it logs some lines, then returns
    new [Tenant] instances (given by name and config, as the built-in
    providers build them) or throws. *)
Record loader := {
  lines : list string;
  outcome : exn + list (string * obj);
}.

(** An entry of [options.providers]: [null] or [undefined], or any other
    value, given by its [typeof] and by [provider.loadTenants] when that is
    a function. *)
Inductive provider :=
  | Nullish (u : nullish)
  | Value (typeof : js_type) (method : option loader).

(** [provider.loadTenants] when the entry has that function. *)
Definition method (p : provider) : option loader :=
  match p with
  | Value _ m => m
  | Nullish _ => None
  end.

(** [options.providers]: a falsy value, a single provider (a truthy value
    that is no array), or an array.  [null] and [undefined] are falsy
    values, also when written [Single (Nullish u)]. *)
Inductive providers_arg :=
  | Absent
  | Single (p : provider)
  | Array (ps : list provider).

Record options := { providers : providers_arg }.

(** [options.providers] is truthy; [null] and [undefined] are not. *)
Definition present (a : providers_arg) : bool :=
  match a with
  | Absent | Single (Nullish _) => false
  | _ => true
  end.

Definition missing_providers : exn := Error "landlord: Missing {options.providers}.".

Definition missing_loadTenants (ty : js_type) : exn :=
  Error ("landlord: Provider " +:+ typeof_string ty
         +:+ " missing {provider.loadTenants}.").

Definition no_configs : exn := Error "landlord: No configs were found.".

(** [Array.isArray(options.providers) ? options.providers : [options.providers]] *)
Definition normalize (a : providers_arg) : list provider :=
  match a with
  | Absent => []
  | Single p => [p]
  | Array ps => ps
  end.

(** The body of the first loop.  [typeof provider.loadTenants] reads a
    property of the entry, which throws for [null] and [undefined]. *)
Definition validate {St} (p : provider) : M St unit :=
  match p with
  | Nullish u => throw (cannot_read u "loadTenants")
  | Value _ (Some _) => ret tt
  | Value ty None => throw (missing_loadTenants ty)
  end.

(** [provider.loadTenants(log)] for the provider at index [i]. *)
Definition call_loadTenants {St} (i : nat) (p : provider) : M St (list Tenant.t) :=
  match method p with
  | None => throw (TypeError "provider.loadTenants is not a function")
  | Some ld =>
      emit (ELoadTenants i) ;;
      forEach log (lines ld) ;;
      found <- lift (outcome ld) ;;
      ret (map (fun nc => Tenant.make nc.1 nc.2) found)
  end.

(** The body of the inner [forEach]: one tenant returned by a provider. *)
Definition add_tenant (tenant : Tenant.t) : M Coll.t unit :=
  tenants <- get ;;
  let name := Tenant._name tenant in
  if Coll.has tenants name then
    defaults <- lift (Coll.read_config (Coll.get tenants name)) ;;
    tenants' <- lift (Coll.set tenants name (Tenant.applyDefaults defaults tenant)) ;;
    put tenants' ;;
    log ("landlord: Merged configurations from multiple providers " +:+ name +:+ ".")
  else
    tenants' <- lift (Coll.set tenants name tenant) ;;
    put tenants' ;;
    log ("landlord: Loaded " +:+ name +:+ ".").

(** The outer [forEach]: every provider in turn, every tenant it returns. *)
Definition collect (ps : list provider) : M Coll.t unit :=
  forEach_from 0
    (fun i p => found <- call_loadTenants i p ;; forEach add_tenant found) ps.

Definition arg_truthy (a : arg) : bool :=
  match a with
  | Undefined => false
  | Val v => truthy v
  end.

(** [tenants._default_ ? tenants._default_.config : null] *)
Definition default_config (tenants : Coll.t) : exn + arg :=
  let d := Coll.get tenants "_default_" in
  if Coll.pv_truthy d then Coll.read_config d else inr (Val (VAtom ANull)).

(** From the emptiness check to the end of [loadTenants]. *)
Definition finish : M Coll.t Coll.t :=
  tenants <- get ;;
  if (length (Coll.keys tenants) =? 0)%nat then throw no_configs
  else
    defaultConfig <- lift (default_config tenants) ;;
    if negb (arg_truthy defaultConfig) then ret tenants
    else
      log "landlord: Found defaults ..." ;;
      Coll.forEach_values (modify (Tenant.applyDefaults defaultConfig)) ;;
      log "landlord: Defaults applied." ;;
      get.

Definition loadTenants_body (o : options) : M Coll.t Coll.t :=
  if negb (present (providers o)) then throw missing_providers
  else
    let ps := normalize (providers o) in
    forEach validate ps ;;
    collect ps ;;
    finish.

(** [Landlord.loadTenants(options)]: the calls it makes and what it returns
    or throws.  [tenants] starts as [{}]. *)
Definition loadTenants (o : options) : trace * (exn + Coll.t) :=
  match loadTenants_body o Coll.empty [] with
  | (_, tr, r) => (tr, r)
  end.

(** The [tenants] object as it is when the emptiness check is reached:
    after every provider has been read. *)
Definition collected (o : options) : option Coll.t :=
  match (forEach validate (normalize (providers o)) ;;
         collect (normalize (providers o))) Coll.empty [] with
  | (c, _, inr _) => if present (providers o) then Some c else None
  | (_, _, inl _) => None
  end.

(** The body of the loop of [detachDatabases]. *)
Definition detach_one : M Tenant.t unit :=
  tenant <- get ;;
  log ("landlord: Cleaning up " +:+ Tenant._name tenant +:+ " ...") ;;
  Tenant.detachDatabase ;;
  log ("landlord: Cleaned " +:+ Tenant._name tenant +:+ ".").

(** [Landlord.detachDatabases(tenants, options)] *)
Definition detachDatabases : M Coll.t unit :=
  log "landlord: Cleaning up..." ;;
  Coll.forEach_values detach_one ;;
  log "landlord: All cleaned up.".

(** What the loop of [detachDatabases] does for a record whose finalizer
    returns: the calls it makes. *)
Definition detach_trace (x : Tenant.t) : trace :=
  [ELog ("landlord: Cleaning up " +:+ Tenant._name x +:+ " ...")]
  ++ match Tenant.finalizer_call x with
     | Some _ => [EFinalizer (Tenant._db x)]
     | None => []
     end
  ++ [ELog ("landlord: Cleaned " +:+ Tenant._name x +:+ ".")].

Definition clear_all (l : Coll.props) : Coll.props :=
  map (fun kx => (kx.1, Tenant.clear kx.2)) l.

(** The error classes of the specification, read off the messages of the
    library. *)
Inductive error_kind :=
  | InvalidArgument
  | NoTenantsFound
  | AlreadyAttached
  | OtherError.

Definition kind_of (e : exn) : error_kind :=
  match e with
  | Error msg =>
      if String.eqb msg "landlord: Missing {options.providers}." then InvalidArgument
      else if String.prefix "landlord: Provider " msg then InvalidArgument
      else if String.eqb msg "Missing tenant configuration." then InvalidArgument
      else if String.eqb msg "landlord: FileSystem provider - missing {options.globs}."
      then InvalidArgument
      else if String.prefix "express-landlord: InMemoryData provider - missing " msg
      then InvalidArgument
      else if String.eqb msg "landlord: No configs were found." then NoTenantsFound
      else if String.eqb msg "tenant: Database already attached." then AlreadyAttached
      else OtherError
  | TypeError _ => OtherError
  end.

(** The provider has a [loadTenants] function; that function returns; it
    returns the empty array. *)
Definition has_loadTenants (p : provider) : bool :=
  match method p with
  | Some _ => true
  | None => false
  end.

Definition loads (p : provider) : bool :=
  match method p with
  | Some ld => match outcome ld with inr _ => true | inl _ => false end
  | None => false
  end.

Definition returns_nothing (p : provider) : bool :=
  match method p with
  | Some ld => match outcome ld with inr [] => true | _ => false end
  | None => false
  end.

(** Every tenant the providers return, in the order [loadTenants] meets
    them. *)
Definition records (ps : list provider) : list (string * obj) :=
  flat_map (fun p =>
    match method p with
    | Some ld => match outcome ld with inr l => l | inl _ => [] end
    | None => []
    end) ps.

(** The resolution the specification describes: a record with a new name
    is inserted; a record with a known name has its config merged on top of
    the stored one. *)
Definition resolve_step (m : gmap string obj) (nc : string * obj) : gmap string obj :=
  <[nc.1 := match m !! nc.1 with
            | Some old => baseMerge old nc.2
            | None => nc.2
            end]> m.

Definition resolve (l : list (string * obj)) : gmap string obj :=
  foldl resolve_step ∅ l.

(** No record is named [__proto__]. *)
Definition ordinary_names (l : list (string * obj)) : bool :=
  forallb (fun nc => negb (String.eqb nc.1 "__proto__")) l.

(** The object holds exactly the records of [m], each under its name, and
    its prototype is [Object.prototype]. *)
Definition holds (c : Coll.t) (m : gmap string obj) : Prop :=
  Coll.proto c = None
  ∧ NoDup (Coll.keys c)
  ∧ ∀ k, Coll.lookup k (Coll.own c) = Tenant.make k <$> m !! k.

(** The default layer the specification describes: the config of the
    record named [_default_], when there is one, is merged beneath every
    config. *)
Definition with_default (m : gmap string obj) : gmap string obj :=
  match m !! "_default_" with
  | Some d => baseMerge d <$> m
  | None => m
  end.

End Landlord.

(* ===================================================================== *)
(** * express-landlord.js *)
(* ===================================================================== *)

Module Express.
Import Json Effects.

(** [options.req] as the constructor leaves it: [path] defaults to
    ['tenant']. *)
Record req_options := {
  path : string;
  tenantHeader : option string;
}.

Definition make_req_options (path : option string) (tenantHeader : option string)
  : req_options :=
  {| path := match path with
             | Some p => if String.eqb p "" then "tenant" else p
             | None => "tenant"
             end;
     tenantHeader := tenantHeader |}.

(** The parts of an Express request the middleware touches: [req.hostname],
    [req.header(name)], and the properties it adds. *)
Record request := {
  hostname : option string;
  header : string → option string;
  decoration : gmap string Coll.prop_value;
}.

(** How the middleware calls [next]. *)
Inductive next_call :=
  | Next                                          (* next() *)
  | NextError (status : Z) (message : string).    (* next(httpError(status, message)) *)

(** A property key: [undefined] is converted to the string ["undefined"]. *)
Definition property_key (k : option string) : string := default "undefined" k.

Definition lookup_key (o : req_options) (req : request) : option string :=
  match tenantHeader o with
  | None => hostname req
  | Some h => if String.eqb h "" then hostname req else header req h
  end.

Definition bindTenantToRequest (tenants : Coll.t) (o : req_options) (req : request)
  : request * next_call :=
  let tenant := lookup_key o req in
  let found := Coll.get tenants (property_key tenant) in
  if negb (Coll.pv_truthy found) then (req, NextError 403 "Invalid tenant.")
  else
    ({| hostname := hostname req; header := header req;
        decoration := <[path o := found]> (decoration req) |}, Next).

End Express.

(* ===================================================================== *)
(** * Concrete inputs *)
(* ===================================================================== *)

Module Samples.
Import Json Effects.

Definition num (n : Z) : value := VAtom (ANum n).

(** A record with a client attached whose finalizer throws. *)
Definition close_failed : exn := Error "close failed".
Definition failing_finalizer : Tenant.finalizer := fun _ => inl close_failed.
Definition quiet_finalizer : Tenant.finalizer := fun _ => inr tt.

Definition attached (name : string) (id : nat) (fin : Tenant.finalizer) : Tenant.t :=
  {| Tenant._name := name; Tenant._config := ∅;
     Tenant._db := HObject id; Tenant._dbFinalizer := Some fin |}.

(** Factories: one that returns a client, one that returns [null]. *)
Definition client_factory : Tenant.factory := fun _ => inr (HObject 7).
Definition null_factory : Tenant.factory := fun _ => inr HNull.

(** Providers: one that returns the given tenants, one without a
    [loadTenants] function. *)
Definition source (l : list (string * obj)) : Landlord.provider :=
  Landlord.Value Landlord.TObject
    (Some {| Landlord.lines := []; Landlord.outcome := inr l |}).

Definition not_a_source : Landlord.provider :=
  Landlord.Value Landlord.TObject None.

(** A store with the default [{a: 1}] at 0 and the config [{b: 99}] at 1. *)
Definition two_objects : Store.heap :=
  <[1%nat := {["b" := Store.HAtom (ANum 99)]}]>
    {[0%nat := {["a" := Store.HAtom (ANum 1)]}]}.

(** A collection with the keys [localhost] and [127.0.0.1], and a request
    for a host, without headers. *)
Definition two_hosts : Coll.t :=
  {| Coll.own := [("localhost", Tenant.make "localhost" {["port" := num 1]});
                  ("127.0.0.1", Tenant.make "127.0.0.1" {["port" := num 2]})];
     Coll.proto := None |}.

Definition request_for (host : string) : Express.request :=
  {| Express.hostname := Some host;
     Express.header := fun _ => None;
     Express.decoration := ∅ |}.

End Samples.

(* ===================================================================== *)
(** * landlord.js: the log of [loadTenants] *)
(* ===================================================================== *)

Module LoadLog.
Import Json Effects.

Definition loaded (n : string) : event := ELog ("landlord: Loaded " +:+ n +:+ ".").

Definition merged (n : string) : event :=
  ELog ("landlord: Merged configurations from multiple providers " +:+ n +:+ ".").

(** The line [loadTenants] logs for a tenant named [n] when the names in
    [seen] are stored: the merge line when [n in tenants], that is for a
    stored name and for a name every object inherits. *)
Definition record_line (seen : gset string) (n : string) : event :=
  if bool_decide (n ∈ seen) || Coll.mem n Coll.object_prototype_names
  then merged n else loaded n.

Fixpoint record_lines (seen : gset string) (l : list (string * obj)) : trace :=
  match l with
  | [] => []
  | nc :: l' => record_line seen nc.1 :: record_lines ({[nc.1]} ∪ seen) l'
  end.

(** The calls made for the providers from index [i] on, each of which
    returns: the call of the provider, the lines the provider logs, and
    the line of each tenant it returns. *)
Fixpoint provider_lines (i : nat) (seen : gset string) (ps : list Landlord.provider)
  : trace :=
  match ps with
  | [] => []
  | p :: ps' =>
      match Landlord.method p with
      | Some ld =>
          let l := match Landlord.outcome ld with inr l => l | inl _ => [] end in
          [ELoadTenants i] ++ map ELog (Landlord.lines ld) ++ record_lines seen l
          ++ provider_lines (S i) (list_to_set l.*1 ∪ seen) ps'
      | None => []
      end
  end.

(** The two lines around the application of the defaults. *)
Definition default_lines (names : gset string) : trace :=
  if bool_decide ("_default_" ∈ names)
  then [ELog "landlord: Found defaults ..."; ELog "landlord: Defaults applied."]
  else [].

End LoadLog.

(* ===================================================================== *)
(** * String methods *)
(* ===================================================================== *)

(** The methods of JavaScript strings the library calls.  A string is its
    sequence of bytes; the case mapping below is the one of ASCII, so
    [toLowerCase] is meant for ASCII text ([is_ascii]). *)
Module JsString.

Definition is_ascii_char (c : ascii) : bool := (N_of_ascii c <? 128)%N.

Fixpoint is_ascii (s : string) : bool :=
  match s with
  | EmptyString => true
  | String c s' => is_ascii_char c && is_ascii s'
  end.

Definition lower (c : ascii) : ascii :=
  let n := N_of_ascii c in
  if ((65 <=? n) && (n <=? 90))%N then ascii_of_N (n + 32) else c.

(** [s.toLowerCase()] for ASCII text.  JavaScript also maps the letters
    outside ASCII, which this function leaves as they are: what is stated
    about it is stated for text that passes [is_ascii]. *)
Fixpoint toLowerCase (s : string) : string :=
  match s with
  | EmptyString => EmptyString
  | String c s' => String (lower c) (toLowerCase s')
  end.

(** [s.substring(n)] *)
Fixpoint skip (n : nat) (s : string) : string :=
  match n, s with
  | O, _ => s
  | S n', String _ s' => skip n' s'
  | S _, EmptyString => EmptyString
  end.

(** [s.replace(pattern, replacement)] for a string [pattern] and a
    [replacement] without [$]: the first occurrence is replaced. *)
Fixpoint replace (pattern replacement s : string) : string :=
  if String.prefix pattern s then replacement +:+ skip (String.length pattern) s
  else
    match s with
    | EmptyString => EmptyString
    | String c s' => String c (replace pattern replacement s')
    end.

(** [s.replace(/\\\//g, '/')]: every backslash followed by a slash becomes
    a slash. *)
Fixpoint unescape_slashes (s : string) : string :=
  match s with
  | EmptyString => EmptyString
  | String c s' =>
      if Ascii.eqb c "\" then
        match s' with
        | String d s'' =>
            if Ascii.eqb d "/" then String "/" (unescape_slashes s'')
            else String c (unescape_slashes s')
        | EmptyString => String c EmptyString
        end
      else String c (unescape_slashes s')
  end.

(** [pattern] occurs in [s]. *)
Fixpoint occurs (pattern s : string) : bool :=
  String.prefix pattern s
  || match s with
     | EmptyString => false
     | String _ s' => occurs pattern s'
     end.

(** [s.includes(c)] for a character. *)
Fixpoint has_char (c : ascii) (s : string) : bool :=
  match s with
  | EmptyString => false
  | String c' s' => Ascii.eqb c c' || has_char c s'
  end.

(** [parts.join('')] *)
Definition join (parts : list string) : string := foldr String.append "" parts.

End JsString.

(* ===================================================================== *)
(** * The configuration providers *)
(* ===================================================================== *)

(** [lib/configuration-providers]: what [provider.loadTenants(log)] is for
    the two providers of the library, and the [Tenant] constructor they
    call. *)
Module Providers.
Import Json Effects.
#[local] Open Scope js_scope.

(** Truthiness of a value that is a string or [undefined]. *)
Definition string_truthy (s : option string) : bool :=
  match s with
  | Some s => negb (String.eqb s "")
  | None => false
  end.

(** [`${s}`] for such a value. *)
Definition text (s : option string) : string := default "undefined" s.

Definition missing_configuration : exn := Error "Missing tenant configuration.".

(** [new Tenant(name, config)].  [name] is a string or [undefined];
    [config] is a plain object, or [None] for a falsy value ([undefined],
    [null]).  Configs that are truthy without being objects are outside
    the model. *)
Definition new_Tenant (name : option string) (config : option obj) : exn + Tenant.t :=
  match name, config with
  | Some n, Some c =>
      if String.eqb n "" then inl missing_configuration else inr (Tenant.make n c)
  | _, _ => inl missing_configuration
  end.

(** The messages [loadTenants] has logged. *)
Definition logged (tr : trace) : list string :=
  omap (fun ev => match ev with ELog msg => Some msg | _ => None end) tr.

(** A provider object as [Landlord.loadTenants] sees it, from a run of its
    [loadTenants] method: the lines the method logs and the tenants it
    returns. *)
Definition as_provider (run : list Tenant.t * trace * (exn + list Tenant.t))
  : Landlord.provider :=
  Landlord.Value Landlord.TObject
    (Some {| Landlord.lines := logged run.1.2;
             Landlord.outcome :=
               match run.2 with
               | inl e => inl e
               | inr l => inr (map (fun x => (Tenant._name x, Tenant._config x)) l)
               end |}).

(** ** in-memory-data.js *)
Module InMemoryData.

(** An element of [options.tenants]: [null] or [undefined], or a value
    [{ name, config }], given by what its properties [name] and [config]
    hold ([None] for a falsy value). *)
Inductive tenant_data :=
  | Nullish (u : nullish)
  | Data (name : option string) (config : option obj).

(** [tenantData.name] and [tenantData.config] of a value. *)
Definition name (d : tenant_data) : option string :=
  match d with
  | Data n _ => n
  | Nullish _ => None
  end.

Definition config (d : tenant_data) : option obj :=
  match d with
  | Data _ c => c
  | Nullish _ => None
  end.

(** [options.tenants]: a falsy value, one element (a truthy value that is
    no array), or an array.  [null] and [undefined] are falsy values, also
    when written [Single (Nullish u)]. *)
Inductive tenants_arg :=
  | Absent
  | Single (d : tenant_data)
  | Array (ds : list tenant_data).

Record t := { _data : list tenant_data }.

Definition missing_tenants : exn :=
  Error "express-landlord: InMemoryData provider - missing {options.tenants}.".

Definition missing_name_or_config : exn :=
  Error "express-landlord: InMemoryData provider - missing {tenant.name} or {tenant.config}.".

Definition no_data : string :=
  "express-landlord: InMemoryData provider - no data has been supplied.".

(** [const { name, config } = u] for [null] or [undefined]. *)
Definition cannot_destructure (u : nullish) : exn :=
  TypeError ("Cannot destructure property 'name' of 'tenantData' as it is "
             +:+ nullish_text u +:+ ".").

(** [new InMemoryData(options)] *)
Definition new (tenants : tenants_arg) : exn + t :=
  match tenants with
  | Absent | Single (Nullish _) => inl missing_tenants
  | Single d => inr {| _data := [d] |}
  | Array ds => inr {| _data := ds |}
  end.

Definition found (n : string) : string :=
  "express-landlord: InMemoryData provider - found " +:+ n +:+ " ...".

Definition created (n : string) : string :=
  "express-landlord:  FileSystem provider - created " +:+ n.

(** The body of the loop: [tenants] is the array being filled.  The
    destructuring [const { name, config } = tenantData] throws for [null]
    and [undefined]. *)
Definition add (tenantData : tenant_data) : M (list Tenant.t) unit :=
  match tenantData with
  | Nullish u => throw (cannot_destructure u)
  | Data name config =>
      if negb (string_truthy name) || negb (bool_decide (is_Some config))
      then throw missing_name_or_config
      else
        log (found (text name)) ;;
        tenant <- lift (new_Tenant name config) ;;
        modify (fun tenants => tenants ++ [tenant]) ;;
        log (created (text name))
  end.

Definition loadTenants_body (this : t) : M (list Tenant.t) (list Tenant.t) :=
  (if (length (_data this) =? 0)%nat then log no_data else ret tt) ;;
  forEach add (_data this) ;;
  get.

(** [provider.loadTenants(log)]: [tenants] starts as [[]]. *)
Definition loadTenants (this : t) : trace * (exn + list Tenant.t) :=
  match loadTenants_body this [] [] with
  | (_, tr, r) => (tr, r)
  end.

Definition provider (this : t) : Landlord.provider :=
  as_provider (loadTenants_body this [] []).

(** The exception the loop ends with at an element that is not complete:
    the one of the runtime for [null] and [undefined], the one of the
    provider for a value without a name or without a config. *)
Definition rejection (d : tenant_data) : exn :=
  match d with
  | Nullish u => cannot_destructure u
  | Data _ _ => missing_name_or_config
  end.

(** The element has a name and a config. *)
Definition complete (d : tenant_data) : bool :=
  string_truthy (name d) && bool_decide (is_Some (config d)).

(** The tenant built from a complete element. *)
Definition tenant_of (d : tenant_data) : Tenant.t :=
  Tenant.make (text (name d)) (default ∅ (config d)).

Definition record_of (d : tenant_data) : string * obj :=
  (text (name d), default ∅ (config d)).

(** The lines logged for it. *)
Definition logs (d : tenant_data) : trace :=
  [ELog (found (text (name d))); ELog (created (text (name d)))].

End InMemoryData.

(** ** file-system.js *)
Module FileSystem.

(** [options.globs]: falsy, one pattern, or an array of patterns. *)
Inductive globs_arg :=
  | Absent
  | Pattern (glob : string)
  | Patterns (globs : list string).

Record t := { globs : globs_arg }.

Definition missing_globs : exn :=
  Error "landlord: FileSystem provider - missing {options.globs}.".

(** [new FileSystem(options)] *)
Definition new (g : globs_arg) : exn + t :=
  match g with
  | Absent => inl missing_globs
  | Pattern glob => if String.eqb glob "" then inl missing_globs else inr {| globs := g |}
  | Patterns _ => inr {| globs := g |}
  end.

(** An element of what [globResolver(globs, globOptions)] returns, an
    external call: the name of the file without its extension and its
    path; and what [require(fullPath)] does for it: it throws, or yields
    the exported object ([None] for a falsy export such as [null]). *)
Record file := {
  name : string;
  fullPath : string;
  exported : exn + option obj;
}.

(** [config.name.toLowerCase().replace('.tenant', '')], for a name that
    is ASCII text. *)
Definition tenant_name (name : string) : string :=
  JsString.replace ".tenant" "" (JsString.toLowerCase name).

(** The name of the file is ASCII text. *)
Definition ascii_named (f : file) : bool := JsString.is_ascii (name f).

Definition no_files : string :=
  "landlord: FileSystem provider - no files found matching the supplied pattern.".

Definition found (fullPath : string) : string :=
  "landlord: FileSystem provider - found " +:+ fullPath +:+ " ...".

Definition created (tenant : string) : string :=
  "landlord: FileSystem provider - created " +:+ tenant.

(** The body of the loop: [tenants] is the array being filled. *)
Definition add (config : file) : M (list Tenant.t) unit :=
  log (found (fullPath config)) ;;
  module <- lift (exported config) ;;
  tenant <- lift (new_Tenant (Some (tenant_name (name config))) module) ;;
  modify (fun tenants => tenants ++ [tenant]) ;;
  log (created (tenant_name (name config))).

Definition loadTenants_body (configs : list file) : M (list Tenant.t) (list Tenant.t) :=
  (if (length configs =? 0)%nat then log no_files else ret tt) ;;
  forEach add configs ;;
  get.

(** [provider.loadTenants(log)], given what the resolver finds for the
    globs of the provider. *)
Definition loadTenants (globResolver : globs_arg → list file) (this : t)
  : trace * (exn + list Tenant.t) :=
  match loadTenants_body (globResolver (globs this)) [] [] with
  | (_, tr, r) => (tr, r)
  end.

Definition provider (globResolver : globs_arg → list file) (this : t) : Landlord.provider :=
  as_provider (loadTenants_body (globResolver (globs this)) [] []).

(** The file yields a tenant: its module loads and exports an object, and
    the name derived from the file is not empty. *)
Definition usable (f : file) : bool :=
  match exported f with
  | inr (Some _) => negb (String.eqb (tenant_name (name f)) "")
  | _ => false
  end.

Definition tenant_of (f : file) : Tenant.t :=
  Tenant.make (tenant_name (name f))
    match exported f with
    | inr (Some c) => c
    | _ => ∅
    end.

Definition record_of (f : file) : string * obj :=
  (Tenant._name (tenant_of f), Tenant._config (tenant_of f)).

(** The lines logged for it. *)
Definition logs (f : file) : trace :=
  [ELog (found (fullPath f)); ELog (created (tenant_name (name f)))].

(** A file that exports the object [c], and a resolver that finds the
    files [fs] whatever the globs. *)
Definition exporting (name : string) (c : obj) : file :=
  {| name := name; fullPath := "/tenants/" +:+ name +:+ ".json";
     exported := inr (Some c) |}.

Definition finding (fs : list file) : globs_arg → list file := fun _ => fs.

End FileSystem.

End Providers.

(* ===================================================================== *)
(** * landlord.js: attaching the databases *)
(* ===================================================================== *)

Module Attach.
Import Json Effects.
#[local] Open Scope js_scope.

(** [options.db] *)
Record db_options := {
  factory : option Tenant.factory;
  finalizer : option Tenant.finalizer;
  configPath : option string;
}.

Definition skipped : string := "landlord: Database connectivity was skipped.".

Definition attaching (n : string) : string := "landlord: Attaching " +:+ n +:+ " ...".
Definition attached (n : string) : string := "landlord: Attached " +:+ n +:+ ".".
Definition skipped_tenant (n : string) : string :=
  "landlord: Skipped " +:+ n +:+ " (no db config).".

Section lodash.

(** lodash's [_.get(object, path)], an external function: the value of the
    configuration at the path, or [undefined]. *)
Variable get_path : obj → string → arg.

(** The body of the loop of [attachDatabases]. *)
Definition attach_one (f : Tenant.factory) (fin : Tenant.finalizer) (configPath : string)
  : M Tenant.t unit :=
  tenant <- get ;;
  log (attaching (Tenant._name tenant)) ;;
  let dbConfig := get_path (Tenant._config tenant) configPath in
  if Landlord.arg_truthy dbConfig then
    Tenant.attachDatabase f (Some fin) dbConfig ;;
    log (attached (Tenant._name tenant))
  else log (skipped_tenant (Tenant._name tenant)).

(** [Landlord.attachDatabases(tenants, options)] *)
Definition attachDatabases (db : option db_options) : M Coll.t unit :=
  match db with
  | Some {| factory := Some f; finalizer := Some fin; configPath := Some p |} =>
      if String.eqb p "" then log skipped
      else Coll.forEach_values (attach_one f fin p)
  | _ => log skipped
  end.

(** The record has a database configuration at the path. *)
Definition configured (p : string) (x : Tenant.t) : bool :=
  Landlord.arg_truthy (get_path (Tenant._config x) p).

(** What the loop does to a record when the factory returns: a configured
    record gets the handle and the finalizer. *)
Definition attach_record (f : Tenant.factory) (fin : Tenant.finalizer) (p : string)
    (x : Tenant.t) : Tenant.t :=
  if configured p x then
    match f (get_path (Tenant._config x) p) with
    | inr h => Tenant.set_dbFinalizer (Some fin) (Tenant.set_db h x)
    | inl _ => x
    end
  else x.

(** The calls the loop makes for such a record. *)
Definition attach_trace (p : string) (x : Tenant.t) : trace :=
  if configured p x then
    [ELog (attaching (Tenant._name x));
     EFactory (get_path (Tenant._config x) p);
     ELog (attached (Tenant._name x))]
  else
    [ELog (attaching (Tenant._name x)); ELog (skipped_tenant (Tenant._name x))].

Definition attach_all (f : Tenant.factory) (fin : Tenant.finalizer) (p : string)
    (l : Coll.props) : Coll.props :=
  map (fun kx => (kx.1, attach_record f fin p kx.2)) l.

(** The exception the loop ends with at a configured record it does not
    get past, and the calls made for that record. *)
Definition failure (f : Tenant.factory) (p : string) (x : Tenant.t) : exn :=
  if handle_truthy (Tenant._db x) then Tenant.already_attached
  else
    match f (get_path (Tenant._config x) p) with
    | inl e => e
    | inr _ => Tenant.already_attached
    end.

Definition failure_trace (p : string) (x : Tenant.t) : trace :=
  ELog (attaching (Tenant._name x))
  :: (if handle_truthy (Tenant._db x) then []
      else [EFactory (get_path (Tenant._config x) p)]).

(** The loop gets past the record: it is skipped, or it holds no truthy
    handle and the factory returns. *)
Definition attaches (f : Tenant.factory) (p : string) (x : Tenant.t) : bool :=
  if configured p x then
    negb (handle_truthy (Tenant._db x))
    && match f (get_path (Tenant._config x) p) with inr _ => true | inl _ => false end
  else true.

End lodash.

(** [!options.db || !options.db.factory || !options.db.finalizer
    || !options.db.configPath] *)
Definition incomplete (db : option db_options) : bool :=
  match db with
  | None => true
  | Some d =>
      negb (bool_decide (is_Some (factory d)))
      || negb (bool_decide (is_Some (finalizer d)))
      || negb (Providers.string_truthy (configPath d))
  end.

(** [_.get(object, path)] for a path that is one key of word characters
    and not the name of an inherited member: the own property, or
    [undefined]. *)
Definition get_key : obj → string → arg :=
  fun o k => match o !! k with Some v => Val v | None => Undefined end.

(** All options are given. *)
Definition complete (f : Tenant.factory) (fin : Tenant.finalizer) (p : string)
  : option db_options :=
  Some {| factory := Some f; finalizer := Some fin; configPath := Some p |}.

(** The record holds no handle and no finalizer, as a new [Tenant]. *)
Definition detached (x : Tenant.t) : bool :=
  match Tenant._db x, Tenant._dbFinalizer x with
  | HNull, None => true
  | _, _ => false
  end.

(** The handle [detachDatabase] passes to the finalizer of the record, if
    it calls one. *)
Definition finalizable (x : Tenant.t) : option handle :=
  match Tenant.finalizer_call x with
  | Some _ => Some (Tenant._db x)
  | None => None
  end.

(** The handles passed to a finalizer, in the order of the calls. *)
Definition finalized (tr : trace) : list handle :=
  omap (fun ev => match ev with EFinalizer h => Some h | _ => None end) tr.

(** A computation that calls no finalizer: it extends the trace by calls
    of other kinds. *)
Definition quiet {St A} (m : M St A) : Prop :=
  ∀ s tr, ∃ tr', (m s tr).1.2 = tr ++ tr' ∧ finalized tr' = [].

(** The name and the config of every own record, in order. *)
Definition contents (c : Coll.t) : list (string * (string * obj)) :=
  map (fun kx => (kx.1, (Tenant._name kx.2, Tenant._config kx.2))) (Coll.own c).

(** The key and the name of every own record, in order. *)
Definition names (c : Coll.t) : list (string * string) :=
  map (fun kx => (kx.1, Tenant._name kx.2)) (Coll.own c).

End Attach.

(* ===================================================================== *)
(** * express-landlord.js: the [ExpressLandlord] class *)
(* ===================================================================== *)

Module ExpressLandlord.
Import Json Effects.
#[local] Open Scope js_scope.

(** [options.req] *)
Record req_arg := {
  path : option string;
  tenantHeader : option string;
}.

Record options := {
  providers : Landlord.providers_arg;
  req : option req_arg;
  db : option Attach.db_options;
}.

(** An instance: [this._options] and [this._tenants]. *)
Record t := {
  _options : options;
  _tenants : Coll.t;
}.

Definition set_tenants (c : Coll.t) (this : t) : t :=
  {| _options := _options this; _tenants := c |}.

(** [new ExpressLandlord(options)]: [options.req] becomes an object and
    [options.req.path] defaults to ['tenant']. *)
Definition new (o : options) : t :=
  let r := default {| path := None; tenantHeader := None |} (req o) in
  {| _options :=
       {| providers := providers o;
          req := Some {| path := Some (if Providers.string_truthy (path r)
                                       then Providers.text (path r) else "tenant");
                         tenantHeader := tenantHeader r |};
          db := db o |};
     _tenants := Coll.empty |}.

(** [options.req] as the middleware reads it. *)
Definition req_options (o : options) : Express.req_options :=
  let r := default {| path := None; tenantHeader := None |} (req o) in
  {| Express.path := Providers.text (path r);
     Express.tenantHeader := tenantHeader r |}.

(** A call of a function of the library: its calls are appended to the
    trace. *)
Definition call {St A} (r : trace * (exn + A)) : M St A :=
  fun s tr => (s, tr ++ r.1, r.2).

(** A computation on the object [this._tenants] refers to. *)
Definition on_tenants {A} (m : M Coll.t A) : M t A :=
  fun this tr =>
    match m (_tenants this) tr with
    | (c, tr', r) => (set_tenants c this, tr', r)
    end.

Section lodash.

Variable get_path : obj → string → arg.

(** [use()], up to the [return]. *)
Definition use : M t unit :=
  this <- get ;;
  tenants <- call (Landlord.loadTenants
                     {| Landlord.providers := providers (_options this) |}) ;;
  modify (set_tenants tenants) ;;
  on_tenants (Attach.attachDatabases get_path (db (_options this))).

End lodash.

(** The function [use()] returns, run while [this._tenants] is the object
    that call of [use()] made. *)
Definition middleware (this : t) (request : Express.request)
  : Express.request * Express.next_call :=
  Express.bindTenantToRequest (_tenants this) (req_options (_options this)) request.

(** [cleanup()] *)
Definition cleanup : M t unit :=
  this <- get ;;
  if (length (Coll.keys (_tenants this)) =? 0)%nat then ret tt
  else on_tenants Landlord.detachDatabases.

End ExpressLandlord.

(* ===================================================================== *)
(** * express-route-reporter.js *)
(* ===================================================================== *)

Module RouteReporter.
Import Json Effects.

(** An Express route: its path, a string, and the names of its methods in
    the order of [Object.keys(route.methods)]. *)
Record route := {
  path : string;
  methods : list string;
}.

(** A layer of a router's stack: [layer.route], [layer.name],
    [layer.regexp] given by its [toString()], and [layer.handle.stack],
    which is an array when the handle is a router. *)
Inductive layer :=
  | Layer (route : option route) (name : string) (regexp : option string)
      (stack : option (list layer)).

(** [scrubRegex(re)], on [re.toString()]. *)
Definition scrubRegex (re : string) : string :=
  JsString.unescape_slashes
    (JsString.replace "\/?(?=\/|$)/i" ""
       (JsString.replace "?$/i" ""
          (JsString.replace "/^" "" re))).

(** An element of the array [findRoutes] returns. *)
Record found := {
  found_route : route;
  basePath : list string;
}.

(** The predicate of the [filter]. *)
Definition kept (l : layer) : bool :=
  match l with
  | Layer route name regexp _ =>
      bool_decide (is_Some route)
      || String.eqb name "router"
      || (String.eqb name "<anonymous>" && bool_decide (is_Some regexp))
  end.

(** The [TypeError]s of [scrubRegex(undefined)] and of
    [findRoutes(undefined, ...)]. *)
Definition not_a_regexp : exn :=
  TypeError "Cannot read properties of undefined (reading 'toString')".
Definition not_a_stack : exn :=
  TypeError "Cannot read properties of undefined (reading 'filter')".

(** [array.flatMap(body)] for a body that may throw. *)
Fixpoint flatMap {A B} (body : A → exn + list B) (l : list A) : exn + list B :=
  match l with
  | [] => inr []
  | a :: l' =>
      match body a with
      | inl e => inl e
      | inr bs =>
          match flatMap body l' with
          | inl e => inl e
          | inr bs' => inr (bs ++ bs')
          end
      end
  end.

(** What [findRoutes] yields for one layer of the stack: nothing for a
    layer the filter drops, otherwise the result of the body of the
    [flatMap]. *)
Fixpoint visit (basePath : list string) (l : layer) {struct l} : exn + list found :=
  match l with
  | Layer (Some r) _ _ _ => inr [{| found_route := r; basePath := basePath |}]
  | Layer None name regexp stack =>
      if String.eqb name "<anonymous>" then
        match regexp with
        | Some re =>
            inr [{| found_route := {| path := scrubRegex re; methods := ["all"] |};
                    basePath := basePath |}]
        | None => inr []
        end
      else if String.eqb name "router" then
        match regexp, stack with
        | None, _ => inl not_a_regexp
        | Some _, None => inl not_a_stack
        | Some re, Some st => flatMap (visit (basePath ++ [scrubRegex re])) st
        end
      else inr []
  end.

(** [findRoutes(stack, path)] *)
Definition findRoutes (stack : list layer) (path : list string) : exn + list found :=
  flatMap (visit path) stack.

(** An element of the array [getRoutes] returns. *)
Record reported := {
  method : string;
  reported_route : string;
}.

Definition report (r : found) : list reported :=
  map (fun m => {| method := m;
                   reported_route := JsString.join (basePath r) +:+ path (found_route r) |})
      (methods (found_route r)).

(** [getRoutes(app)], on [app._router.stack]. *)
Definition getRoutes (stack : list layer) : exn + list reported :=
  match findRoutes stack [] with
  | inl e => inl e
  | inr found => inr (flat_map report found)
  end.

(** ** Texts and layers the statements speak of *)

(** A path with its slashes escaped, as the text of a regular expression
    shows them. *)
Fixpoint escape_slashes (s : string) : string :=
  match s with
  | EmptyString => EmptyString
  | String c s' =>
      if Ascii.eqb c "/" then String "\" (String "/" (escape_slashes s'))
      else String c (escape_slashes s')
  end.

(** The text of the regexp of a layer mounted at the path [p], and of the
    regexp of a route with the path [p]. *)
Definition mount_regexp (p : string) : string :=
  "/^" +:+ escape_slashes p +:+ "\/?(?=\/|$)/i".

Definition route_regexp (p : string) : string :=
  "/^" +:+ escape_slashes p +:+ "\/?$/i".

(** The layer of a router with the stack [stack], mounted under the
    regexp with the text [re]. *)
Definition router (re : string) (stack : list layer) : layer :=
  Layer None "router" (Some re) (Some stack).

(** An element found under the base path [b]. *)
Definition rebase (b : list string) (e : found) : found :=
  {| found_route := found_route e; basePath := b ++ basePath e |}.

(** A reported route with [b] put before its path. *)
Definition prefixed (b : string) (r : reported) : reported :=
  {| method := method r; reported_route := b +:+ reported_route r |}.

End RouteReporter.

(* ===================================================================== *)
(** * Properties of the merge *)
(* ===================================================================== *)

Module JsonFacts.
Import Json.

Lemma vsize_lookup (o : obj) k v :
  o !! k = Some v → vsize v < vsize (VObj o).
Proof.
  simpl. revert k v.
  induction o as [|i x m Hi IH] using map_ind; intros k v Hk.
  - by rewrite lookup_empty in Hk.
  - rewrite map_fold_insert_L; [|intros; lia|done].
    destruct (decide (i = k)) as [->|Hne].
    + rewrite lookup_insert_eq in Hk. injection Hk as ->. lia.
    + rewrite lookup_insert_ne in Hk by done. specialize (IH _ _ Hk). lia.
Qed.

(** Induction on a value with the hypothesis for every property. *)
Lemma value_ind' (P : value → Prop) :
  (∀ a, P (VAtom a)) →
  (∀ o : obj, (∀ k v, o !! k = Some v → P v) → P (VObj o)) →
  ∀ v, P v.
Proof.
  intros Ha Ho v.
  remember (vsize v) as n eqn:Hn.
  revert v Hn. induction n as [n IH] using lt_wf_ind. intros v ->.
  destruct v as [a|o]; [apply Ha|].
  apply Ho. intros k v Hk. eapply IH; [|reflexivity]. by eapply vsize_lookup.
Qed.

Lemma combine_obj x b :
  combine x (VObj b)
  = VObj (baseMerge (match x with Some (VObj a) => a | _ => ∅ end) b).
Proof. reflexivity. Qed.

(** The merge, property by property: a key of the source holds the
    combination of both sides, any other key keeps what the destination
    had. *)
Lemma lookup_baseMerge (a b : obj) k :
  baseMerge a b !! k =
    match b !! k with
    | Some y => Some (combine (a !! k) y)
    | None => a !! k
    end.
Proof.
  unfold baseMerge. rewrite lookup_union, map_lookup_imap.
  destruct (b !! k) as [y|]; simpl; by destruct (a !! k).
Qed.

Lemma combine_None y : combine None y = y.
Proof.
  induction y as [a|o IH] using value_ind'; [done|].
  rewrite combine_obj. f_equal. apply map_eq. intros k.
  rewrite lookup_baseMerge, lookup_empty.
  destruct (o !! k) as [v|] eqn:Hk; [|done].
  f_equal. by eapply IH.
Qed.

Lemma combine_atom a y : combine (Some (VAtom a)) y = y.
Proof. destruct y as [b|o]; [done|]. rewrite combine_obj. by rewrite <- (combine_None (VObj o)). Qed.

Lemma baseMerge_empty_l (o : obj) : baseMerge ∅ o = o.
Proof.
  apply map_eq. intros k. rewrite lookup_baseMerge, lookup_empty.
  destruct (o !! k); [|done]. by rewrite combine_None.
Qed.

Lemma baseMerge_empty_r (o : obj) : baseMerge o ∅ = o.
Proof. apply map_eq. intros k. by rewrite lookup_baseMerge, lookup_empty. Qed.

Lemma combine_self y : combine (Some y) y = y.
Proof.
  induction y as [a|o IH] using value_ind'; [done|].
  rewrite combine_obj. f_equal. apply map_eq. intros k.
  rewrite lookup_baseMerge.
  destruct (o !! k) as [v|] eqn:Hk; [|done].
  f_equal. by eapply IH.
Qed.

Lemma baseMerge_self (o : obj) : baseMerge o o = o.
Proof.
  apply map_eq. intros k. rewrite lookup_baseMerge.
  destruct (o !! k); [|done]. by rewrite combine_self.
Qed.

Lemma combine_idem x y : combine x (combine x y) = combine x y.
Proof.
  revert x. induction y as [a|b IH] using value_ind'; intros x; [done|].
  rewrite !combine_obj. f_equal.
  set (a := match x with Some (VObj a) => a | _ => ∅ end).
  apply map_eq. intros k. rewrite !lookup_baseMerge.
  destruct (b !! k) as [y|] eqn:Hk.
  - f_equal. by eapply IH.
  - destruct (a !! k) as [w|]; [|done]. by rewrite combine_self.
Qed.

Lemma baseMerge_idem (a b : obj) : baseMerge a (baseMerge a b) = baseMerge a b.
Proof.
  apply map_eq. intros k. rewrite !lookup_baseMerge.
  destruct (b !! k) as [y|].
  - by rewrite combine_idem.
  - destruct (a !! k) as [w|]; [|done]. by rewrite combine_self.
Qed.

(** [_.merge({}, s1, s2)] is [s2] merged into what [s1] contributes. *)
Lemma merge_eq s1 s2 : merge s1 s2 = baseMerge (source_props s1) (source_props s2).
Proof. unfold merge. by rewrite baseMerge_empty_l. Qed.

Lemma merge_undefined_l (o : obj) : merge Undefined (Val (VObj o)) = o.
Proof. rewrite merge_eq. simpl. apply baseMerge_empty_l. Qed.

Lemma merge_objects (d o : obj) : merge (Val (VObj d)) (Val (VObj o)) = baseMerge d o.
Proof. by rewrite merge_eq. Qed.

End JsonFacts.

(* ===================================================================== *)
(** * Properties of [Tenant] *)
(* ===================================================================== *)

Module TenantFacts.
Import Json Effects Tenant.

Lemma detachDatabase_eq x tr :
  detachDatabase x tr =
    match finalizer_call x with
    | None => (clear x, tr, inr tt)
    | Some (inr _) => (clear x, tr ++ [EFinalizer (_db x)], inr tt)
    | Some (inl e) => (x, tr ++ [EFinalizer (_db x)], inl e)
    end.
Proof.
  unfold detachDatabase, finalizer_call, bind, get. simpl.
  destruct (handle_truthy (_db x)); [|done].
  destruct (_dbFinalizer x) as [fin|]; [|done]. simpl.
  unfold call_finalizer, bind, emit, lift. simpl.
  by destruct (fin (_db x)) as [e|[]].
Qed.

Lemma attachDatabase_truthy x f fin cfg tr :
  handle_truthy (_db x) = true →
  attachDatabase f fin cfg x tr = (x, tr, inl already_attached).
Proof. intros H. unfold attachDatabase, bind, get. simpl. by rewrite H. Qed.

Lemma attachDatabase_falsy x f fin cfg tr :
  handle_truthy (_db x) = false →
  attachDatabase f fin cfg x tr =
    match f cfg with
    | inr h => (set_dbFinalizer fin (set_db h x), tr ++ [EFactory cfg], inr tt)
    | inl e => (x, tr ++ [EFactory cfg], inl e)
    end.
Proof.
  intros H. unfold attachDatabase, bind, get. simpl. rewrite H.
  unfold call_factory, bind, emit, lift. simpl.
  by destruct (f cfg).
Qed.

(** C6 (as amended).  A record without a handle is attached with a factory
    that returns [h].  Detaching it afterwards leaves the handle absent
    whenever the finalizer returns; a second attach without a detach fails
    with the already-attached error whenever [h] is truthy; detaching a
    record that was detached before, or never attached, changes nothing,
    returns, and calls no finalizer (the trace is unchanged). *)
Theorem attach_detach_round_trip x f fin cfg h tr :
  handle_truthy (_db x) = false →
  f cfg = inr h →
  let x1 := set_dbFinalizer fin (set_db h x) in
  let tr1 := tr ++ [EFactory cfg] in
  attachDatabase f fin cfg x tr = (x1, tr1, inr tt)
  ∧ (finalizer_returns x1 = true →
     ∃ tr2, detachDatabase x1 tr1 = (clear x1, tr2, inr tt)
            ∧ _db (clear x1) = HNull)
  ∧ (handle_truthy h = true →
     Landlord.kind_of already_attached = Landlord.AlreadyAttached
     ∧ ∀ f' fin' cfg' tr',
         attachDatabase f' fin' cfg' x1 tr' = (x1, tr', inl already_attached))
  ∧ (∀ tr', detachDatabase (clear x1) tr' = (clear x1, tr', inr tt))
  ∧ (∀ n c tr', detachDatabase (make n c) tr' = (make n c, tr', inr tt)).
Proof.
  intros Hx Hf x1 tr1. split; [|split; [|split; [|split]]].
  - by rewrite attachDatabase_falsy, Hf.
  - intros Hfin. rewrite detachDatabase_eq.
    unfold finalizer_returns in Hfin.
    destruct (finalizer_call x1) as [[e|u]|]; [done|by eexists|by eexists].
  - intros Hh. split; [done|].
    intros f' fin' cfg' tr'. by apply attachDatabase_truthy.
  - intros tr'. by rewrite detachDatabase_eq.
  - intros n c tr'. by rewrite detachDatabase_eq.
Qed.

Lemma attach_detach_round_trip_witness :
  let x := make "t" ∅ in
  let x1 := set_dbFinalizer (Some Samples.quiet_finalizer) (set_db (HObject 7) x) in
  attachDatabase Samples.client_factory (Some Samples.quiet_finalizer) Undefined x []
    = (x1, [EFactory Undefined], inr tt)
  ∧ (∃ tr2, detachDatabase x1 [EFactory Undefined] = (clear x1, tr2, inr tt)
            ∧ _db (clear x1) = HNull)
  ∧ (∀ f' fin' cfg' tr',
       attachDatabase f' fin' cfg' x1 tr' = (x1, tr', inl already_attached))
  ∧ (∀ tr', detachDatabase (clear x1) tr' = (clear x1, tr', inr tt))
  ∧ (∀ n c tr', detachDatabase (make n c) tr' = (make n c, tr', inr tt)).
Proof.
  destruct (attach_detach_round_trip (make "t" ∅) Samples.client_factory
              (Some Samples.quiet_finalizer) Undefined (HObject 7) []
              eq_refl eq_refl) as (H1 & H2 & H3 & H4 & H5).
  split; [exact H1|]. split; [exact (H2 eq_refl)|].
  split; [exact (proj2 (H3 eq_refl))|]. split; [exact H4|exact H5].
Defined.

(** C6 as stated fails twice.  After a factory that returns [null], a
    second attach without a detach succeeds.  And after an attach whose
    finalizer throws, the detach leaves the handle in place. *)
Lemma attach_detach_counterexample :
  let x := make "t" ∅ in
  (∃ x1 tr1,
      attachDatabase Samples.null_factory None Undefined x [] = (x1, tr1, inr tt)
      ∧ (attachDatabase Samples.client_factory None Undefined x1 tr1).2 = inr tt)
  ∧ (∃ x1 tr1 x2 tr2,
      attachDatabase Samples.client_factory (Some Samples.failing_finalizer)
        Undefined x [] = (x1, tr1, inr tt)
      ∧ detachDatabase x1 tr1 = (x2, tr2, inl Samples.close_failed)
      ∧ _db x2 = HObject 7).
Proof.
  split.
  - by eexists _, _.
  - by eexists _, _, _, _.
Qed.

(** C7 (as amended).  For a record with a truthy handle and a finalizer,
    [detachDatabase] calls the finalizer on the handle.  When the finalizer
    returns, the handle and the finalizer are cleared.  When it throws, the
    exception reaches the caller and the record is left as it was, handle
    and finalizer in place. *)
Theorem detachDatabase_finalizer_outcome x fin tr :
  handle_truthy (_db x) = true →
  _dbFinalizer x = Some fin →
  detachDatabase x tr =
    match fin (_db x) with
    | inr _ => (clear x, tr ++ [EFinalizer (_db x)], inr tt)
    | inl e => (x, tr ++ [EFinalizer (_db x)], inl e)
    end.
Proof.
  intros H1 H2. rewrite detachDatabase_eq. unfold finalizer_call.
  by rewrite H1, H2.
Qed.

Lemma detachDatabase_finalizer_outcome_witness :
  detachDatabase (Samples.attached "t" 1 Samples.quiet_finalizer) []
  = (clear (Samples.attached "t" 1 Samples.quiet_finalizer),
     [EFinalizer (HObject 1)], inr tt).
Proof.
  exact (detachDatabase_finalizer_outcome
           (Samples.attached "t" 1 Samples.quiet_finalizer)
           Samples.quiet_finalizer [] eq_refl eq_refl).
Defined.

(** C7 as stated fails: with a finalizer that throws, the record is still
    attached after [detachDatabase]. *)
Lemma detachDatabase_counterexample :
  let x := Samples.attached "t" 1 Samples.failing_finalizer in
  ∃ x' tr',
    detachDatabase x [] = (x', tr', inl Samples.close_failed)
    ∧ handle_truthy (_db x') = true
    ∧ is_Some (_dbFinalizer x').
Proof. by eexists _, _. Qed.



Lemma applyDefaults_idempotent d x :
  applyDefaults d (applyDefaults d x) = applyDefaults d x.
Proof.
  unfold applyDefaults, set_config. simpl. f_equal.
  rewrite !JsonFacts.merge_eq. simpl. apply JsonFacts.baseMerge_idem.
Qed.

End TenantFacts.

(* ===================================================================== *)
(** * Properties of the [tenants] object *)
(* ===================================================================== *)

Module CollFacts.
Import Json Effects Coll.

Lemma lookup_replace k k' v (l : props) :
  lookup k' (replace k v l) =
    if String.eqb k' k then (fun _ => v) <$> lookup k l else lookup k' l.
Proof.
  induction l as [|[k0 v0] l IH]; simpl.
  - by destruct (String.eqb k' k).
  - destruct (String.eqb_spec k k0) as [->|Hne]; simpl.
    + destruct (String.eqb_spec k' k0) as [->|Hne']; [done|].
      by destruct (String.eqb_spec k' k0).
    + destruct (String.eqb_spec k' k0) as [->|Hne'].
      * destruct (String.eqb_spec k0 k) as [->|_]; [done|].
        by destruct (String.eqb_spec k0 k0).
      * rewrite IH. destruct (String.eqb_spec k' k) as [->|?]; [|done].
        by destruct (String.eqb_spec k k0).
Qed.

Lemma lookup_place k k' v (l : props) :
  lookup k l = None →
  lookup k' (place k v l) = if String.eqb k' k then Some v else lookup k' l.
Proof.
  induction l as [|[k0 v0] l IH]; simpl; intros Hk.
  - done.
  - destruct (String.eqb_spec k k0) as [->|Hne]; [done|].
    destruct (precedes k k0); simpl.
    + by destruct (String.eqb_spec k' k).
    + destruct (String.eqb_spec k' k0) as [->|Hne'].
      * by destruct (String.eqb_spec k0 k) as [->|_].
      * by apply IH.
Qed.

Lemma keys_replace k v (l : props) :
  lookup k l ≠ None → (replace k v l).*1 = l.*1.
Proof.
  induction l as [|[k0 v0] l IH]; simpl; [done|].
  destruct (String.eqb_spec k k0) as [->|Hne]; simpl; [done|].
  intros H. f_equal. by apply IH.
Qed.

Lemma keys_place k v (l : props) : (place k v l).*1 ≡ₚ k :: l.*1.
Proof.
  induction l as [|[k0 v0] l IH]; simpl; [done|].
  destruct (precedes k k0); simpl; [done|].
  rewrite IH. apply Permutation_swap.
Qed.

Lemma lookup_None_keys k (l : props) : lookup k l = None ↔ k ∉ l.*1.
Proof.
  induction l as [|[k0 v0] l IH]; simpl.
  - split; [intros _; apply not_elem_of_nil|done].
  - destruct (String.eqb_spec k k0) as [->|Hne].
    + split; [done|]. intros H. exfalso. apply H. left.
    + rewrite IH, not_elem_of_cons. tauto.
Qed.

Lemma lookup_map_values (f : Tenant.t → Tenant.t) k (l : props) :
  lookup k (map (fun kx => (kx.1, f kx.2)) l) = f <$> lookup k l.
Proof.
  induction l as [|[k0 v0] l IH]; simpl; [done|].
  by destruct (String.eqb k k0).
Qed.

Lemma keys_map_values (f : Tenant.t → Tenant.t) (l : props) :
  (map (fun kx => (kx.1, f kx.2)) l).*1 = l.*1.
Proof. induction l as [|[k0 v0] l IH]; simpl; [done|]. by f_equal. Qed.

(** Reading a key that is an own property yields that record. *)
Lemma get_own c k x : lookup k (own c) = Some x → get c k = PVTenant x.
Proof. intros H. unfold get. by rewrite H. Qed.

(** With [Object.prototype] as prototype, a key that is neither own nor
    inherited reads as [undefined]; an inherited one reads as a built-in. *)
Lemma get_missing c k :
  proto c = None → lookup k (own c) = None →
  get c k = if mem k object_prototype_names then PVBuiltin else PVUndefined.
Proof.
  intros Hp Hk. unfold get, from_object_prototype. rewrite Hk, Hp.
  destruct (String.eqb_spec k "__proto__") as [->|_]; [done|].
  by destruct (mem k object_prototype_names).
Qed.

(** An applied pure update of every own value. *)
Lemma forEach_values_modify (f : Tenant.t → Tenant.t) c tr :
  forEach_values (modify f) c tr
  = ({| own := map (fun kx => (kx.1, f kx.2)) (own c); proto := proto c |}, tr, inr tt).
Proof.
  unfold forEach_values.
  assert (H : ∀ l, forEach_value (modify f) l tr
                   = (map (fun kx => (kx.1, f kx.2)) l, tr, inr tt)).
  { induction l as [|[k x] l IH]; [done|].
    cbn [forEach_value]. unfold modify at 1. by rewrite IH. }
  by rewrite H.
Qed.

End CollFacts.

(* ===================================================================== *)
(** * Properties of [Landlord] *)
(* ===================================================================== *)

Module LandlordFacts.
Import Json Effects Landlord.

(** ** Running the phases of [loadTenants] *)

Lemma forEach_validate_ok {St} ps (s : St) tr :
  forallb has_loadTenants ps = true →
  forEach validate ps s tr = (s, tr, inr tt).
Proof.
  induction ps as [|p ps IH]; simpl; [done|].
  rewrite andb_true_iff. intros [Hp Hps].
  unfold bind, validate. unfold has_loadTenants in Hp.
  destruct p as [u|ty [ld|]]; [done| |done]. simpl. by apply IH.
Qed.

(** The exception of the first loop at an entry without [loadTenants]. *)
Lemma forEach_validate_fail {St} ps1 p ps2 (s : St) tr :
  forallb has_loadTenants ps1 = true →
  has_loadTenants p = false →
  forEach validate (ps1 ++ p :: ps2) s tr
  = (s, tr, inl match p with
                | Nullish u => cannot_read u "loadTenants"
                | Value ty _ => missing_loadTenants ty
                end).
Proof.
  intros H Hp. induction ps1 as [|q ps1 IH]; simpl.
  - unfold bind, validate. unfold has_loadTenants in Hp.
    by destruct p as [u|ty [ld|]].
  - simpl in H. apply andb_true_iff in H as [Hq Hps].
    unfold bind, validate. unfold has_loadTenants in Hq.
    destruct q as [u|ty [ld|]]; [done| |done]. simpl. by apply IH.
Qed.

Lemma forEach_log {St} ls (s : St) tr :
  forEach log ls s tr = (s, tr ++ map ELog ls, inr tt).
Proof.
  revert tr. induction ls as [|l ls IH]; intros tr; simpl.
  - by rewrite app_nil_r.
  - unfold bind, log, emit. rewrite IH. by rewrite <- app_assoc.
Qed.

Lemma loadTenants_eq a :
  present a = true →
  loadTenants {| providers := a |} =
    match forEach validate (normalize a) Coll.empty [] with
    | (_, tr, inl e) => (tr, inl e)
    | (c, tr, inr _) =>
        match collect (normalize a) c tr with
        | (_, tr', inl e) => (tr', inl e)
        | (c', tr', inr _) =>
            match finish c' tr' with
            | (_, tr'', r) => (tr'', r)
            end
        end
    end.
Proof.
  intros Ha. unfold loadTenants, loadTenants_body, providers.
  rewrite Ha. cbn [negb]. unfold bind.
  destruct (forEach validate _ Coll.empty []) as [[c tr] [e|[]]]; [done|].
  by destruct (collect _ c tr) as [[c' tr'] [e|[]]].
Qed.

Lemma collected_eq a :
  present a = true →
  collected {| providers := a |} =
    match forEach validate (normalize a) Coll.empty [] with
    | (_, _, inl _) => None
    | (c, tr, inr _) =>
        match collect (normalize a) c tr with
        | (_, _, inl _) => None
        | (c', _, inr _) => Some c'
        end
    end.
Proof.
  intros Ha. unfold collected, providers, bind.
  destruct (forEach validate _ Coll.empty []) as [[c tr] [e|[]]]; [done|].
  destruct (collect _ c tr) as [[c' tr'] [e|[]]]; [done|].
  by rewrite Ha.
Qed.

Lemma collect_nothing_from i ps (c : Coll.t) tr :
  forallb returns_nothing ps = true →
  ∃ tr',
    forEach_from i
      (fun i p => bind (call_loadTenants i p) (fun found => forEach add_tenant found))
      ps c tr = (c, tr', inr tt).
Proof.
  revert i tr. induction ps as [|p ps IH]; intros i tr; simpl.
  - by eexists.
  - rewrite andb_true_iff. intros [Hp Hps]. unfold returns_nothing in Hp.
    unfold bind at 1. unfold bind at 1. unfold call_loadTenants.
    destruct (method p) as [ld|]; [|done].
    destruct (outcome ld) as [e|[|? ?]]; [done| |done].
    unfold bind, emit. rewrite forEach_log. simpl. by apply IH.
Qed.

Lemma returns_nothing_has ps :
  forallb returns_nothing ps = true → forallb has_loadTenants ps = true.
Proof.
  induction ps as [|p ps IH]; simpl; [done|].
  rewrite !andb_true_iff. intros [Hp Hps]. split; [|by apply IH].
  unfold returns_nothing in Hp. unfold has_loadTenants. by destruct (method p).
Qed.

Lemma kind_of_missing_loadTenants ty : kind_of (missing_loadTenants ty) = InvalidArgument.
Proof. by destruct ty. Qed.

(** C4.  When [options.providers] is given and every provider's
    [loadTenants] returns the empty array, [loadTenants] throws the error
    for an empty collection instead of returning. *)
Theorem loadTenants_no_tenants a :
  present a = true →
  forallb returns_nothing (normalize a) = true →
  ∃ tr, loadTenants {| providers := a |} = (tr, inl no_configs)
        ∧ kind_of no_configs = NoTenantsFound.
Proof.
  intros Ha Hps. rewrite loadTenants_eq by done.
  rewrite forEach_validate_ok by by apply returns_nothing_has.
  destruct (collect_nothing_from 0 (normalize a) Coll.empty [] Hps) as [tr Htr].
  unfold collect. rewrite Htr. by exists tr.
Qed.

Lemma loadTenants_no_tenants_witness :
  ∃ tr, loadTenants {| providers := Array [Samples.source []; Samples.source []] |}
        = (tr, inl no_configs)
        ∧ kind_of no_configs = NoTenantsFound.
Proof.
  exact (loadTenants_no_tenants (Array [Samples.source []; Samples.source []])
           eq_refl eq_refl).
Defined.

(** C5 (as amended).  A falsy [options.providers], [null] and [undefined]
    included, fails with the invalid-argument error.  Otherwise the first
    entry without a [loadTenants] function, all entries before it having
    one, decides: an entry that is a value fails with the invalid-argument
    error that names the type of that entry; an entry that is [null] or
    [undefined] fails with the [TypeError] of the runtime, which is not an
    invalid-argument error.  In all three cases nothing was called: the
    trace is empty.  An empty array of providers is not an invalid
    argument either: it fails with the error for an empty collection. *)
Theorem loadTenants_invalid_argument :
  (∀ a, present a = false →
     loadTenants {| providers := a |} = ([], inl missing_providers)
     ∧ kind_of missing_providers = InvalidArgument)
  ∧ (∀ a ps1 ty ps2,
       present a = true →
       normalize a = ps1 ++ Value ty None :: ps2 →
       forallb has_loadTenants ps1 = true →
       loadTenants {| providers := a |} = ([], inl (missing_loadTenants ty))
       ∧ kind_of (missing_loadTenants ty) = InvalidArgument)
  ∧ (∀ a ps1 u ps2,
       present a = true →
       normalize a = ps1 ++ Nullish u :: ps2 →
       forallb has_loadTenants ps1 = true →
       loadTenants {| providers := a |} = ([], inl (cannot_read u "loadTenants"))
       ∧ kind_of (cannot_read u "loadTenants") = OtherError)
  ∧ (loadTenants {| providers := Array [] |} = ([], inl no_configs)
     ∧ kind_of no_configs = NoTenantsFound).
Proof.
  split; [|split; [|split; [|done]]].
  - intros a Ha. split; [|done].
    unfold loadTenants, loadTenants_body, providers. by rewrite Ha.
  - intros a ps1 ty ps2 Hpres Ha Hps1. split; [|apply kind_of_missing_loadTenants].
    rewrite loadTenants_eq by done. rewrite Ha.
    by rewrite forEach_validate_fail.
  - intros a ps1 u ps2 Hpres Ha Hps1. split; [|done].
    rewrite loadTenants_eq by done. rewrite Ha.
    by rewrite forEach_validate_fail.
Qed.

Lemma loadTenants_invalid_argument_witness :
  loadTenants {| providers := Single (Nullish JsNull) |} = ([], inl missing_providers)
  ∧ loadTenants {| providers := Array [Samples.source []; Samples.not_a_source;
                                       Samples.source []] |}
    = ([], inl (Error "landlord: Provider object missing {provider.loadTenants}."))
  ∧ loadTenants {| providers := Array [Samples.source []; Nullish JsNull;
                                       Samples.not_a_source] |}
    = ([], inl (TypeError "Cannot read properties of null (reading 'loadTenants')")).
Proof.
  split; [|split].
  - exact (proj1 (proj1 loadTenants_invalid_argument
                    (Single (Nullish JsNull)) eq_refl)).
  - exact (proj1 (proj1 (proj2 loadTenants_invalid_argument)
                    (Array [Samples.source []; Samples.not_a_source; Samples.source []])
                    [Samples.source []] TObject [Samples.source []]
                    eq_refl eq_refl eq_refl)).
  - exact (proj1 (proj1 (proj2 (proj2 loadTenants_invalid_argument))
                    (Array [Samples.source []; Nullish JsNull; Samples.not_a_source])
                    [Samples.source []] JsNull [Samples.not_a_source]
                    eq_refl eq_refl eq_refl)).
Defined.

(** C5 as stated fails: for an empty array of providers the error is the
    one for an empty collection, not an invalid argument. *)
Lemma loadTenants_empty_array_counterexample :
  ∃ e, loadTenants {| providers := Array [] |} = ([], inl e)
       ∧ kind_of e ≠ InvalidArgument.
Proof. exists no_configs. by split. Qed.

(** ** [detachDatabases] *)

Lemma detach_one_eq x tr :
  detach_one x tr =
    match Tenant.finalizer_call x with
    | Some (inl e) =>
        (x, tr ++ [ELog ("landlord: Cleaning up " +:+ Tenant._name x +:+ " ...");
                   EFinalizer (Tenant._db x)], inl e)
    | _ => (Tenant.clear x, tr ++ detach_trace x, inr tt)
    end.
Proof.
  unfold detach_one, bind, get, log, emit, detach_trace.
  rewrite TenantFacts.detachDatabase_eq.
  destruct (Tenant.finalizer_call x) as [[e|u]|]; simpl;
    by rewrite <- ?app_assoc.
Qed.

Lemma forEach_value_detach l1 rest tr :
  forallb Tenant.finalizer_returns l1.*2 = true →
  Coll.forEach_value detach_one (l1 ++ rest) tr =
    match Coll.forEach_value detach_one rest (tr ++ flat_map detach_trace l1.*2) with
    | (rest', tr', r) => (clear_all l1 ++ rest', tr', r)
    end.
Proof.
  revert tr. induction l1 as [|[k x] l1 IH]; intros tr.
  - intros _. simpl. rewrite app_nil_r.
    by destruct (Coll.forEach_value detach_one rest tr) as [[? ?] ?].
  - rewrite fmap_cons. cbn [forallb flat_map app Coll.forEach_value snd].
    rewrite andb_true_iff. intros [Hx Hl1].
    rewrite detach_one_eq. unfold Tenant.finalizer_returns in Hx.
    rewrite (app_assoc tr).
    destruct (Tenant.finalizer_call x) as [[e|u]|]; [done| |];
      rewrite IH by done;
      by destruct (Coll.forEach_value detach_one rest _) as [[? ?] ?].
Qed.

(** C8 (as amended).  The own records are split at the first one whose
    finalizer throws: [l1] holds the records before it, every finalizer
    called on them returns; [rest] is empty or starts with the record whose
    finalizer throws.  [detachDatabases] detaches the records of [l1] in
    order.  When [rest] is empty it logs the end and returns, also for an
    empty collection.  Otherwise the exception leaves [detachDatabases] at
    that record: the record and all later ones keep their state, and no
    further call, not even a log line, is made. *)
Theorem detachDatabases_until_failure l1 rest p tr :
  forallb Tenant.finalizer_returns l1.*2 = true →
  match rest with
  | [] => true
  | (_, x) :: _ => negb (Tenant.finalizer_returns x)
  end = true →
  detachDatabases {| Coll.own := l1 ++ rest; Coll.proto := p |} tr =
    ({| Coll.own := clear_all l1 ++ rest; Coll.proto := p |},
     tr ++ [ELog "landlord: Cleaning up..."] ++ flat_map detach_trace l1.*2
        ++ match rest with
           | [] => [ELog "landlord: All cleaned up."]
           | (_, x) :: _ =>
               [ELog ("landlord: Cleaning up " +:+ Tenant._name x +:+ " ...");
                EFinalizer (Tenant._db x)]
           end,
     match rest with
     | [] => inr tt
     | (_, x) :: _ =>
         match Tenant.finalizer_call x with
         | Some (inl e) => inl e
         | _ => inr tt
         end
     end).
Proof.
  intros Hl1 Hrest.
  unfold detachDatabases, bind, log, emit, Coll.forEach_values. simpl.
  rewrite forEach_value_detach by done.
  destruct rest as [|[k x] rest]; simpl.
  - by rewrite <- !app_assoc.
  - rewrite detach_one_eq. unfold Tenant.finalizer_returns in Hrest.
    destruct (Tenant.finalizer_call x) as [[e|u]|]; [|done|done].
    by rewrite <- !app_assoc.
Qed.

Lemma detachDatabases_until_failure_witness :
  detachDatabases
    {| Coll.own := [("a", Samples.attached "a" 1 Samples.quiet_finalizer);
                    ("b", Tenant.make "b" ∅)];
       Coll.proto := None |} []
  = ({| Coll.own := [("a", Tenant.make "a" ∅); ("b", Tenant.make "b" ∅)];
        Coll.proto := None |},
     [ELog "landlord: Cleaning up...";
      ELog "landlord: Cleaning up a ..."; EFinalizer (HObject 1);
      ELog "landlord: Cleaned a.";
      ELog "landlord: Cleaning up b ..."; ELog "landlord: Cleaned b.";
      ELog "landlord: All cleaned up."],
     inr tt).
Proof.
  exact (detachDatabases_until_failure
           [("a", Samples.attached "a" 1 Samples.quiet_finalizer);
            ("b", Tenant.make "b" ∅)] [] None [] eq_refl eq_refl).
Defined.

(** C8 as stated fails: when the finalizer of the first record throws,
    [detachDatabases] throws, and the second record is still attached, its
    finalizer never called. *)
Lemma detachDatabases_counterexample :
  ∃ c tr,
    detachDatabases
      {| Coll.own := [("a", Samples.attached "a" 1 Samples.failing_finalizer);
                      ("b", Samples.attached "b" 2 Samples.quiet_finalizer)];
         Coll.proto := None |} []
    = (c, tr, inl Samples.close_failed)
    ∧ (∃ x, Coll.lookup "b" (Coll.own c) = Some x ∧ Tenant._db x = HObject 2)
    ∧ EFinalizer (HObject 2) ∉ tr.
Proof.
  eexists _, _. split; [reflexivity|]. split.
  - by eexists.
  - simpl. rewrite !not_elem_of_cons. repeat split; try discriminate.
    apply not_elem_of_nil.
Qed.

(** ** [loadTenants]: collecting the records *)

Lemma finish_default c s tr :
  Coll.lookup "_default_" (Coll.own c) = Some s →
  finish c tr =
    (let c' := {| Coll.own := map (fun kx => (kx.1,
                     Tenant.applyDefaults (Val (VObj (Tenant._config s))) kx.2))
                     (Coll.own c);
                  Coll.proto := Coll.proto c |} in
     (c', (tr ++ [ELog "landlord: Found defaults ..."])
            ++ [ELog "landlord: Defaults applied."], inr c')).
Proof.
  intros Hs. unfold finish, bind at 1, get at 1.
  assert ((length (Coll.keys c) =? 0)%nat = false) as ->.
  { unfold Coll.keys. destruct (Coll.own c); [done|]. reflexivity. }
  unfold default_config. rewrite (CollFacts.get_own _ _ _ Hs). simpl.
  unfold bind, lift, ret, log, emit. simpl.
  by rewrite CollFacts.forEach_values_modify.
Qed.

Lemma finish_no_default c tr :
  Coll.own c ≠ [] →
  Coll.proto c = None →
  Coll.lookup "_default_" (Coll.own c) = None →
  finish c tr = (c, tr, inr c).
Proof.
  intros Hne Hp Hs. unfold finish, bind at 1, get at 1.
  assert ((length (Coll.keys c) =? 0)%nat = false) as ->.
  { unfold Coll.keys. by destruct (Coll.own c). }
  unfold default_config. by rewrite (CollFacts.get_missing _ _ Hp Hs).
Qed.

Lemma loadTenants_collected o c :
  collected o = Some c →
  ∃ tr, loadTenants o = match finish c tr with (_, tr', r) => (tr', r) end.
Proof.
  destruct o as [a]. intros Hc.
  assert (present a = true) as Ha.
  { unfold collected, providers in Hc. destruct (present a); [done|].
    by destruct (bind _ _ _ _) as [[? ?] [?|?]]. }
  rewrite collected_eq in Hc by done. rewrite loadTenants_eq by done.
  destruct (forEach validate _ Coll.empty []) as [[c0 tr0] [e|[]]]; [done|].
  destruct (collect _ c0 tr0) as [[c1 tr1] [e|[]]]; [done|].
  injection Hc as ->. by exists tr1.
Qed.

Lemma applyDefaults_own_config x :
  Tenant.applyDefaults (Val (VObj (Tenant._config x))) x = x.
Proof.
  unfold Tenant.applyDefaults. rewrite JsonFacts.merge_objects, JsonFacts.baseMerge_self.
  by destruct x.
Qed.

(** C2.  Let [c] be the collection as the providers filled it, holding a
    record [s] under [_default_].  Then [loadTenants] returns a collection
    with the same keys in which every record has the config of [s] merged
    beneath its own.  For the sentinel that leaves the record as it was.
    Beneath means, for objects at any depth: a key of the record holds the
    record's value combined with the default's, any other key of the
    default is carried over; combining two objects merges them the same
    way, the record's on top; and combining yields the record's value
    itself in every other case. *)
Theorem loadTenants_applies_default o c s :
  collected o = Some c →
  Coll.lookup "_default_" (Coll.own c) = Some s →
  ∃ tr c',
    loadTenants o = (tr, inr c')
    ∧ Coll.keys c' = Coll.keys c
    ∧ Coll.lookup "_default_" (Coll.own c') = Some s
    ∧ (∀ k x, Coll.lookup k (Coll.own c) = Some x →
         Coll.lookup k (Coll.own c')
         = Some (Tenant.set_config (baseMerge (Tenant._config s) (Tenant._config x)) x))
    ∧ (∀ (d cfg : obj) j,
         baseMerge d cfg !! j =
           match cfg !! j with
           | Some y => Some (combine (d !! j) y)
           | None => d !! j
           end)
    ∧ (∀ d cfg : obj, combine (Some (VObj d)) (VObj cfg) = VObj (baseMerge d cfg))
    ∧ (∀ x y, (∀ a b, x = Some (VObj a) → y = VObj b → False) → combine x y = y).
Proof.
  intros Hc Hs. destruct (loadTenants_collected _ _ Hc) as [tr ->].
  rewrite (finish_default _ _ _ Hs). cbv zeta.
  eexists _, _. split; [reflexivity|]. simpl.
  split; [apply CollFacts.keys_map_values|].
  split; [|split; [|split; [|split]]].
  - by rewrite CollFacts.lookup_map_values, Hs; simpl; rewrite applyDefaults_own_config.
  - intros k x Hk. rewrite CollFacts.lookup_map_values, Hk. simpl.
    unfold Tenant.applyDefaults. by rewrite JsonFacts.merge_objects.
  - intros d cfg j. apply JsonFacts.lookup_baseMerge.
  - intros d cfg. exact (JsonFacts.combine_obj (Some (VObj d)) cfg).
  - intros x y Hxy. destruct y as [a|b]; [done|].
    destruct x as [[a|a]|].
    + apply JsonFacts.combine_atom.
    + by destruct (Hxy a b).
    + apply JsonFacts.combine_None.
Qed.

Lemma loadTenants_applies_default_witness :
  let d : obj :=
    <["db" := VObj (<["port" := Samples.num 1]> {["host" := VAtom (AStr "h")]})]>
      (<["b" := Samples.num 2]> {["a" := Samples.num 1]}) in
  let t : obj :=
    <["db" := VObj {["port" := Samples.num 2]}]> {["b" := Samples.num 99]} in
  let o := {| providers := Single (Samples.source [("_default_", d); ("t", t)]) |} in
  ∃ tr c',
    loadTenants o = (tr, inr c')
    ∧ Coll.lookup "_default_" (Coll.own c') = Some (Tenant.make "_default_" d)
    ∧ Coll.lookup "t" (Coll.own c')
      = Some (Tenant.make "t"
          (<["db" := VObj (<["port" := Samples.num 2]> {["host" := VAtom (AStr "h")]})]>
             (<["b" := Samples.num 99]> {["a" := Samples.num 1]}))).
Proof.
  intros d t o.
  destruct (loadTenants_applies_default o
              {| Coll.own := [("_default_", Tenant.make "_default_" d);
                              ("t", Tenant.make "t" t)];
                 Coll.proto := None |}
              (Tenant.make "_default_" d) eq_refl eq_refl)
    as (tr & c' & H1 & _ & H2 & H3 & _).
  exists tr, c'. split; [exact H1|]. split; [exact H2|].
  exact (H3 "t" (Tenant.make "t" t) eq_refl).
Defined.

Lemma holds_empty : holds Coll.empty ∅.
Proof.
  split; [done|]. split; [apply NoDup_nil_2|].
  intros k. by rewrite lookup_empty.
Qed.

Lemma holds_replace c m n cfg :
  holds c m →
  is_Some (m !! n) →
  holds {| Coll.own := Coll.replace n (Tenant.make n cfg) (Coll.own c);
           Coll.proto := Coll.proto c |} (<[n := cfg]> m).
Proof.
  intros (Hp & Hnd & Hl) [old Hold].
  assert (Coll.lookup n (Coll.own c) = Some (Tenant.make n old)) as Hn.
  { by rewrite Hl, Hold. }
  split; [done|]. split.
  - unfold Coll.keys. simpl. rewrite CollFacts.keys_replace; [done|]. by rewrite Hn.
  - intros k. simpl. rewrite CollFacts.lookup_replace, Hn.
    destruct (String.eqb_spec k n) as [->|Hne].
    + by rewrite lookup_insert_eq.
    + by rewrite lookup_insert_ne.
Qed.

Lemma holds_place c m n cfg :
  holds c m →
  m !! n = None →
  holds {| Coll.own := Coll.place n (Tenant.make n cfg) (Coll.own c);
           Coll.proto := Coll.proto c |} (<[n := cfg]> m).
Proof.
  intros (Hp & Hnd & Hl) Hnone.
  assert (Coll.lookup n (Coll.own c) = None) as Hn.
  { by rewrite Hl, Hnone. }
  split; [done|]. split.
  - unfold Coll.keys. simpl. rewrite CollFacts.keys_place.
    apply NoDup_cons. split; [|done]. by apply CollFacts.lookup_None_keys.
  - intros k. simpl. rewrite CollFacts.lookup_place by done.
    destruct (String.eqb_spec k n) as [->|Hne].
    + by rewrite lookup_insert_eq.
    + by rewrite lookup_insert_ne.
Qed.

(** One record with an ordinary name: the step of the specification. *)
Lemma add_tenant_ordinary c m n cfg tr :
  holds c m →
  n ≠ "__proto__" →
  ∃ c' tr',
    add_tenant (Tenant.make n cfg) c tr = (c', tr', inr tt)
    ∧ holds c' (resolve_step m (n, cfg)).
Proof.
  intros Hc Hn. pose proof Hc as (Hp & Hnd & Hl).
  unfold add_tenant, bind at 1, get at 1. cbn [Tenant._name Tenant.make].
  unfold resolve_step. cbn [fst snd].
  destruct (m !! n) as [old|] eqn:Hm.
  - assert (Coll.lookup n (Coll.own c) = Some (Tenant.make n old)) as Hown.
    { by rewrite Hl, Hm. }
    unfold Coll.has. rewrite Hown.
    rewrite (CollFacts.get_own _ _ _ Hown).
    unfold bind, lift, ret, put, log, emit, Coll.set. rewrite Hown. simpl.
    eexists _, _. split; [reflexivity|].
    unfold Tenant.applyDefaults, Tenant.set_config. simpl.
    rewrite JsonFacts.merge_objects.
    apply holds_replace; [done|by rewrite Hm].
  - assert (Coll.lookup n (Coll.own c) = None) as Hown.
    { by rewrite Hl, Hm. }
    assert (String.eqb n "__proto__" = false) as Hneq.
    { by apply String.eqb_neq. }
    unfold Coll.has. rewrite Hown, Hp.
    rewrite (CollFacts.get_missing _ _ Hp Hown).
    destruct (Coll.mem n Coll.object_prototype_names);
      unfold bind, lift, ret, put, log, emit, Coll.set; simpl;
      rewrite Hown, Hneq, Hp;
      (eexists _, _; split; [reflexivity|]).
    + unfold Tenant.applyDefaults, Tenant.set_config. simpl.
      rewrite JsonFacts.merge_undefined_l. rewrite <- Hp.
      by apply holds_place.
    + rewrite <- Hp. by apply holds_place.
Qed.

Lemma forEach_add_tenant c m l tr :
  holds c m →
  "__proto__" ∉ l.*1 →
  ∃ c' tr',
    forEach add_tenant (map (fun nc => Tenant.make nc.1 nc.2) l) c tr = (c', tr', inr tt)
    ∧ holds c' (foldl resolve_step m l).
Proof.
  revert c m tr. induction l as [|[n cfg] l IH]; intros c m tr Hc Hl.
  - by eexists _, _.
  - rewrite fmap_cons, not_elem_of_cons in Hl. destruct Hl as [Hn Hl].
    destruct (add_tenant_ordinary c m n cfg tr Hc) as (c1 & tr1 & Hrun & Hc1).
    { done. }
    destruct (IH c1 _ tr1 Hc1 Hl) as (c2 & tr2 & Hrun2 & Hc2).
    exists c2, tr2. split; [|done].
    cbn [map forEach fst snd]. unfold bind. by rewrite Hrun.
Qed.

Lemma records_cons p ps :
  records (p :: ps) =
    match method p with
    | Some ld => match outcome ld with inr l => l | inl _ => [] end
    | None => []
    end ++ records ps.
Proof. reflexivity. Qed.

Lemma collect_from i ps c m tr :
  holds c m →
  forallb loads ps = true →
  "__proto__" ∉ (records ps).*1 →
  ∃ c' tr',
    forEach_from i
      (fun i p => bind (call_loadTenants i p) (fun found => forEach add_tenant found))
      ps c tr = (c', tr', inr tt)
    ∧ holds c' (foldl resolve_step m (records ps)).
Proof.
  revert i c m tr. induction ps as [|p ps IH]; intros i c m tr Hc Hps Hrec.
  - by eexists _, _.
  - cbn [forallb] in Hps. apply andb_true_iff in Hps as [Hp Hps].
    rewrite records_cons, fmap_app, not_elem_of_app in Hrec.
    destruct Hrec as [Hrec1 Hrec2].
    rewrite records_cons, foldl_app.
    unfold loads in Hp. cbn [forEach_from].
    unfold bind at 1. unfold bind at 1. unfold call_loadTenants.
    destruct (method p) as [ld|]; [|done].
    destruct (outcome ld) as [e|l]; [done|].
    unfold bind at 1, emit at 1. unfold bind at 1. rewrite forEach_log.
    unfold bind at 1. cbn [lift ret].
    destruct (forEach_add_tenant c m l ((tr ++ [ELoadTenants i]) ++ map ELog (lines ld))
                Hc Hrec1) as (c1 & tr1 & Hrun & Hc1).
    rewrite Hrun.
    by apply IH.
Qed.

Lemma loads_has ps :
  forallb loads ps = true → forallb has_loadTenants ps = true.
Proof.
  induction ps as [|p ps IH]; simpl; [done|].
  rewrite !andb_true_iff. intros [Hp Hps]. split; [|by apply IH].
  unfold loads in Hp. unfold has_loadTenants. by destruct (method p).
Qed.

Lemma ordinary_names_spec l : ordinary_names l = true → "__proto__" ∉ l.*1.
Proof.
  induction l as [|[n cfg] l IH]; simpl.
  - intros _. apply not_elem_of_nil.
  - rewrite andb_true_iff, negb_true_iff. intros [Hn Hl].
    apply String.eqb_neq in Hn. rewrite not_elem_of_cons. split; [done|by apply IH].
Qed.

(** What the providers leave in [tenants]: the resolution of their
    records, provided every provider returns and no record is named
    [__proto__]. *)
Lemma collected_resolves a :
  present a = true →
  forallb loads (normalize a) = true →
  ordinary_names (records (normalize a)) = true →
  ∃ c, collected {| providers := a |} = Some c
       ∧ holds c (resolve (records (normalize a))).
Proof.
  intros Ha Hps Hrec%ordinary_names_spec. rewrite collected_eq by done.
  rewrite forEach_validate_ok by by apply loads_has.
  destruct (collect_from 0 (normalize a) Coll.empty ∅ [] holds_empty Hps Hrec)
    as (c & tr & Hrun & Hc).
  unfold collect. rewrite Hrun. by exists c.
Qed.

Lemma dom_resolve_from (m : gmap string obj) l :
  dom (foldl resolve_step m l) = dom m ∪ list_to_set l.*1.
Proof.
  revert m. induction l as [|[n cfg] l IH]; intros m; simpl.
  - set_solver.
  - rewrite IH. unfold resolve_step. rewrite dom_insert_L. simpl. set_solver.
Qed.

Lemma dom_resolve l : dom (resolve l) = list_to_set l.*1.
Proof. unfold resolve. rewrite dom_resolve_from. set_solver. Qed.

Lemma holds_keys c m : holds c m → list_to_set (Coll.keys c) = dom m.
Proof.
  intros (_ & _ & Hl). apply set_eq. intros k.
  rewrite elem_of_list_to_set, elem_of_dom. unfold Coll.keys.
  destruct (Coll.lookup k (Coll.own c)) as [x|] eqn:Hk.
  - split.
    + intros _. rewrite Hl in Hk. by destruct (m !! k).
    + intros _. destruct (decide (k ∈ (Coll.own c).*1)) as [|Hn]; [done|].
      apply CollFacts.lookup_None_keys in Hn. congruence.
  - split.
    + intros Hin. by apply CollFacts.lookup_None_keys in Hk.
    + intros [y Hy]. rewrite Hl, Hy in Hk. done.
Qed.

Lemma holds_length c m : holds c m → length (Coll.keys c) = size (dom m).
Proof.
  intros Hc. rewrite <- (holds_keys c m Hc).
  symmetry. apply size_list_to_set. by destruct Hc as (_ & Hnd & _).
Qed.

(** The resolution of [loadTenants], for providers that all return and
    records with names other than [__proto__], at least one: the call
    returns an object that holds, per distinct name, one record; its config
    is the merge of the configs given under that name, later ones on top,
    all on top of the config of [_default_] when that name occurs. *)
Theorem loadTenants_resolves a :
  present a = true →
  forallb loads (normalize a) = true →
  ordinary_names (records (normalize a)) = true →
  0 < length (records (normalize a)) →
  ∃ tr c,
    loadTenants {| providers := a |} = (tr, inr c)
    ∧ holds c (with_default (resolve (records (normalize a))))
    ∧ length (Coll.keys c)
      = size (list_to_set (records (normalize a)).*1 : gset string).
Proof.
  intros Ha Hps Hproto Hne.
  destruct (collected_resolves a Ha Hps Hproto) as (c & Hcol & Hc).
  destruct (loadTenants_collected _ _ Hcol) as [tr ->].
  set (m := resolve (records (normalize a))) in *.
  assert (Coll.own c ≠ []) as Hown.
  { intros Hnil. pose proof (holds_keys c m Hc) as Hk.
    unfold Coll.keys in Hk. rewrite Hnil in Hk. simpl in Hk.
    unfold m in Hk. rewrite dom_resolve in Hk.
    destruct (records (normalize a)) as [|[n cfg] l]; [simpl in Hne; lia|].
    simpl in Hk. set_solver. }
  pose proof Hc as (Hp & Hnd & Hl).
  unfold with_default. destruct (m !! "_default_") as [d|] eqn:Hd.
  - assert (Coll.lookup "_default_" (Coll.own c) = Some (Tenant.make "_default_" d)) as Hs.
    { by rewrite Hl, Hd. }
    rewrite (finish_default _ _ _ Hs). cbv zeta.
    cbn [Tenant._config Tenant.make]. eexists _, _.
    split; [reflexivity|].
    assert (holds {| Coll.own := map (fun kx => (kx.1,
                       Tenant.applyDefaults (Val (VObj d)) kx.2)) (Coll.own c);
                     Coll.proto := Coll.proto c |} (baseMerge d <$> m)) as Hc'.
    { split; [done|]. split.
      - unfold Coll.keys. simpl. by rewrite CollFacts.keys_map_values.
      - intros k. simpl. rewrite CollFacts.lookup_map_values, Hl, lookup_fmap.
        destruct (m !! k) as [cfg|]; [|done]. simpl.
        unfold Tenant.applyDefaults. by rewrite JsonFacts.merge_objects. }
    split; [exact Hc'|].
    rewrite (holds_length _ _ Hc'), dom_fmap_L. unfold m. by rewrite dom_resolve.
  - assert (Coll.lookup "_default_" (Coll.own c) = None) as Hs.
    { by rewrite Hl, Hd. }
    rewrite (finish_no_default _ _ Hown Hp Hs). eexists _, _.
    split; [reflexivity|]. split; [done|].
    rewrite (holds_length _ _ Hc). unfold m. by rewrite dom_resolve.
Qed.

(** The example of the specification: [{x:1}] first, [{x:2, y:3}] later,
    under the same name. *)
Lemma loadTenants_resolves_witness :
  ∃ tr c,
    loadTenants {| providers :=
      Array [Samples.source [("t", {["x" := Samples.num 1]})];
             Samples.source [("t", <["y" := Samples.num 3]> {["x" := Samples.num 2]})]] |}
    = (tr, inr c)
    ∧ Coll.lookup "t" (Coll.own c)
      = Some (Tenant.make "t" (<["y" := Samples.num 3]> {["x" := Samples.num 2]}))
    ∧ length (Coll.keys c) = 1.
Proof.
  destruct (loadTenants_resolves
              (Array [Samples.source [("t", {["x" := Samples.num 1]})];
                      Samples.source [("t", <["y" := Samples.num 3]>
                                               {["x" := Samples.num 2]})]])
              eq_refl eq_refl eq_refl) as (tr & c & Hrun & (_ & _ & Hl) & Hlen).
  - simpl. lia.
  - exists tr, c. split; [exact Hrun|]. split; [exact (Hl "t")|exact Hlen].
Defined.

(** C1 fails for a record named [__proto__].  On the empty object the name
    is inherited, so the merge branch is taken; the assignment then
    replaces the prototype and adds no own key.  With that record alone
    [loadTenants] throws the error for an empty collection, although the
    provider returned a tenant. *)
Theorem loadTenants_proto_record_lost :
  records [Samples.source [("__proto__", {["x" := Samples.num 1]})]]
    = [("__proto__", {["x" := Samples.num 1]})]
  ∧ loadTenants {| providers :=
      Single (Samples.source [("__proto__", {["x" := Samples.num 1]})]) |}
    = ([ELoadTenants 0;
        ELog "landlord: Merged configurations from multiple providers __proto__."],
       inl no_configs).
Proof. split; reflexivity. Qed.

(** After a record named [__proto__] the object has that record as its
    prototype: the records that follow are stored as usual and the object
    returned does not list the first one. *)
Example loadTenants_after_proto_record :
  loadTenants {| providers :=
    Single (Samples.source [("__proto__", {["x" := Samples.num 1]});
                            ("t", {["y" := Samples.num 2]})]) |}
  = ([ELoadTenants 0;
      ELog "landlord: Merged configurations from multiple providers __proto__.";
      ELog "landlord: Loaded t."],
     inr {| Coll.own := [("t", Tenant.make "t" {["y" := Samples.num 2]})];
            Coll.proto := Some ("__proto__", {["x" := Samples.num 1]}) |}).
Proof. reflexivity. Qed.

(** A record named [config] then finds the getter of [Tenant.prototype] in
    the chain, and the assignment throws. *)
Example loadTenants_getter_name_after_proto_record :
  (loadTenants {| providers :=
     Single (Samples.source [("__proto__", {["x" := Samples.num 1]});
                             ("config", {["y" := Samples.num 2]})]) |}).2
  = inl (TypeError "Cannot set property which has only a getter").
Proof. reflexivity. Qed.

End LandlordFacts.

(* ===================================================================== *)
(** * Properties of the middleware *)
(* ===================================================================== *)

Module ExpressFacts.
Import Json Effects Express.

(** For a key that is not a member of [Object.prototype], on an object
    whose prototype was not replaced: a record stored under the key is
    attached under [path] and the request proceeds; without such a record
    the request ends with the 403 error and is left as it was. *)
Lemma bindTenantToRequest_ordinary_key c o req :
  Coll.proto c = None →
  Coll.mem (property_key (lookup_key o req)) Coll.object_prototype_names = false →
  bindTenantToRequest c o req =
    match Coll.lookup (property_key (lookup_key o req)) (Coll.own c) with
    | Some x =>
        ({| hostname := hostname req; header := header req;
            decoration := <[path o := Coll.PVTenant x]> (decoration req) |}, Next)
    | None => (req, NextError 403 "Invalid tenant.")
    end.
Proof.
  intros Hp Hk. unfold bindTenantToRequest.
  destruct (Coll.lookup _ (Coll.own c)) as [x|] eqn:Hx.
  - by rewrite (CollFacts.get_own _ _ _ Hx).
  - by rewrite (CollFacts.get_missing _ _ Hp Hx), Hk.
Qed.

(** C3 fails for a key that names a member of [Object.prototype].  The
    collection has the keys [localhost] and [127.0.0.1]; the request is for
    the host [constructor].  No record is stored under that key, yet
    [tenants[key]] is the inherited function, which is truthy: the
    middleware attaches it as [req.tenant] and calls [next()] without an
    error. *)
Theorem bindTenantToRequest_inherited_key :
  Coll.keys Samples.two_hosts = ["localhost"; "127.0.0.1"]
  ∧ Coll.lookup "constructor" (Coll.own Samples.two_hosts) = None
  ∧ bindTenantToRequest Samples.two_hosts (make_req_options None None)
      (Samples.request_for "constructor")
    = ({| hostname := Some "constructor";
          header := fun _ => None;
          decoration := {["tenant" := Coll.PVBuiltin]} |}, Next).
Proof. repeat split. Qed.

End ExpressFacts.

(* ===================================================================== *)
(** * Properties of the merge on the store *)
(* ===================================================================== *)

Module StoreFacts.
Import Json Store.

Lemma extends_refl h : extends h h.
Proof.
  split; [done|]. intros l o k l' Hl Ho. exfalso. apply Hl.
  apply elem_of_dom. by exists o.
Qed.

Lemma extends_dom old h : extends old h → dom old ⊆ dom h.
Proof.
  intros [H1 _] l Hl. apply elem_of_dom. rewrite H1 by done. by apply elem_of_dom.
Qed.

Lemma alloc_fresh h : (alloc h).1 ∉ dom h.
Proof. unfold alloc. simpl. apply is_fresh. Qed.

Lemma extends_alloc old h :
  extends old h → extends old (alloc h).2 ∧ (alloc h).1 ∉ dom old.
Proof.
  intros Hext. pose proof (extends_dom _ _ Hext) as Hdom.
  pose proof (alloc_fresh h) as Hfresh.
  assert ((alloc h).1 ∉ dom old) as Hnew by set_solver.
  split; [|done]. destruct Hext as [H1 H2]. unfold alloc in *. simpl in *.
  split.
  - intros l Hl. rewrite lookup_insert_ne; [by apply H1|]. intros <-. done.
  - intros l o k l' Hl Ho Hk.
    destruct (decide (fresh (dom h) = l)) as [<-|Hne].
    + rewrite lookup_insert_eq in Ho. injection Ho as <-. by rewrite lookup_empty in Hk.
    + rewrite lookup_insert_ne in Ho by done. by eapply H2.
Qed.

Lemma extends_assign old h l k v :
  extends old h →
  l ∉ dom old →
  (∀ l', v = HRef l' → l' ∉ dom old) →
  extends old (assign l k v h).
Proof.
  intros [H1 H2] Hl Hv. unfold assign. split.
  - intros l0 Hl0. rewrite lookup_alter_ne; [by apply H1|]. intros <-. done.
  - intros l0 o k0 l' Hl0 Ho Hk.
    destruct (decide (l = l0)) as [<-|Hne].
    + rewrite lookup_alter_eq in Ho.
      destruct (h !! l) as [o0|] eqn:Hh; [|done]. simpl in Ho. injection Ho as <-.
      destruct (decide (k = k0)) as [<-|Hk0].
      * rewrite lookup_insert_eq in Hk. injection Hk as ->. by apply Hv.
      * rewrite lookup_insert_ne in Hk by done. by eapply H2.
    + rewrite lookup_alter_ne in Ho by done. by eapply H2.
Qed.

Lemma extends_child old h l k l' :
  extends old h → l ∉ dom old → read h l k = Some (HRef l') → l' ∉ dom old.
Proof.
  intros [_ H2] Hl Hr. unfold read in Hr.
  destruct (h !! l) as [o|] eqn:Ho; [|done]. simpl in Hr. by eapply H2.
Qed.

Lemma merge_property_extends rec old object source h key :
  (∀ o s h', extends old h' → o ∉ dom old → extends old (rec o s h')) →
  extends old h →
  object ∉ dom old →
  extends old (merge_property rec object source h key).
Proof.
  intros Hrec Hext Hobj. unfold merge_property.
  destruct (read h source key) as [[a|srcValue]|]; [| |done].
  - apply extends_assign; [done|done|]. by intros l' [=].
  - destruct (read h object key) as [[a|objValue]|] eqn:Hr.
    + destruct (extends_alloc old h Hext) as [Hext' Hnew].
      destruct (alloc h) as [newValue h1]. simpl in *.
      apply extends_assign; [by apply Hrec|done|]. by intros l' [= <-].
    + assert (objValue ∉ dom old) as Hchild by by eapply extends_child.
      apply extends_assign; [by apply Hrec|done|]. by intros l' [= <-].
    + destruct (extends_alloc old h Hext) as [Hext' Hnew].
      destruct (alloc h) as [newValue h1]. simpl in *.
      apply extends_assign; [by apply Hrec|done|]. by intros l' [= <-].
Qed.

Lemma baseMerge_extends fuel old object source h :
  extends old h →
  object ∉ dom old →
  extends old (baseMerge fuel object source h).
Proof.
  revert object source h. induction fuel as [|fuel IH]; intros object source h Hext Hobj.
  - done.
  - simpl. generalize (keysIn h source). intros ks.
    revert h Hext. induction ks as [|k ks IHks]; intros h Hext; simpl; [done|].
    apply IHks. by apply merge_property_extends.
Qed.

Lemma assign_entries_extends old object (o : obj) h :
  extends old h →
  object ∉ dom old →
  extends old (assign_entries object o h).
Proof.
  intros Hext Hobj. unfold assign_entries.
  apply (map_fold_weak_ind (fun h' _ => extends old h')); [done|].
  intros k v m h' _ Hh'. destruct v as [a|?]; [|done].
  apply extends_assign; [done|done|]. by intros l' [=].
Qed.

Lemma merge_source_extends fuel old object s h :
  extends old h →
  object ∉ dom old →
  extends old (merge_source fuel object s h).
Proof.
  intros Hext Hobj. destruct s as [|[[| | |str]|source]]; simpl; try done.
  - by apply assign_entries_extends.
  - by apply baseMerge_extends.
Qed.

(** [_.merge({}, s1, s2)] writes to new objects only. *)
Lemma merge_extends fuel s1 s2 h : extends h (merge fuel s1 s2 h).2.
Proof.
  unfold merge.
  destruct (extends_alloc h h (extends_refl h)) as [Hext Hnew].
  destruct (alloc h) as [object h0]. simpl in *.
  by do 2 (apply merge_source_extends; [|done]).
Qed.

(** ** The store merge computes [Json.merge] *)

Lemma obj_ind (P : obj → Prop) :
  (∀ o, (∀ k o', o !! k = Some (VObj o') → P o') → P o) → ∀ o, P o.
Proof.
  intros H o.
  enough (∀ v, match v with VObj o => P o | VAtom _ => True end) as Hv
    by exact (Hv (VObj o)).
  induction v as [a|o' IH] using JsonFacts.value_ind'; [done|].
  apply H. intros k o'' Hk. exact (IH k _ Hk).
Qed.

Lemma tree_footprint h l D F : tree h l D F → l ∈ F.
Proof. by inversion 1. Qed.

Lemma tree_frame h h' D : ∀ l F,
  tree h l D F →
  (∀ l', l' ∈ F → h' !! l' = h !! l') →
  tree h' l D F.
Proof.
  induction D as [D IH] using obj_ind. intros l F Ht Hfr.
  inversion Ht as [l0 ho D0 F0 Fk Hl HlF Hsub Hdisj Hnone Hatom Hobj]; subst.
  apply (tree_node h' l ho D F Fk); try done.
  - by rewrite Hfr.
  - intros k o Hk. destruct (Hobj k o Hk) as (l' & Hl' & Ht').
    exists l'. split; [done|]. eapply IH; [done|done|].
    intros l'' Hl''. apply Hfr. specialize (Hsub k). set_solver.
Qed.

Lemma tree_repr h D : ∀ l F, tree h l D F → repr h l D.
Proof.
  induction D as [D IH] using obj_ind. intros l F Ht.
  inversion Ht as [l0 ho D0 F0 Fk Hl HlF Hsub Hdisj Hnone Hatom Hobj]; subst.
  apply (repr_node h l ho D); try done.
  intros k o Hk. destruct (Hobj k o Hk) as (l' & Hl' & Ht').
  exists l'. split; [done|]. by eapply IH.
Qed.

Lemma repr_extends old h S : ∀ l,
  extends old h → repr old l S → repr h l S.
Proof.
  induction S as [S IH] using obj_ind. intros l Hext Hr.
  inversion Hr as [l0 ho S0 Hl Hnone Hatom Hobj]; subst.
  apply (repr_node h l ho S); try done.
  - destruct Hext as [H1 _]. rewrite H1; [done|]. apply elem_of_dom. by eexists.
  - intros k o Hk. destruct (Hobj k o Hk) as (l' & Hl' & Hr').
    exists l'. split; [done|]. by eapply IH.
Qed.

Lemma tree_empty h l : h !! l = Some ∅ → tree h l ∅ {[l]}.
Proof.
  intros Hl. apply (tree_node h l ∅ ∅ {[l]} (fun _ => ∅)); try done.
  - set_solver.
Qed.

Lemma post_trans h F h1 d D1 h2 D2 :
  post h F h1 d D1 →
  (∀ F1, tree h1 d D1 F1 → F1 ⊆ dom h1 → F ⊆ F1 → (F1 ∖ F) ## dom h →
         post h1 F1 h2 d D2) →
  post h F h2 d D2.
Proof.
  intros (F1 & Ht1 & Hsub1 & Hdom1 & Hnew1 & Hfr1 & Hd1) H2.
  destruct (H2 F1 Ht1 Hdom1 Hsub1 Hnew1) as (F2 & Ht2 & Hsub2 & Hdom2 & Hnew2 & Hfr2 & Hd2).
  exists F2. split; [done|]. split; [set_solver|]. split; [done|].
  split; [|split].
  - set_solver.
  - intros l Hl HlF. rewrite Hfr2; [by apply Hfr1| set_solver | set_solver].
  - set_solver.
Qed.

Lemma post_refl h F d D : tree h d D F → F ⊆ dom h → post h F h d D.
Proof. intros Ht HF. exists F. repeat split; try done. set_solver. Qed.

Lemma dom_assign l k v h : dom (assign l k v h) = dom h.
Proof. unfold assign. apply dom_alter_L. Qed.

Lemma step_atom h d D F k a :
  tree h d D F →
  F ⊆ dom h →
  post h F (assign d k (HAtom a) h) d (<[k := VAtom a]> D).
Proof.
  intros Ht HF.
  inversion Ht as [l0 ho D0 F0 Fk Hl HlF Hsub Hdisj Hnone Hatom Hobj]; subst.
  exists F. split; [|split; [done|split; [by rewrite dom_assign|split; [set_solver|split]]]].
  - apply (tree_node _ d (<[k := HAtom a]> ho) _ F
             (fun j => if decide (j = k) then ∅ else Fk j)).
    + unfold assign. by rewrite lookup_alter_eq, Hl.
    + done.
    + intros j. case_decide; [set_solver|apply Hsub].
    + intros j1 j2 Hj. repeat case_decide; first [set_solver|by apply Hdisj].
    + intros j Hj. destruct (decide (j = k)) as [->|Hne].
      * by rewrite lookup_insert_eq in Hj.
      * rewrite lookup_insert_ne in Hj by done. rewrite lookup_insert_ne by done. by apply Hnone.
    + intros j b Hj. destruct (decide (j = k)) as [->|Hne].
      * rewrite lookup_insert_eq in Hj. injection Hj as ->. by rewrite lookup_insert_eq.
      * rewrite lookup_insert_ne in Hj by done. rewrite lookup_insert_ne by done. by apply Hatom.
    + intros j o Hj. destruct (decide (j = k)) as [->|Hne].
      * by rewrite lookup_insert_eq in Hj.
      * rewrite lookup_insert_ne in Hj by done. rewrite lookup_insert_ne by done.
        destruct (Hobj j o Hj) as (l' & Hl' & Ht'). exists l'. split; [done|].
        cbv beta. rewrite ?decide_False by done.
        eapply tree_frame; [done|]. intros l'' Hl''. unfold assign.
        apply lookup_alter_ne. specialize (Hsub j). set_solver.
  - intros l Hld HlF'. unfold assign. apply lookup_alter_ne. set_solver.
  - by rewrite dom_assign.
Qed.

Lemma step_child h h1 d ho (D : obj) (F : gset loc) (Fk : string → gset loc) k l' Dk' Fk' :
  h !! d = Some ho →
  d ∈ F →
  (∀ j, Fk j ⊆ F ∖ {[d]}) →
  (∀ j1 j2, j1 ≠ j2 → Fk j1 ## Fk j2) →
  (∀ j, D !! j = None → ho !! j = None) →
  (∀ j a, D !! j = Some (VAtom a) → ho !! j = Some (HAtom a)) →
  (∀ j o, D !! j = Some (VObj o) → ∃ l', ho !! j = Some (HRef l') ∧ tree h l' o (Fk j)) →
  F ⊆ dom h →
  tree h1 l' Dk' Fk' →
  Fk' ⊆ dom h1 →
  dom h ⊆ dom h1 →
  (Fk' ∖ Fk k) ## dom h →
  (∀ l, l ∈ dom h → l ∉ Fk k → h1 !! l = h !! l) →
  post h F (assign d k (HRef l') h1) d (<[k := VObj Dk']> D).
Proof.
  intros Hl HlF Hsub Hdisj Hnone Hatom Hobj HF Ht1 HFk' Hdom Hnew Hfr.
  assert (d ∈ dom h) as Hd by set_solver.
  assert (d ∉ Fk k) as HdFk by (specialize (Hsub k); set_solver).
  assert (d ∉ Fk') as HdFk' by set_solver.
  assert (h1 !! d = Some ho) as Hl1 by by rewrite Hfr.
  exists (F ∪ Fk').
  split; [|split; [set_solver|split; [rewrite dom_assign; set_solver|split; [|split]]]].
  - apply (tree_node _ d (<[k := HRef l']> ho) _ _
             (fun j => if decide (j = k) then Fk' else Fk j)).
    + unfold assign. by rewrite lookup_alter_eq, Hl1.
    + set_solver.
    + intros j. case_decide; [set_solver|]. specialize (Hsub j). set_solver.
    + intros j1 j2 Hj. repeat case_decide; subst; try done.
      * specialize (Hdisj j2 k). specialize (Hsub j2). set_solver.
      * specialize (Hdisj j1 k). specialize (Hsub j1). set_solver.
      * by apply Hdisj.
    + intros j Hj. destruct (decide (j = k)) as [->|Hne].
      * by rewrite lookup_insert_eq in Hj.
      * rewrite lookup_insert_ne in Hj by done. rewrite lookup_insert_ne by done. by apply Hnone.
    + intros j b Hj. destruct (decide (j = k)) as [->|Hne].
      * by rewrite lookup_insert_eq in Hj.
      * rewrite lookup_insert_ne in Hj by done. rewrite lookup_insert_ne by done. by apply Hatom.
    + intros j o Hj. destruct (decide (j = k)) as [->|Hne].
      * rewrite lookup_insert_eq in Hj. injection Hj as <-.
        exists l'. rewrite lookup_insert_eq. split; [done|].
        cbv beta. rewrite ?decide_True by done.
        eapply tree_frame; [done|]. intros l'' Hl''. unfold assign.
        apply lookup_alter_ne. set_solver.
      * rewrite lookup_insert_ne in Hj by done. rewrite lookup_insert_ne by done.
        destruct (Hobj j o Hj) as (l2 & Hl2 & Ht2). exists l2. split; [done|].
        cbv beta. rewrite ?decide_False by done.
        eapply tree_frame; [done|]. intros l'' Hl''.
        specialize (Hsub j). specialize (Hdisj j k Hne).
        unfold assign. rewrite lookup_alter_ne by set_solver.
        apply Hfr; set_solver.
  - set_solver.
  - intros l Hld HlF'. unfold assign. rewrite lookup_alter_ne by set_solver.
    apply Hfr; [done|]. specialize (Hsub k). set_solver.
  - rewrite dom_assign. done.
Qed.

Lemma read_eq h l o k : h !! l = Some o → read h l k = o !! k.
Proof. intros H. unfold read. by rewrite H. Qed.

Section merge_property.
Variable old : heap.
Variable n : nat.
Variable rec : loc → loc → heap → heap.
Hypothesis Hrec : ∀ h d s D S F,
  extends old h → tree h d D F → F ## dom old → F ⊆ dom h →
  repr old s S → (vsize (VObj S) ≤ n)%nat →
  post h F (rec d s h) d (Json.baseMerge D S).
Hypothesis Hrec_ext : ∀ o s h',
  extends old h' → o ∉ dom old → extends old (rec o s h').

(** The destination holds no object under [k]: the source object is merged
    into a new [{}], which the destination then refers to. *)
Lemma merge_into_new h d D F k l' o :
  extends old h → tree h d D F → F ## dom old → F ⊆ dom h →
  (∀ o', D !! k ≠ Some (VObj o')) →
  repr old l' o → (vsize (VObj o) ≤ n)%nat →
  post h F
    (let '(newValue, h1) := alloc h in
     assign d k (HRef newValue) (rec newValue l' h1))
    d (<[k := VObj (Json.baseMerge ∅ o)]> D).
Proof.
  intros Hext Ht Hold HF HDk Hl' Hsize.
  inversion Ht as [d0 ho D0 F0 Fk Hd HdF Hsub Hdisj Hdnone Hdatom Hdobj]; subst.
  assert (dom old ⊆ dom h) as Hdomold by by apply extends_dom.
  destruct (extends_alloc old h Hext) as [Hext0 Hnew0].
  pose proof (alloc_fresh h) as Hfresh.
  destruct (alloc h) as [l0 h0] eqn:Halloc. simpl in Hext0, Hnew0, Hfresh.
  assert (h0 = <[l0 := ∅]> h) as Hh0.
  { unfold alloc in Halloc. by injection Halloc as <- <-. }
  assert (tree h0 l0 ∅ {[l0]}) as Ht0.
  { apply tree_empty. rewrite Hh0. apply lookup_insert_eq. }
  destruct (Hrec h0 l0 l' ∅ o {[l0]} Hext0 Ht0) as
    (Fk' & Ht1 & Hsub1 & Hdom1 & Hnew1 & Hfr1 & Hd1);
    [set_solver|rewrite Hh0, dom_insert_L; set_solver|done|done|].
  assert (dom h ⊆ dom h0) as Hdom0 by (rewrite Hh0, dom_insert_L; set_solver).
  apply (step_child h _ d ho D F (fun j => if decide (j = k) then ∅ else Fk j)
           k l0 _ Fk'); try done.
  - intros j. case_decide; [set_solver|apply Hsub].
  - intros j1 j2 Hj. repeat case_decide; first [set_solver|by apply Hdisj].
  - intros j o' Hj. destruct (Hdobj j o' Hj) as (l2 & Hl2 & Ht2).
    exists l2. split; [done|]. rewrite decide_False; [done|].
    intros ->. by apply (HDk o').
  - set_solver.
  - rewrite decide_True by done. set_solver.
  - intros l Hl _. rewrite Hfr1; [|set_solver|set_solver].
    rewrite Hh0. apply lookup_insert_ne. set_solver.
Qed.

Lemma merge_property_post h d s D S F k :
  extends old h → tree h d D F → F ## dom old → F ⊆ dom h →
  repr old s S →
  (∀ o, S !! k = Some (VObj o) → (vsize (VObj o) ≤ n)%nat) →
  post h F (merge_property rec d s h k) d (merge_key S D k).
Proof.
  intros Hext Ht Hold HF Hs Hsize.
  inversion Hs as [s0 So S0 HSo Hnone Hatom Hobj]; subst.
  assert (h !! s = Some So) as HhS.
  { destruct Hext as [H1 _]. rewrite H1; [done|]. apply elem_of_dom. by eexists. }
  unfold merge_property, merge_key. rewrite (read_eq _ _ _ _ HhS).
  destruct (S !! k) as [[a|o]|] eqn:HSk.
  - rewrite (Hatom k a HSk). by apply step_atom.
  - destruct (Hobj k o HSk) as (l' & HSok & Hl'). rewrite HSok.
    rewrite JsonFacts.combine_obj.
    inversion Ht as [d0 ho D0 F0 Fk Hd HdF Hsub Hdisj Hdnone Hdatom Hdobj]; subst.
    rewrite (read_eq _ _ _ _ Hd).
    destruct (D !! k) as [[b|a]|] eqn:HDk.
    + rewrite (Hdatom k b HDk).
      apply merge_into_new; try done; [congruence|by apply Hsize].
    + destruct (Hdobj k a HDk) as (l2 & Hl2 & Ht2). rewrite Hl2.
      destruct (Hrec h l2 l' a o (Fk k) Hext Ht2) as
        (Fk' & Ht1 & Hsub1 & Hdom1 & Hnew1 & Hfr1 & Hd1);
        [specialize (Hsub k); set_solver|specialize (Hsub k); set_solver|done
        |by apply Hsize|].
      by apply (step_child h _ d ho D F Fk k l2 _ Fk').
    + rewrite (Hdnone k HDk).
      apply merge_into_new; try done; [congruence|by apply Hsize].
  - rewrite (Hnone k HSk). by apply post_refl.
Qed.

Lemma merge_properties_post d s S ks : ∀ h D F,
  extends old h → tree h d D F → F ## dom old → F ⊆ dom h →
  repr old s S →
  (∀ k o, S !! k = Some (VObj o) → (vsize (VObj o) ≤ n)%nat) →
  post h F (foldl (merge_property rec d s) h ks) d (foldl (merge_key S) D ks).
Proof.
  induction ks as [|k ks IH]; intros h D F Hext Ht Hold HF Hs Hsize; simpl.
  - by apply post_refl.
  - eapply post_trans.
    + apply merge_property_post; try done. intros o. apply Hsize.
    + intros F1 Ht1 HF1 Hsub1 Hnew1. apply IH; try done.
      * apply merge_property_extends; [done|done|].
        apply (tree_footprint) in Ht. set_solver.
      * pose proof (extends_dom _ _ Hext). set_solver.
Qed.
End merge_property.

Lemma lookup_foldl_merge_key (S : obj) ks : ∀ acc k,
  NoDup ks →
  foldl (merge_key S) acc ks !! k =
    if decide (k ∈ ks) then
      match S !! k with
      | Some y => Some (combine (acc !! k) y)
      | None => acc !! k
      end
    else acc !! k.
Proof.
  induction ks as [|k0 ks IH]; intros acc k Hnd.
  - simpl. destruct (decide (k ∈ [])) as [Hin|_]; [|done].
    by apply elem_of_nil in Hin.
  - apply NoDup_cons in Hnd as [Hk0 Hnd]. cbn [foldl]. rewrite IH by done.
    destruct (decide (k = k0)) as [->|Hne].
    + destruct (decide (k0 ∈ ks)) as [?|_]; [done|].
      destruct (decide (k0 ∈ k0 :: ks)) as [_|Hn]; [|exfalso; apply Hn; left].
      unfold merge_key. destruct (S !! k0); [by rewrite lookup_insert_eq|done].
    + assert (merge_key S acc k0 !! k = acc !! k) as ->.
      { unfold merge_key. destruct (S !! k0); [by rewrite lookup_insert_ne|done]. }
      destruct (decide (k ∈ ks)) as [Hin|Hnin];
        destruct (decide (k ∈ k0 :: ks)) as [Hin'|Hnin']; try done.
      * exfalso. apply Hnin'. by right.
      * apply elem_of_cons in Hin' as [?|?]; done.
Qed.

Lemma repr_keys h l (S : obj) ho k :
  repr h l S → h !! l = Some ho → ho !! k = None → S !! k = None.
Proof.
  intros Hr Hl Hk. inversion Hr as [l0 ho0 S0 Hl0 Hnone Hatom Hobj]; subst.
  assert (ho0 = ho) as -> by congruence.
  destruct (S !! k) as [[a|o]|] eqn:HSk; [| |done].
  - rewrite (Hatom k a HSk) in Hk. done.
  - destruct (Hobj k o HSk) as (l' & Hl' & _). congruence.
Qed.

Lemma baseMerge_post old fuel : ∀ h d s D S F,
  extends old h → tree h d D F → F ## dom old → F ⊆ dom h →
  repr old s S → (vsize (VObj S) ≤ fuel)%nat →
  post h F (baseMerge fuel d s h) d (Json.baseMerge D S).
Proof.
  induction fuel as [|n IH]; intros h d s D S F Hext Ht Hold HF Hs Hsize.
  - simpl in Hsize. lia.
  - inversion Hs as [s0 So S0 HSo Hnone Hatom Hobj]; subst.
    assert (h !! s = Some So) as HhS.
    { destruct Hext as [H1 _]. rewrite H1; [done|]. apply elem_of_dom. by eexists. }
    cbn [baseMerge]. unfold keysIn. rewrite HhS.
    assert (foldl (merge_key S) D (map_to_list So).*1 = Json.baseMerge D S) as <-.
    { apply map_eq. intros k.
      rewrite lookup_foldl_merge_key by apply NoDup_fst_map_to_list.
      rewrite JsonFacts.lookup_baseMerge.
      case_decide as Hin; [done|].
      assert (So !! k = None) as HSok.
      { apply not_elem_of_dom. intros Hd. apply Hin.
        apply elem_of_dom in Hd as [v Hv].
        apply list_elem_of_fmap. exists (k, v). split; [done|].
        by apply elem_of_map_to_list. }
      by rewrite (repr_keys old s S So k Hs HSo HSok). }
    apply (merge_properties_post old n (baseMerge n)); try done.
    + intros. by apply baseMerge_extends.
    + intros k o Hk. pose proof (JsonFacts.vsize_lookup S k (VObj o) Hk). lia.
Qed.

Lemma string_entries_atoms s : ∀ i k v,
  string_entries i s !! k = Some v → ∃ a, v = VAtom a.
Proof.
  induction s as [|c s IH]; intros i k v; simpl.
  - by rewrite lookup_empty.
  - destruct (decide (pretty i = k)) as [<-|Hne].
    + rewrite lookup_insert_eq. intros [= <-]. by eexists.
    + rewrite lookup_insert_ne by done. apply IH.
Qed.

Lemma baseMerge_insert_atom (D E : obj) k a :
  <[k := VAtom a]> (Json.baseMerge D E) = Json.baseMerge D (<[k := VAtom a]> E).
Proof.
  apply map_eq. intros j. rewrite !JsonFacts.lookup_baseMerge.
  destruct (decide (k = j)) as [->|Hne].
  - by rewrite !lookup_insert_eq.
  - rewrite !lookup_insert_ne by done. by rewrite JsonFacts.lookup_baseMerge.
Qed.

Lemma assign_entries_post h d D F (E : obj) :
  tree h d D F → F ⊆ dom h →
  (∀ k v, E !! k = Some v → ∃ a, v = VAtom a) →
  post h F (assign_entries d E h) d (Json.baseMerge D E).
Proof.
  intros Ht HF. unfold assign_entries.
  apply (map_fold_weak_ind
           (fun h' (m : obj) => (∀ k v, m !! k = Some v → ∃ a, v = VAtom a) →
                                post h F h' d (Json.baseMerge D m))).
  - intros _. rewrite JsonFacts.baseMerge_empty_r. by apply post_refl.
  - intros k v m h' Hk IH Hall.
    destruct (Hall k v) as [a ->]; [by rewrite lookup_insert_eq|].
    eapply post_trans.
    + apply IH. intros j w Hj. apply (Hall j w).
      rewrite lookup_insert_ne; [done|]. intros ->. congruence.
    + intros F1 Ht1 HF1 _ _. rewrite <- baseMerge_insert_atom. by apply step_atom.
Qed.

Lemma merge_source_post old fuel h d D F s a :
  extends old h → tree h d D F → F ## dom old → F ⊆ dom h →
  repr_arg old s a → (arg_size a ≤ fuel)%nat →
  post h F (merge_source fuel d s h) d (Json.baseMerge D (source_props a)).
Proof.
  intros Hext Ht Hold HF Hs Hsize.
  destruct s as [|[x|l]]; destruct a as [|[y|o]]; try done; simpl in Hs.
  - simpl. rewrite JsonFacts.baseMerge_empty_r. by apply post_refl.
  - subst y. destruct x as [| | |str]; simpl;
      try (rewrite JsonFacts.baseMerge_empty_r; by apply post_refl).
    apply assign_entries_post; [done|done|]. apply string_entries_atoms.
  - simpl. by apply (baseMerge_post old).
Qed.

Theorem merge_refines fuel s1 s2 a1 a2 h :
  repr_arg h s1 a1 →
  repr_arg h s2 a2 →
  (arg_size a1 ≤ fuel)%nat →
  (arg_size a2 ≤ fuel)%nat →
  repr (merge fuel s1 s2 h).2 (merge fuel s1 s2 h).1 (Json.merge a1 a2).
Proof.
  intros H1 H2 Hf1 Hf2. unfold merge, Json.merge.
  destruct (extends_alloc h h (extends_refl h)) as [Hext Hnew].
  destruct (alloc h) as [d h0] eqn:Halloc. simpl in Hext, Hnew.
  assert (h0 = <[d := ∅]> h) as Hh0.
  { unfold alloc in Halloc. by injection Halloc as <- <-. }
  assert (tree h0 d ∅ {[d]}) as Ht0.
  { apply tree_empty. rewrite Hh0. apply lookup_insert_eq. }
  assert (post h0 {[d]} (merge_source fuel d s1 h0) d
            (Json.baseMerge ∅ (source_props a1))) as Hp1.
  { apply (merge_source_post h); try done; [set_solver|rewrite Hh0, dom_insert_L; set_solver]. }
  destruct Hp1 as (F1 & Ht1 & Hsub1 & Hdom1 & Hnew1 & _ & _).
  assert (extends h (merge_source fuel d s1 h0)) as Hext1.
  { by apply merge_source_extends. }
  assert (dom h ⊆ dom h0) as Hdom0 by (rewrite Hh0, dom_insert_L; set_solver).
  destruct (merge_source_post h fuel _ d _ F1 s2 a2 Hext1 Ht1) as (F2 & Ht2 & _);
    [set_solver|done|done|done|].
  simpl. by eapply tree_repr.
Qed.

(** C9.  Applying the same default twice gives the config that applying it
    once gives.  On the store: when the argument [d] holds the value [a]
    and the [_config] of the tenant [x] is the object at [config], the call
    leaves the new [_config] holding what [applyDefaults] computes; every
    object that existed before the call is unchanged, so the argument, and
    all it refers to, still holds [a]. *)
Theorem applyDefaults_idempotent_and_leaves_argument :
  (∀ d x, Tenant.applyDefaults d (Tenant.applyDefaults d x) = Tenant.applyDefaults d x)
  ∧ (∀ fuel d config h a x,
       repr_arg h d a →
       repr h config (Tenant._config x) →
       (arg_size a ≤ fuel)%nat →
       (vsize (VObj (Tenant._config x)) ≤ fuel)%nat →
       repr (applyDefaults fuel d config h).2 (applyDefaults fuel d config h).1
            (Tenant._config (Tenant.applyDefaults a x))
       ∧ (∀ l, l ∈ dom h → (applyDefaults fuel d config h).2 !! l = h !! l)
       ∧ repr_arg (applyDefaults fuel d config h).2 d a).
Proof.
  split; [apply TenantFacts.applyDefaults_idempotent|].
  intros fuel d config h a x Hd Hcfg Hfa Hfc.
  pose proof (merge_extends fuel d (SVal (HRef config)) h) as Hext.
  split; [|split].
  - apply (merge_refines fuel d (SVal (HRef config)) a
             (Val (VObj (Tenant._config x))) h); done.
  - by destruct Hext as [H1 _].
  - unfold applyDefaults. destruct d as [|[y|l]]; destruct a as [|[z|o]]; try done.
    simpl in *. by eapply repr_extends.
Qed.

Lemma repr_singleton h l k a :
  h !! l = Some {[k := HAtom a]} → repr h l {[k := VAtom a]}.
Proof.
  intros Hl. apply (repr_node h l {[k := HAtom a]}); [done| | |].
  - intros j Hj. destruct (decide (j = k)) as [->|Hne].
    + by rewrite lookup_singleton_eq in Hj.
    + by rewrite lookup_singleton_ne.
  - intros j b Hj. destruct (decide (j = k)) as [->|Hne].
    + rewrite lookup_singleton_eq in Hj. injection Hj as <-.
      by rewrite lookup_singleton_eq.
    + by rewrite lookup_singleton_ne in Hj.
  - intros j o Hj. destruct (decide (j = k)) as [->|Hne].
    + by rewrite lookup_singleton_eq in Hj.
    + by rewrite lookup_singleton_ne in Hj.
Qed.

Lemma applyDefaults_idempotent_and_leaves_argument_witness :
  let r := applyDefaults 2 (SVal (HRef 0)) 1 Samples.two_objects in
  repr r.2 r.1 (<["b" := Samples.num 99]> {["a" := Samples.num 1]})
  ∧ r.2 !! 0%nat = Some {["a" := HAtom (ANum 1)]}
  ∧ repr r.2 0 {["a" := Samples.num 1]}.
Proof.
  destruct (proj2 applyDefaults_idempotent_and_leaves_argument 2 (SVal (HRef 0)) 1
              Samples.two_objects (Val (VObj {["a" := Samples.num 1]}))
              (Tenant.make "t" {["b" := Samples.num 99]})
              (repr_singleton Samples.two_objects 0 "a" (ANum 1) eq_refl)
              (repr_singleton Samples.two_objects 1 "b" (ANum 99) eq_refl))
    as (H1 & H2 & H3).
  - vm_compute. lia.
  - vm_compute. lia.
  - split; [exact H1|]. split; [|exact H3].
    exact (H2 0 ltac:(by apply elem_of_dom)).
Defined.

End StoreFacts.

(* ===================================================================== *)
(** * The log of [loadTenants] *)
(* ===================================================================== *)

Module LoadLogFacts.
Import Json Effects Landlord LoadLog.

Lemma dom_resolve_step (m : gmap string obj) nc :
  dom (resolve_step m nc) = {[nc.1]} ∪ dom m.
Proof. unfold resolve_step. by rewrite dom_insert_L. Qed.

(** One record with an ordinary name, with the line it logs. *)
Lemma add_tenant_line c m n cfg tr :
  holds c m →
  n ≠ "__proto__" →
  ∃ c',
    add_tenant (Tenant.make n cfg) c tr = (c', tr ++ [record_line (dom m) n], inr tt)
    ∧ holds c' (resolve_step m (n, cfg)).
Proof.
  intros Hc Hn. pose proof Hc as (Hp & Hnd & Hl).
  unfold add_tenant, bind at 1, get at 1. cbn [Tenant._name Tenant.make].
  unfold resolve_step, record_line. cbn [fst snd].
  destruct (m !! n) as [old|] eqn:Hm.
  - assert (Coll.lookup n (Coll.own c) = Some (Tenant.make n old)) as Hown.
    { by rewrite Hl, Hm. }
    rewrite bool_decide_eq_true_2 by (apply elem_of_dom; by rewrite Hm).
    unfold Coll.has. rewrite Hown.
    rewrite (CollFacts.get_own _ _ _ Hown).
    unfold bind, lift, ret, put, log, emit, Coll.set. rewrite Hown. simpl.
    eexists. split; [reflexivity|].
    unfold Tenant.applyDefaults, Tenant.set_config. simpl.
    rewrite JsonFacts.merge_objects.
    apply LandlordFacts.holds_replace; [done|by rewrite Hm].
  - assert (Coll.lookup n (Coll.own c) = None) as Hown.
    { by rewrite Hl, Hm. }
    assert (String.eqb n "__proto__" = false) as Hneq.
    { by apply String.eqb_neq. }
    rewrite bool_decide_eq_false_2 by (rewrite elem_of_dom, Hm; by intros [? ?]).
    unfold Coll.has. rewrite Hown, Hp.
    rewrite (CollFacts.get_missing _ _ Hp Hown).
    destruct (Coll.mem n Coll.object_prototype_names);
      unfold bind, lift, ret, put, log, emit, Coll.set; simpl;
      rewrite Hown, Hneq, Hp;
      (eexists; split; [reflexivity|]).
    + unfold Tenant.applyDefaults, Tenant.set_config. simpl.
      rewrite JsonFacts.merge_undefined_l. rewrite <- Hp.
      by apply LandlordFacts.holds_place.
    + rewrite <- Hp. by apply LandlordFacts.holds_place.
Qed.

Lemma forEach_add_tenant_lines c m l tr :
  holds c m →
  "__proto__" ∉ l.*1 →
  ∃ c',
    forEach add_tenant (map (fun nc => Tenant.make nc.1 nc.2) l) c tr
    = (c', tr ++ record_lines (dom m) l, inr tt)
    ∧ holds c' (foldl resolve_step m l).
Proof.
  revert c m tr. induction l as [|[n cfg] l IH]; intros c m tr Hc Hl.
  - exists c. by rewrite app_nil_r.
  - rewrite fmap_cons, not_elem_of_cons in Hl. destruct Hl as [Hn Hl].
    destruct (add_tenant_line c m n cfg tr Hc) as (c1 & Hrun & Hc1); [done|].
    destruct (IH c1 _ (tr ++ [record_line (dom m) n]) Hc1 Hl) as (c2 & Hrun2 & Hc2).
    exists c2. split; [|done].
    cbn [map forEach fst snd record_lines]. unfold bind. rewrite Hrun, Hrun2.
    by rewrite dom_resolve_step, <- app_assoc.
Qed.

Lemma dom_foldl_resolve_step (m : gmap string obj) l :
  dom (foldl resolve_step m l) = list_to_set l.*1 ∪ dom m.
Proof. rewrite LandlordFacts.dom_resolve_from. set_solver. Qed.

Lemma collect_lines i ps c m tr :
  holds c m →
  forallb loads ps = true →
  "__proto__" ∉ (records ps).*1 →
  ∃ c',
    forEach_from i
      (fun i p => bind (call_loadTenants i p) (fun found => forEach add_tenant found))
      ps c tr = (c', tr ++ provider_lines i (dom m) ps, inr tt)
    ∧ holds c' (foldl resolve_step m (records ps)).
Proof.
  revert i c m tr. induction ps as [|p ps IH]; intros i c m tr Hc Hps Hrec.
  - exists c. by rewrite app_nil_r.
  - cbn [forallb] in Hps. apply andb_true_iff in Hps as [Hp Hps].
    rewrite LandlordFacts.records_cons, fmap_app, not_elem_of_app in Hrec.
    destruct Hrec as [Hrec1 Hrec2].
    rewrite LandlordFacts.records_cons, foldl_app.
    unfold loads in Hp. cbn [forEach_from provider_lines].
    unfold bind at 1. unfold bind at 1. unfold call_loadTenants.
    destruct (method p) as [ld|]; [|done].
    destruct (outcome ld) as [e|l]; [done|].
    unfold bind at 1, emit at 1. unfold bind at 1. rewrite LandlordFacts.forEach_log.
    unfold bind at 1. cbn [lift ret].
    destruct (forEach_add_tenant_lines c m l
                ((tr ++ [ELoadTenants i]) ++ map ELog (lines ld)) Hc Hrec1)
      as (c1 & Hrun & Hc1).
    rewrite Hrun.
    destruct (IH (S i) c1 _ (((tr ++ [ELoadTenants i]) ++ map ELog (lines ld))
                               ++ record_lines (dom m) l) Hc1 Hps Hrec2)
      as (c2 & Hrun2 & Hc2).
    exists c2. split; [|done]. refine (eq_trans Hrun2 _).
    rewrite dom_foldl_resolve_step. by rewrite <- !app_assoc.
Qed.

(** X25.  The log of [loadTenants], for providers that all return and
    tenants with names other than [__proto__], at least one.  The calls
    are, provider by provider in the order given: the call of the provider,
    the lines the provider logs, and one line per tenant it returns.  That
    line is the merge line when a tenant of that name came before, and
    also, for the first tenant of that name, when the name is one every
    object inherits, such as [constructor] or [toString]; otherwise it is
    the load line.  The two lines about the defaults follow when a tenant
    is named [_default_], and nothing else is logged. *)
Theorem loadTenants_log a :
  present a = true →
  forallb loads (normalize a) = true →
  ordinary_names (records (normalize a)) = true →
  0 < length (records (normalize a)) →
  (loadTenants {| providers := a |}).1
  = provider_lines 0 ∅ (normalize a)
    ++ default_lines (list_to_set (records (normalize a)).*1).
Proof.
  intros Ha Hps Hproto Hne.
  rewrite LandlordFacts.loadTenants_eq by done.
  rewrite LandlordFacts.forEach_validate_ok by by apply LandlordFacts.loads_has.
  destruct (collect_lines 0 (normalize a) Coll.empty ∅ [] LandlordFacts.holds_empty Hps
              (LandlordFacts.ordinary_names_spec _ Hproto)) as (c & Hrun & Hc).
  unfold collect. rewrite Hrun. rewrite dom_empty_L, app_nil_l.
  fold (resolve (records (normalize a))) in Hc.
  set (m := resolve (records (normalize a))) in *.
  assert (Coll.own c ≠ []) as Hown.
  { intros Hnil. pose proof (LandlordFacts.holds_keys c m Hc) as Hk.
    unfold Coll.keys in Hk. rewrite Hnil in Hk. simpl in Hk.
    unfold m in Hk. rewrite LandlordFacts.dom_resolve in Hk.
    destruct (records (normalize a)) as [|[n cfg] l]; [simpl in Hne; lia|].
    simpl in Hk. set_solver. }
  pose proof Hc as (Hp & Hnd & Hl).
  unfold default_lines. rewrite <- (LandlordFacts.dom_resolve (records (normalize a))).
  fold m. destruct (m !! "_default_") as [d|] eqn:Hd.
  - assert (Coll.lookup "_default_" (Coll.own c) = Some (Tenant.make "_default_" d)) as Hs.
    { by rewrite Hl, Hd. }
    rewrite (LandlordFacts.finish_default _ _ _ Hs). cbv zeta. cbn [fst].
    rewrite bool_decide_eq_true_2 by (apply elem_of_dom; by rewrite Hd).
    by rewrite <- app_assoc.
  - assert (Coll.lookup "_default_" (Coll.own c) = None) as Hs.
    { by rewrite Hl, Hd. }
    rewrite (LandlordFacts.finish_no_default _ _ Hown Hp Hs). cbn [fst].
    rewrite bool_decide_eq_false_2 by (rewrite elem_of_dom, Hd; by intros [? ?]).
    by rewrite app_nil_r.
Qed.

Lemma loadTenants_log_witness :
  (loadTenants {| providers := Array
     [Samples.source [("t", ∅); ("toString", ∅)];
      Samples.source [("t", ∅); ("_default_", ∅)]] |}).1
  = [ELoadTenants 0;
     ELog "landlord: Loaded t.";
     ELog "landlord: Merged configurations from multiple providers toString.";
     ELoadTenants 1;
     ELog "landlord: Merged configurations from multiple providers t.";
     ELog "landlord: Loaded _default_.";
     ELog "landlord: Found defaults ..."; ELog "landlord: Defaults applied."].
Proof.
  apply (eq_trans (loadTenants_log
    (Array [Samples.source [("t", ∅); ("toString", ∅)];
            Samples.source [("t", ∅); ("_default_", ∅)]])
    eq_refl eq_refl eq_refl (le_S _ _ (le_S _ _ (le_S _ _ (le_n 1)))))).
  by vm_compute.
Defined.

End LoadLogFacts.

(* ===================================================================== *)
(** * Properties of the string methods *)
(* ===================================================================== *)

Module JsStringFacts.
Import JsString.

Lemma prefix_cons a p b s :
  String.prefix (String a p) (String b s) = Ascii.eqb a b && String.prefix p s.
Proof.
  simpl. destruct (ascii_dec a b) as [->|Hne].
  - by rewrite Ascii.eqb_refl.
  - by apply Ascii.eqb_neq in Hne as ->.
Qed.

Lemma prefix_nil_r a p : String.prefix (String a p) "" = false.
Proof. done. Qed.

Lemma prefix_nil_l s : String.prefix "" s = true.
Proof. by destruct s. Qed.

Lemma append_cons c a b : String c a +:+ b = String c (a +:+ b).
Proof. done. Qed.

Lemma append_nil_l a : "" +:+ a = a.
Proof. done. Qed.

Lemma prefix_app p b : String.prefix p (p +:+ b) = true.
Proof.
  induction p as [|c p IH]; [apply prefix_nil_l|].
  rewrite ?append_cons, ?append_nil_l. by rewrite prefix_cons, Ascii.eqb_refl.
Qed.

Lemma skip_app p b : skip (String.length p) (p +:+ b) = b.
Proof. induction p as [|c p IH]; [done|]. rewrite append_cons. exact IH. Qed.

Lemma replace_eq p r s :
  replace p r s =
    if String.prefix p s then r +:+ skip (String.length p) s
    else match s with
         | EmptyString => EmptyString
         | String c s' => String c (replace p r s')
         end.
Proof. by destruct s. Qed.

Lemma occurs_cons p d a :
  occurs p (String d a) = String.prefix p (String d a) || occurs p a.
Proof. done. Qed.

(** The pattern at the start of the text is the occurrence replaced. *)
Lemma replace_here p r b : replace p r (p +:+ b) = r +:+ b.
Proof. by rewrite replace_eq, prefix_app, skip_app. Qed.

(** A text without the pattern is left as it is. *)
Lemma replace_absent p r s : occurs p s = false → replace p r s = s.
Proof.
  induction s as [|c s IH]; simpl.
  - rewrite orb_false_r. by intros ->.
  - intros [-> Hs]%orb_false_elim. f_equal. by apply IH.
Qed.

(** A pattern occurs only in a text that has each of its characters. *)
Lemma prefix_has_char c p s :
  String.prefix p s = true → has_char c p = true → has_char c s = true.
Proof.
  revert s. induction p as [|a p IH]; intros s; [done|].
  destruct s as [|b s]; [done|].
  rewrite prefix_cons. intros [Hab Hp]%andb_true_iff. apply Ascii.eqb_eq in Hab as ->.
  simpl. intros [->|Hc]%orb_true_iff; [done|].
  rewrite (IH s Hp Hc). apply orb_true_r.
Qed.

Lemma occurs_has_char c p s :
  has_char c p = true → has_char c s = false → occurs p s = false.
Proof.
  intros Hp. induction s as [|b s IH]; simpl.
  - intros _. rewrite orb_false_r.
    destruct (String.prefix p "") eqn:E; [|done].
    by pose proof (prefix_has_char c p "" E Hp).
  - intros [Hb Hs]%orb_false_elim. rewrite (IH Hs), orb_false_r.
    destruct (String.prefix p (String b s)) eqn:E; [|done].
    pose proof (prefix_has_char c p _ E Hp) as H. simpl in H.
    by rewrite Hb, Hs in H.
Qed.

(** A pattern does not start inside a text that lacks its first
    character. *)
Lemma replace_past c q r u t :
  has_char c u = false →
  replace (String c q) r (u +:+ t) = u +:+ replace (String c q) r t.
Proof.
  induction u as [|b u IH]; [done|].
  simpl has_char. intros [Hb Hu]%orb_false_elim.
  rewrite !append_cons. rewrite replace_eq, prefix_cons, Hb. simpl.
  f_equal. by apply IH.
Qed.

(** A pattern whose first character does not come back in it: matched
    against a text followed by that character, it lies in the text. *)
Lemma prefix_before c q a rest :
  has_char c q = false →
  String.prefix q (a +:+ String c rest) = true → String.prefix q a = true.
Proof.
  revert a. induction q as [|e q IH]; intros a; [intros _ _; apply prefix_nil_l|].
  simpl has_char. intros [Hce Hq]%orb_false_elim.
  destruct a as [|f a]; rewrite ?append_cons, ?append_nil_l.
  - rewrite prefix_cons. intros [He _]%andb_true_iff.
    apply Ascii.eqb_eq in He as ->. by rewrite Ascii.eqb_refl in Hce.
  - rewrite !prefix_cons. intros [-> Hp]%andb_true_iff. simpl. by apply IH.
Qed.

(** The first occurrence of such a pattern, when the text before has
    none. *)
Lemma replace_after c q r a b :
  has_char c q = false →
  occurs (String c q) a = false →
  replace (String c q) r (a +:+ String c q +:+ b) = a +:+ r +:+ b.
Proof.
  intros Hq. induction a as [|d a IH].
  - intros _. rewrite !append_nil_l. apply (replace_here (String c q)).
  - rewrite occurs_cons. intros [Hd Ha]%orb_false_elim.
    rewrite (append_cons d a). rewrite replace_eq.
    destruct (String.prefix (String c q) (String d (a +:+ String c q +:+ b))) eqn:E.
    + rewrite prefix_cons in E. apply andb_true_iff in E as [Hcd E].
      apply (prefix_before c q a _ Hq) in E.
      by rewrite prefix_cons, Hcd, E in Hd.
    + rewrite (append_cons d a). f_equal. by apply IH.
Qed.

Lemma toLowerCase_app a b : toLowerCase (a +:+ b) = toLowerCase a +:+ toLowerCase b.
Proof. induction a as [|c a IH]; [done|]. rewrite append_cons. simpl. by rewrite IH. Qed.

Lemma append_assoc a b c : (a +:+ b) +:+ c = a +:+ (b +:+ c).
Proof. induction a as [|x a IH]; [done|]. rewrite !append_cons. by rewrite IH. Qed.

Lemma append_nil_r a : a +:+ "" = a.
Proof. induction a as [|x a IH]; [done|]. rewrite append_cons. by rewrite IH. Qed.

End JsStringFacts.

(* ===================================================================== *)
(** * Properties of the providers *)
(* ===================================================================== *)

Module ProvidersFacts.
Import Json Effects Providers.

(** A list whose elements do not all pass a test has a first one that
    fails it. *)
Lemma forallb_first_failure {A} (f : A → bool) (l : list A) :
  forallb f l = true
  ∨ ∃ l1 a l2, l = l1 ++ a :: l2 ∧ forallb f l1 = true ∧ f a = false.
Proof.
  induction l as [|a l IH]; [by left|]. simpl.
  destruct (f a) eqn:Ha.
  - destruct IH as [->|(l1 & b & l2 & -> & H1 & Hb)]; [by left|].
    right. exists (a :: l1), b, l2. simpl. by rewrite Ha, H1.
  - right. by exists [], a, l.
Qed.

(** ** InMemoryData *)

Lemma add_complete d l tr :
  InMemoryData.complete d = true →
  InMemoryData.add d l tr
  = (l ++ [InMemoryData.tenant_of d], tr ++ InMemoryData.logs d, inr tt).
Proof.
  unfold InMemoryData.complete, InMemoryData.add, InMemoryData.tenant_of.
  destruct d as [u|n c]; [done|]. cbn [InMemoryData.name InMemoryData.config].
  intros [Hn Hc]%andb_true_iff. rewrite Hn, Hc. simpl.
  destruct n as [n|], c as [c|]; try done. simpl in *.
  unfold new_Tenant. apply negb_true_iff in Hn. rewrite Hn.
  unfold bind, log, emit, lift, ret, modify. simpl.
  by rewrite <- app_assoc.
Qed.

Lemma add_incomplete d l tr :
  InMemoryData.complete d = false →
  InMemoryData.add d l tr = (l, tr, inl (InMemoryData.rejection d)).
Proof.
  unfold InMemoryData.complete, InMemoryData.add. intros H.
  destruct d as [u|n c]; [done|]. cbn [InMemoryData.name InMemoryData.config] in H.
  apply andb_false_iff in H.
  destruct (string_truthy _), (bool_decide _); simpl; try done.
  by destruct H.
Qed.

Lemma forEach_add ds rest l tr :
  forallb InMemoryData.complete ds = true →
  forEach InMemoryData.add (ds ++ rest) l tr
  = forEach InMemoryData.add rest (l ++ map InMemoryData.tenant_of ds)
      (tr ++ flat_map InMemoryData.logs ds).
Proof.
  revert l tr. induction ds as [|d ds IH]; intros l tr; simpl.
  - intros _. by rewrite !app_nil_r.
  - intros [Hd Hds]%andb_true_iff. unfold bind at 1.
    rewrite (add_complete d l tr Hd), (IH _ _ Hds).
    by rewrite <- !app_assoc.
Qed.

Lemma forEach_add_all ds l tr :
  forallb InMemoryData.complete ds = true →
  forEach InMemoryData.add ds l tr
  = (l ++ map InMemoryData.tenant_of ds, tr ++ flat_map InMemoryData.logs ds, inr tt).
Proof.
  intros H. rewrite <- (app_nil_r ds) at 1. by rewrite (forEach_add _ [] _ _ H).
Qed.

Lemma InMemoryData_loadTenants_eq this :
  InMemoryData.loadTenants this
  = match forEach InMemoryData.add (InMemoryData._data this) []
            (if (length (InMemoryData._data this) =? 0)%nat
             then [ELog InMemoryData.no_data] else []) with
    | (l, tr, inl e) => (tr, inl e)
    | (l, tr, inr _) => (tr, inr l)
    end.
Proof.
  unfold InMemoryData.loadTenants, InMemoryData.loadTenants_body.
  destruct this as [[|d ds]]; [done|].
  cbn [InMemoryData._data length Nat.eqb].
  unfold bind at 1 2. unfold ret at 1.
  by destruct (forEach InMemoryData.add (d :: ds) [] []) as [[l tr] [e|[]]].
Qed.

(** X1.  [loadTenants] of the in-memory provider, when every element has a
    name and a config: it returns one new tenant per element, in the order
    of the data, each with the name and the config of its element and no
    database; it logs two lines per element, after one line when there is
    no element at all. *)
Theorem InMemoryData_loadTenants_returns this :
  forallb InMemoryData.complete (InMemoryData._data this) = true →
  InMemoryData.loadTenants this
  = ((if (length (InMemoryData._data this) =? 0)%nat
      then [ELog InMemoryData.no_data] else [])
     ++ flat_map InMemoryData.logs (InMemoryData._data this),
     inr (map InMemoryData.tenant_of (InMemoryData._data this))).
Proof.
  intros H. rewrite InMemoryData_loadTenants_eq.
  by rewrite (forEach_add_all _ _ _ H).
Qed.

Lemma InMemoryData_loadTenants_returns_witness :
  InMemoryData.loadTenants
    {| InMemoryData._data :=
         [InMemoryData.Data (Some "a.example.com")
            (Some {["port" := Samples.num 1]})] |}
  = ([ELog "express-landlord: InMemoryData provider - found a.example.com ...";
      ELog "express-landlord:  FileSystem provider - created a.example.com"],
     inr [Tenant.make "a.example.com" {["port" := Samples.num 1]}]).
Proof.
  exact (InMemoryData_loadTenants_returns
           {| InMemoryData._data :=
                [InMemoryData.Data (Some "a.example.com")
                   (Some {["port" := Samples.num 1]})] |}
           eq_refl).
Defined.

(** X2.  The first element that is not complete ends [loadTenants] of the
    in-memory provider.  An element without a name (missing or empty) or
    without a config makes it throw the error of the provider; an element
    that is [null] or [undefined] makes the destructuring throw a
    [TypeError].  The elements before it were logged; the tenants built for
    them are lost with the array, and no later element is looked at. *)
Theorem InMemoryData_loadTenants_incomplete ds1 d ds2 :
  forallb InMemoryData.complete ds1 = true →
  InMemoryData.complete d = false →
  InMemoryData.loadTenants {| InMemoryData._data := ds1 ++ d :: ds2 |}
  = (flat_map InMemoryData.logs ds1,
     inl match d with
         | InMemoryData.Nullish u => InMemoryData.cannot_destructure u
         | InMemoryData.Data _ _ => InMemoryData.missing_name_or_config
         end)
  ∧ Landlord.kind_of InMemoryData.missing_name_or_config = Landlord.InvalidArgument.
Proof.
  intros H1 Hd. split; [|done]. rewrite InMemoryData_loadTenants_eq.
  cbn [InMemoryData._data].
  replace (length (ds1 ++ d :: ds2) =? 0)%nat with false
    by (by destruct ds1).
  rewrite (forEach_add _ _ _ _ H1). cbn [forEach]. unfold bind at 1.
  rewrite (add_incomplete d _ _ Hd). by destruct d.
Qed.

Lemma InMemoryData_loadTenants_incomplete_witness :
  InMemoryData.loadTenants
    {| InMemoryData._data :=
         [InMemoryData.Data (Some "a") (Some ∅);
          InMemoryData.Data (Some "") (Some ∅);
          InMemoryData.Data (Some "c") (Some ∅)] |}
  = ([ELog "express-landlord: InMemoryData provider - found a ...";
      ELog "express-landlord:  FileSystem provider - created a"],
     inl InMemoryData.missing_name_or_config)
  ∧ InMemoryData.loadTenants
      {| InMemoryData._data :=
           [InMemoryData.Data (Some "a") (Some ∅);
            InMemoryData.Nullish JsNull;
            InMemoryData.Data (Some "") (Some ∅)] |}
    = ([ELog "express-landlord: InMemoryData provider - found a ...";
        ELog "express-landlord:  FileSystem provider - created a"],
       inl (TypeError
              "Cannot destructure property 'name' of 'tenantData' as it is null.")).
Proof.
  split.
  - exact (proj1 (InMemoryData_loadTenants_incomplete
             [InMemoryData.Data (Some "a") (Some ∅)]
             (InMemoryData.Data (Some "") (Some ∅))
             [InMemoryData.Data (Some "c") (Some ∅)]
             eq_refl eq_refl)).
  - exact (proj1 (InMemoryData_loadTenants_incomplete
             [InMemoryData.Data (Some "a") (Some ∅)]
             (InMemoryData.Nullish JsNull)
             [InMemoryData.Data (Some "") (Some ∅)]
             eq_refl eq_refl)).
Defined.

(** X3.  Whatever the data, elements that are [null] or [undefined]
    included, [loadTenants] of the in-memory provider never fails with the
    error of the [Tenant] constructor: the provider makes the same test
    before it calls the constructor.  It returns as many tenants as there
    are elements, or it throws its own error, or, when the data holds
    [null] or [undefined], the [TypeError] of the destructuring. *)
Theorem InMemoryData_loadTenants_never_constructor_error this :
  (InMemoryData.loadTenants this).2 ≠ inl missing_configuration
  ∧ ((∃ l, (InMemoryData.loadTenants this).2 = inr l
           ∧ length l = length (InMemoryData._data this))
     ∨ (InMemoryData.loadTenants this).2 = inl InMemoryData.missing_name_or_config
     ∨ (∃ u, InMemoryData.Nullish u ∈ InMemoryData._data this
             ∧ (InMemoryData.loadTenants this).2
               = inl (InMemoryData.cannot_destructure u))).
Proof.
  destruct this as [ds]. cbn [InMemoryData._data].
  destruct (forallb_first_failure InMemoryData.complete ds)
    as [H|(ds1 & d & ds2 & -> & H1 & Hd)].
  - assert ((InMemoryData.loadTenants {| InMemoryData._data := ds |}).2
            = inr (map InMemoryData.tenant_of ds)) as ->.
    { rewrite InMemoryData_loadTenants_eq. cbn [InMemoryData._data].
      by rewrite (forEach_add_all _ _ _ H). }
    split; [done|]. left. eexists. split; [done|]. by rewrite length_map.
  - assert ((InMemoryData.loadTenants {| InMemoryData._data := ds1 ++ d :: ds2 |}).2
            = inl (InMemoryData.rejection d)) as ->.
    { rewrite InMemoryData_loadTenants_eq. cbn [InMemoryData._data].
      rewrite (forEach_add _ _ _ _ H1). cbn [forEach]. unfold bind at 1.
      by rewrite (add_incomplete d _ _ Hd). }
    destruct d as [u|n c]; cbn [InMemoryData.rejection].
    + split; [done|]. right. right. exists u. split; [|done].
      apply elem_of_app. right. apply elem_of_cons. by left.
    + split; [done|]. right. by left.
Qed.

Lemma InMemoryData_body_complete this :
  forallb InMemoryData.complete (InMemoryData._data this) = true →
  ∃ tr, InMemoryData.loadTenants_body this [] []
        = (map InMemoryData.tenant_of (InMemoryData._data this), tr,
           inr (map InMemoryData.tenant_of (InMemoryData._data this))).
Proof.
  intros H. unfold InMemoryData.loadTenants_body.
  destruct this as [[|d ds]]; [by eexists|].
  cbn [InMemoryData._data length Nat.eqb] in *.
  unfold bind at 1 2. unfold ret at 1.
  rewrite (forEach_add_all _ _ _ H). by eexists.
Qed.

(** ** What [Landlord.loadTenants] gets from such providers *)

Lemma map_record_tenant_of ds :
  map (fun x => (Tenant._name x, Tenant._config x)) (map InMemoryData.tenant_of ds)
  = map InMemoryData.record_of ds.
Proof. by rewrite map_map. Qed.

Lemma InMemoryData_provider_loads insts :
  forallb (fun this => forallb InMemoryData.complete (InMemoryData._data this)) insts = true →
  forallb Landlord.loads (map InMemoryData.provider insts) = true
  ∧ Landlord.records (map InMemoryData.provider insts)
    = flat_map (fun this => map InMemoryData.record_of (InMemoryData._data this)) insts.
Proof.
  induction insts as [|this insts IH]; [done|].
  cbn [forallb map flat_map]. intros [H Hs]%andb_true_iff.
  destruct (IH Hs) as [IH1 IH2].
  destruct (InMemoryData_body_complete this H) as [tr Hrun].
  rewrite LandlordFacts.records_cons, IH1, IH2.
  unfold Landlord.loads, InMemoryData.provider, as_provider. rewrite Hrun.
  cbn [Landlord.method Landlord.outcome snd]. by rewrite map_record_tenant_of.
Qed.

(** X4.  [Landlord.loadTenants] over in-memory providers whose elements
    all have a name and a config, none named [__proto__], at least one
    element in all: the call returns an object with one record per distinct
    name; its config is the merge of the configs given under that name in
    the order of the providers and of their data, later ones on top, all on
    top of the config of [_default_] when that name occurs. *)
Theorem loadTenants_of_in_memory_data insts :
  let records :=
    flat_map (fun this => map InMemoryData.record_of (InMemoryData._data this)) insts in
  forallb (fun this => forallb InMemoryData.complete (InMemoryData._data this)) insts = true →
  Landlord.ordinary_names records = true →
  0 < length records →
  ∃ tr c,
    Landlord.loadTenants
      {| Landlord.providers := Landlord.Array (map InMemoryData.provider insts) |}
    = (tr, inr c)
    ∧ Landlord.holds c (Landlord.with_default (Landlord.resolve records))
    ∧ length (Coll.keys c) = size (list_to_set records.*1 : gset string).
Proof.
  intros records Hc Hn Hlen.
  destruct (InMemoryData_provider_loads insts Hc) as [Hl Hr].
  destruct (LandlordFacts.loadTenants_resolves
              (Landlord.Array (map InMemoryData.provider insts)) eq_refl)
    as (tr & c & Hrun & Hh & Hk).
  - exact Hl.
  - cbn [Landlord.normalize]. by rewrite Hr.
  - cbn [Landlord.normalize]. by rewrite Hr.
  - cbn [Landlord.normalize] in *. rewrite Hr in Hh, Hk. by exists tr, c.
Qed.

Lemma loadTenants_of_in_memory_data_witness :
  ∃ tr c,
    Landlord.loadTenants
      {| Landlord.providers := Landlord.Array
           [InMemoryData.provider
              {| InMemoryData._data :=
                   [InMemoryData.Data (Some "_default_") (Some {["a" := Samples.num 1]});
                    InMemoryData.Data (Some "t") (Some {["x" := Samples.num 1]})] |};
            InMemoryData.provider
              {| InMemoryData._data :=
                   [InMemoryData.Data (Some "t") (Some {["x" := Samples.num 2]})] |}] |}
    = (tr, inr c)
    ∧ Coll.lookup "t" (Coll.own c)
      = Some (Tenant.make "t" (<["x" := Samples.num 2]> {["a" := Samples.num 1]}))
    ∧ length (Coll.keys c) = 2.
Proof.
  destruct (loadTenants_of_in_memory_data
    [{| InMemoryData._data :=
          [InMemoryData.Data (Some "_default_") (Some {["a" := Samples.num 1]});
           InMemoryData.Data (Some "t") (Some {["x" := Samples.num 1]})] |};
     {| InMemoryData._data :=
          [InMemoryData.Data (Some "t") (Some {["x" := Samples.num 2]})] |}]
    eq_refl eq_refl) as (tr & c & Hrun & (_ & _ & Hl) & Hlen).
  - simpl. lia.
  - exists tr, c. split; [exact Hrun|]. split; [exact (Hl "t")|exact Hlen].
Defined.

(** ** FileSystem *)

Lemma FileSystem_add_usable f l tr :
  FileSystem.usable f = true →
  FileSystem.add f l tr
  = (l ++ [FileSystem.tenant_of f], tr ++ FileSystem.logs f, inr tt).
Proof.
  unfold FileSystem.usable, FileSystem.add, FileSystem.tenant_of, FileSystem.logs.
  destruct (FileSystem.exported f) as [e|[c|]]; try done.
  intros Hn%negb_true_iff.
  unfold bind, log, emit, lift, ret, modify, new_Tenant. simpl. rewrite Hn.
  by rewrite <- app_assoc.
Qed.

Lemma FileSystem_add_unusable f l tr :
  FileSystem.usable f = false →
  FileSystem.add f l tr
  = (l, tr ++ [ELog (FileSystem.found (FileSystem.fullPath f))],
     inl match FileSystem.exported f with
         | inl e => e
         | inr _ => missing_configuration
         end).
Proof.
  unfold FileSystem.usable, FileSystem.add.
  destruct (FileSystem.exported f) as [e|[c|]]; try done.
  - intros Hn%negb_false_iff.
    unfold bind, log, emit, lift, ret, modify, new_Tenant. simpl. by rewrite Hn.
Qed.

Lemma FileSystem_forEach_add fs rest l tr :
  forallb FileSystem.usable fs = true →
  forEach FileSystem.add (fs ++ rest) l tr
  = forEach FileSystem.add rest (l ++ map FileSystem.tenant_of fs)
      (tr ++ flat_map FileSystem.logs fs).
Proof.
  revert l tr. induction fs as [|f fs IH]; intros l tr; simpl.
  - intros _. by rewrite !app_nil_r.
  - intros [Hf Hfs]%andb_true_iff. unfold bind at 1.
    rewrite (FileSystem_add_usable f l tr Hf), (IH _ _ Hfs).
    by rewrite <- !app_assoc.
Qed.

Lemma FileSystem_forEach_add_all fs l tr :
  forallb FileSystem.usable fs = true →
  forEach FileSystem.add fs l tr
  = (l ++ map FileSystem.tenant_of fs, tr ++ flat_map FileSystem.logs fs, inr tt).
Proof.
  intros H. rewrite <- (app_nil_r fs) at 1.
  by rewrite (FileSystem_forEach_add _ [] _ _ H).
Qed.

Lemma FileSystem_body_eq fs :
  FileSystem.loadTenants_body fs [] []
  = match forEach FileSystem.add fs []
            (if (length fs =? 0)%nat then [ELog FileSystem.no_files] else []) with
    | (l, tr, inl e) => (l, tr, inl e)
    | (l, tr, inr _) => (l, tr, inr l)
    end.
Proof.
  unfold FileSystem.loadTenants_body.
  destruct fs as [|f fs]; [done|].
  cbn [length Nat.eqb].
  unfold bind at 1 2. unfold ret at 1.
  by destruct (forEach FileSystem.add (f :: fs) [] []) as [[l tr] [e|[]]].
Qed.

(** X5.  [loadTenants] of the file provider, when every file found has an
    ASCII name, loads, exports an object and has a name that leaves a
    tenant name: it returns one new tenant per file, in the order of the
    resolver, named by [tenant_name] and holding what the file exports; it
    logs two lines per file, after one line when no file was found. *)
Theorem FileSystem_loadTenants_returns globResolver this :
  let files := globResolver (FileSystem.globs this) in
  forallb FileSystem.ascii_named files = true →
  forallb FileSystem.usable files = true →
  FileSystem.loadTenants globResolver this
  = ((if (length files =? 0)%nat then [ELog FileSystem.no_files] else [])
     ++ flat_map FileSystem.logs files,
     inr (map FileSystem.tenant_of files)).
Proof.
  intros files _ H. unfold FileSystem.loadTenants. rewrite FileSystem_body_eq.
  fold files. by rewrite (FileSystem_forEach_add_all _ _ _ H).
Qed.

(** X6.  The first file that does not give a tenant ends [loadTenants] of
    the file provider, after the line that announces the file: with the
    exception of [require] when the module does not load, and with the
    error of the [Tenant] constructor when the module exports a falsy
    value or when the name of the file leaves an empty tenant name.  The
    files up to that one have ASCII names. *)
Theorem FileSystem_loadTenants_fails globResolver this fs1 f fs2 :
  globResolver (FileSystem.globs this) = fs1 ++ f :: fs2 →
  forallb FileSystem.ascii_named (fs1 ++ [f]) = true →
  forallb FileSystem.usable fs1 = true →
  FileSystem.usable f = false →
  FileSystem.loadTenants globResolver this
  = (flat_map FileSystem.logs fs1 ++ [ELog (FileSystem.found (FileSystem.fullPath f))],
     inl match FileSystem.exported f with
         | inl e => e
         | inr _ => missing_configuration
         end).
Proof.
  intros Hfs _ H1 Hf. unfold FileSystem.loadTenants. rewrite FileSystem_body_eq, Hfs.
  replace (length (fs1 ++ f :: fs2) =? 0)%nat with false by (by destruct fs1).
  rewrite (FileSystem_forEach_add _ _ _ _ H1). cbn [forEach]. unfold bind at 1.
  by rewrite (FileSystem_add_unusable f _ _ Hf).
Qed.

Lemma FileSystem_loadTenants_returns_witness :
  FileSystem.loadTenants
    (FileSystem.finding [FileSystem.exporting "Acme.tenant" {["port" := Samples.num 1]}])
    {| FileSystem.globs := FileSystem.Pattern "*.tenant.json" |}
  = ([ELog "landlord: FileSystem provider - found /tenants/Acme.tenant.json ...";
      ELog "landlord: FileSystem provider - created acme"],
     inr [Tenant.make "acme" {["port" := Samples.num 1]}]).
Proof.
  exact (FileSystem_loadTenants_returns
           (FileSystem.finding
              [FileSystem.exporting "Acme.tenant" {["port" := Samples.num 1]}])
           {| FileSystem.globs := FileSystem.Pattern "*.tenant.json" |}
           eq_refl eq_refl).
Defined.

Lemma FileSystem_loadTenants_fails_witness :
  FileSystem.loadTenants
    (FileSystem.finding [FileSystem.exporting "acme.tenant" ∅;
                         FileSystem.exporting ".tenant" ∅])
    {| FileSystem.globs := FileSystem.Pattern "*.json" |}
  = ([ELog "landlord: FileSystem provider - found /tenants/acme.tenant.json ...";
      ELog "landlord: FileSystem provider - created acme";
      ELog "landlord: FileSystem provider - found /tenants/.tenant.json ..."],
     inl missing_configuration).
Proof.
  exact (FileSystem_loadTenants_fails
           (FileSystem.finding [FileSystem.exporting "acme.tenant" ∅;
                                FileSystem.exporting ".tenant" ∅])
           {| FileSystem.globs := FileSystem.Pattern "*.json" |}
           [FileSystem.exporting "acme.tenant" ∅] (FileSystem.exporting ".tenant" ∅) []
           eq_refl eq_refl eq_refl eq_refl).
Defined.

(** X7.  The tenant name of a file, for an ASCII file name.  When the name
    holds the marker [.tenant] in any letter case and the text before it
    holds none, the tenant name is the text before the marker followed by
    the text after it, both in lower case: [Acme.Example.COM.Tenant] gives
    [acme.example.com], and [x.tenants] gives [xs].  A name without the
    marker gives itself in lower case. *)
Theorem tenant_name_marker n :
  JsString.is_ascii n = true →
  (∀ h m b,
     n = h +:+ m +:+ b →
     JsString.toLowerCase m = ".tenant" →
     JsString.occurs ".tenant" (JsString.toLowerCase h) = false →
     FileSystem.tenant_name n = JsString.toLowerCase h +:+ JsString.toLowerCase b)
  ∧ (JsString.occurs ".tenant" (JsString.toLowerCase n) = false →
     FileSystem.tenant_name n = JsString.toLowerCase n).
Proof.
  intros _. unfold FileSystem.tenant_name. split.
  - intros h m b -> Hm Hh.
    rewrite !JsStringFacts.toLowerCase_app, Hm.
    exact (JsStringFacts.replace_after "." "tenant" "" _ _ eq_refl Hh).
  - intros Hn. by apply JsStringFacts.replace_absent.
Qed.

Lemma tenant_name_marker_witness :
  FileSystem.tenant_name "Acme.Example.COM.Tenant" = "acme.example.com"
  ∧ FileSystem.tenant_name "_default_.tenant" = "_default_"
  ∧ FileSystem.tenant_name "x.tenants" = "xs"
  ∧ FileSystem.tenant_name "Plain" = "plain".
Proof.
  split; [|split; [|split]].
  - exact (proj1 (tenant_name_marker "Acme.Example.COM.Tenant" eq_refl)
             "Acme.Example.COM" ".Tenant" "" eq_refl eq_refl eq_refl).
  - exact (proj1 (tenant_name_marker "_default_.tenant" eq_refl)
             "_default_" ".tenant" "" eq_refl eq_refl eq_refl).
  - exact (proj1 (tenant_name_marker "x.tenants" eq_refl)
             "x" ".tenant" "s" eq_refl eq_refl eq_refl).
  - exact (proj2 (tenant_name_marker "Plain" eq_refl) eq_refl).
Defined.

Lemma FileSystem_body_usable fs :
  forallb FileSystem.usable fs = true →
  ∃ tr, FileSystem.loadTenants_body fs [] []
        = (map FileSystem.tenant_of fs, tr, inr (map FileSystem.tenant_of fs)).
Proof.
  intros H. rewrite FileSystem_body_eq.
  rewrite (FileSystem_forEach_add_all _ _ _ H). by eexists.
Qed.

Lemma FileSystem_provider_loads globResolver insts :
  forallb (fun this => forallb FileSystem.usable (globResolver (FileSystem.globs this)))
    insts = true →
  forallb Landlord.loads (map (FileSystem.provider globResolver) insts) = true
  ∧ Landlord.records (map (FileSystem.provider globResolver) insts)
    = flat_map (fun this => map FileSystem.record_of (globResolver (FileSystem.globs this)))
        insts.
Proof.
  induction insts as [|this insts IH]; [done|].
  cbn [forallb map flat_map]. intros [H Hs]%andb_true_iff.
  destruct (IH Hs) as [IH1 IH2].
  destruct (FileSystem_body_usable _ H) as [tr Hrun].
  rewrite LandlordFacts.records_cons, IH1, IH2.
  unfold Landlord.loads, FileSystem.provider, as_provider. rewrite Hrun.
  cbn [Landlord.method Landlord.outcome snd]. by rewrite map_map.
Qed.

(** X8.  [Landlord.loadTenants] over file providers whose files all have
    ASCII names and give a tenant, none named [__proto__], at least one
    file in all: the call returns an object with one record per distinct
    tenant name.  Files whose names give the same tenant name, such as
    ASCII names that differ in letter case only, end in one record: its
    config is what [resolve] folds from what the files export, in the
    order of the providers and of the resolver, each later export merged
    into the stored config, all merged into the config of [_default_] when
    that name occurs. *)
Theorem loadTenants_of_files globResolver insts :
  let records :=
    flat_map (fun this => map FileSystem.record_of (globResolver (FileSystem.globs this)))
      insts in
  forallb (fun this => forallb FileSystem.ascii_named (globResolver (FileSystem.globs this)))
    insts = true →
  forallb (fun this => forallb FileSystem.usable (globResolver (FileSystem.globs this)))
    insts = true →
  Landlord.ordinary_names records = true →
  0 < length records →
  ∃ tr c,
    Landlord.loadTenants
      {| Landlord.providers :=
           Landlord.Array (map (FileSystem.provider globResolver) insts) |}
    = (tr, inr c)
    ∧ Landlord.holds c (Landlord.with_default (Landlord.resolve records))
    ∧ length (Coll.keys c) = size (list_to_set records.*1 : gset string).
Proof.
  intros records _ Hc Hn Hlen.
  destruct (FileSystem_provider_loads globResolver insts Hc) as [Hl Hr].
  destruct (LandlordFacts.loadTenants_resolves
              (Landlord.Array (map (FileSystem.provider globResolver) insts)) eq_refl)
    as (tr & c & Hrun & Hh & Hk).
  - exact Hl.
  - cbn [Landlord.normalize]. by rewrite Hr.
  - cbn [Landlord.normalize]. by rewrite Hr.
  - cbn [Landlord.normalize] in *. rewrite Hr in Hh, Hk. by exists tr, c.
Qed.

Lemma loadTenants_of_files_witness :
  let first : obj :=
    <["db" := VObj (<["port" := Samples.num 1]> {["host" := VAtom (AStr "h")]})]>
      {["x" := Samples.num 1]} in
  let second : obj :=
    <["db" := VObj {["port" := Samples.num 2]}]> {["x" := Samples.num 2]} in
  ∃ tr c,
    Landlord.loadTenants
      {| Landlord.providers := Landlord.Array
           [FileSystem.provider
              (FileSystem.finding
                 [FileSystem.exporting "Acme.tenant" first;
                  FileSystem.exporting "acme.TENANT" second])
              {| FileSystem.globs := FileSystem.Pattern "*.json" |}] |}
    = (tr, inr c)
    ∧ Coll.lookup "acme" (Coll.own c)
      = Some (Tenant.make "acme"
          (<["db" := VObj (<["port" := Samples.num 2]> {["host" := VAtom (AStr "h")]})]>
             {["x" := Samples.num 2]}))
    ∧ length (Coll.keys c) = 1.
Proof.
  intros first second.
  destruct (loadTenants_of_files
    (FileSystem.finding
       [FileSystem.exporting "Acme.tenant" first;
        FileSystem.exporting "acme.TENANT" second])
    [{| FileSystem.globs := FileSystem.Pattern "*.json" |}]
    eq_refl eq_refl eq_refl) as (tr & c & Hrun & (_ & _ & Hl) & Hlen).
  - simpl. lia.
  - exists tr, c. split; [exact Hrun|]. split; [exact (Hl "acme")|exact Hlen].
Defined.

End ProvidersFacts.

(* ===================================================================== *)
(** * Properties of [attachDatabases] *)
(* ===================================================================== *)

Module AttachFacts.
Import Json Effects Attach.

Section lodash.
Variable get_path : obj → string → arg.

Lemma attach_one_eq f fin p x tr :
  attach_one get_path f fin p x tr =
    if configured get_path p x then
      if handle_truthy (Tenant._db x) then
        (x, tr ++ [ELog (attaching (Tenant._name x))], inl Tenant.already_attached)
      else
        match f (get_path (Tenant._config x) p) with
        | inr h =>
            (Tenant.set_dbFinalizer (Some fin) (Tenant.set_db h x),
             tr ++ attach_trace get_path p x, inr tt)
        | inl e =>
            (x, tr ++ [ELog (attaching (Tenant._name x));
                       EFactory (get_path (Tenant._config x) p)], inl e)
        end
    else (x, tr ++ attach_trace get_path p x, inr tt).
Proof.
  unfold attach_one, attach_trace, configured.
  unfold bind at 1. unfold get at 1. unfold bind at 1. unfold log at 1, emit at 1.
  destruct (Landlord.arg_truthy (get_path (Tenant._config x) p)).
  - unfold bind at 1.
    destruct (handle_truthy (Tenant._db x)) eqn:Hdb.
    + by rewrite TenantFacts.attachDatabase_truthy.
    + rewrite TenantFacts.attachDatabase_falsy by done.
      destruct (f _) as [e|h]; [by rewrite <- app_assoc|].
      unfold log, emit. simpl. by rewrite <- !app_assoc.
  - unfold log, emit. by rewrite <- app_assoc.
Qed.

Lemma attach_one_attaches f fin p x tr :
  attaches get_path f p x = true →
  attach_one get_path f fin p x tr
  = (attach_record get_path f fin p x, tr ++ attach_trace get_path p x, inr tt).
Proof.
  rewrite attach_one_eq. unfold attaches, attach_record.
  destruct (configured get_path p x); [|done].
  intros [Hdb Hf]%andb_true_iff. apply negb_true_iff in Hdb. rewrite Hdb.
  by destruct (f _).
Qed.

Lemma attach_one_fails f fin p x tr :
  attaches get_path f p x = false →
  attach_one get_path f fin p x tr
  = (x, tr ++ failure_trace get_path p x, inl (failure get_path f p x)).
Proof.
  rewrite attach_one_eq. unfold attaches, failure, failure_trace.
  destruct (configured get_path p x); [|done].
  destruct (handle_truthy (Tenant._db x)); [done|]. simpl.
  by destruct (f _).
Qed.

Lemma forEach_value_attach f fin p l1 rest tr :
  forallb (attaches get_path f p) l1.*2 = true →
  Coll.forEach_value (attach_one get_path f fin p) (l1 ++ rest) tr =
    match Coll.forEach_value (attach_one get_path f fin p) rest
            (tr ++ flat_map (attach_trace get_path p) l1.*2) with
    | (rest', tr', r) => (attach_all get_path f fin p l1 ++ rest', tr', r)
    end.
Proof.
  revert tr. induction l1 as [|[k x] l1 IH]; intros tr; simpl.
  - intros _. rewrite app_nil_r.
    by destruct (Coll.forEach_value _ rest tr) as [[rest' tr'] r].
  - intros [Hx Hl]%andb_true_iff.
    rewrite (attach_one_attaches _ _ _ _ _ Hx), (IH _ Hl), <- app_assoc.
    by destruct (Coll.forEach_value _ rest _) as [[rest' tr'] r].
Qed.


End lodash.

(** X9.  [attachDatabases] with all four options given.  The loop goes
    through the records in the order of [Object.values].  A record without
    a database configuration at the path is skipped; a configured record
    that holds no truthy handle gets the handle the factory returns and
    the finalizer.  The loop ends at the first configured record that
    already holds a truthy handle, with the already-attached error and
    without a call of the factory, or whose factory throws, with that
    exception: the records before it stay attached and the records from it
    on are left as they were. *)
Theorem attachDatabases_until_failure get_path f fin p l1 rest pr tr :
  String.eqb p "" = false →
  forallb (attaches get_path f p) l1.*2 = true →
  match rest with
  | [] => true
  | (_, x) :: _ => negb (attaches get_path f p x)
  end = true →
  attachDatabases get_path (complete f fin p)
    {| Coll.own := l1 ++ rest; Coll.proto := pr |} tr =
    ({| Coll.own := attach_all get_path f fin p l1 ++ rest; Coll.proto := pr |},
     tr ++ flat_map (attach_trace get_path p) l1.*2
        ++ match rest with
           | [] => []
           | (_, x) :: _ => failure_trace get_path p x
           end,
     match rest with
     | [] => inr tt
     | (_, x) :: _ => inl (failure get_path f p x)
     end).
Proof.
  intros Hp Hl Hrest. unfold attachDatabases, complete. rewrite Hp.
  unfold Coll.forEach_values. cbn [Coll.own Coll.proto].
  rewrite (forEach_value_attach _ _ _ _ _ _ _ Hl).
  destruct rest as [|[k x] rest].
  - simpl. by rewrite !app_nil_r.
  - apply negb_true_iff in Hrest. cbn [Coll.forEach_value].
    rewrite (attach_one_fails _ _ _ _ _ _ Hrest). by rewrite <- app_assoc.
Qed.


Lemma attachDatabases_until_failure_witness :
  let db := {["db" := Samples.num 5]} : obj in
  attachDatabases get_key
    (complete Samples.client_factory Samples.quiet_finalizer "db")
    {| Coll.own := [("a", Tenant.make "a" db);
                    ("b", Tenant.make "b" ∅);
                    ("c", Samples.attached "c" 1 Samples.quiet_finalizer);
                    ("d", Tenant.set_config db (Samples.attached "d" 2 Samples.quiet_finalizer));
                    ("e", Tenant.make "e" db)];
       Coll.proto := None |} []
  = ({| Coll.own :=
          [("a", Tenant.set_dbFinalizer (Some Samples.quiet_finalizer)
                   (Tenant.set_db (HObject 7) (Tenant.make "a" db)));
           ("b", Tenant.make "b" ∅);
           ("c", Samples.attached "c" 1 Samples.quiet_finalizer);
           ("d", Tenant.set_config db (Samples.attached "d" 2 Samples.quiet_finalizer));
           ("e", Tenant.make "e" db)];
        Coll.proto := None |},
     [ELog "landlord: Attaching a ..."; EFactory (Val (Samples.num 5));
      ELog "landlord: Attached a.";
      ELog "landlord: Attaching b ..."; ELog "landlord: Skipped b (no db config).";
      ELog "landlord: Attaching c ..."; ELog "landlord: Skipped c (no db config).";
      ELog "landlord: Attaching d ..."],
     inl Tenant.already_attached).
Proof.
  exact (attachDatabases_until_failure get_key
           Samples.client_factory Samples.quiet_finalizer "db"
           [("a", Tenant.make "a" {["db" := Samples.num 5]});
            ("b", Tenant.make "b" ∅);
            ("c", Samples.attached "c" 1 Samples.quiet_finalizer)]
           [("d", Tenant.set_config {["db" := Samples.num 5]}
                    (Samples.attached "d" 2 Samples.quiet_finalizer));
            ("e", Tenant.make "e" {["db" := Samples.num 5]})]
           None [] eq_refl eq_refl eq_refl).
Defined.

(** Without [options.db], or with a [factory], a [finalizer] or a
    [configPath] that is missing or falsy, [attachDatabases] logs one line
    and does nothing else. *)
Lemma attachDatabases_skipped get_path db c tr :
  incomplete db = true →
  attachDatabases get_path db c tr = (c, tr ++ [ELog skipped], inr tt).
Proof.
  unfold incomplete, attachDatabases.
  destruct db as [[[f|] [fin|] [p|]]|]; try done.
  cbn [factory finalizer configPath Providers.string_truthy].
  rewrite !bool_decide_eq_true_2 by eauto.
  by destruct (String.eqb p "").
Qed.

(** ** The handles finalized *)

Lemma finalized_app tr1 tr2 : finalized (tr1 ++ tr2) = finalized tr1 ++ finalized tr2.
Proof. unfold finalized. apply omap_app. Qed.


Lemma finalized_detach_traces (l : list Tenant.t) :
  finalized (flat_map Landlord.detach_trace l) = omap finalizable l.
Proof.
  induction l as [|x l IH]; [done|]. simpl. rewrite finalized_app, IH.
  unfold Landlord.detach_trace, finalizable.
  by destruct (Tenant.finalizer_call x).
Qed.

Lemma detachDatabases_eq c tr :
  Landlord.detachDatabases c tr =
    match Coll.forEach_value Landlord.detach_one (Coll.own c)
            (tr ++ [ELog "landlord: Cleaning up..."]) with
    | (l, tr', inl e) => ({| Coll.own := l; Coll.proto := Coll.proto c |}, tr', inl e)
    | (l, tr', inr _) =>
        ({| Coll.own := l; Coll.proto := Coll.proto c |},
         tr' ++ [ELog "landlord: All cleaned up."], inr tt)
    end.
Proof.
  unfold Landlord.detachDatabases, Coll.forEach_values.
  unfold bind at 1. unfold log at 1, emit at 1. unfold bind at 1.
  by destruct (Coll.forEach_value _ _ _) as [[l tr'] [e|[]]].
Qed.

Lemma detachDatabases_all c tr :
  forallb Tenant.finalizer_returns (Coll.own c).*2 = true →
  Landlord.detachDatabases c tr
  = ({| Coll.own := Landlord.clear_all (Coll.own c); Coll.proto := Coll.proto c |},
     tr ++ [ELog "landlord: Cleaning up..."]
        ++ flat_map Landlord.detach_trace (Coll.own c).*2
        ++ [ELog "landlord: All cleaned up."], inr tt).
Proof.
  intros H. rewrite detachDatabases_eq.
  rewrite <- (app_nil_r (Coll.own c)) at 1.
  rewrite (LandlordFacts.forEach_value_detach _ [] _ H). simpl.
  by rewrite !app_nil_r, <- !app_assoc.
Qed.








(** ** What the loops leave in place *)

Lemma forEach_value_contents (body : M Tenant.t unit) :
  (∀ x tr, Tenant._name (body x tr).1.1 = Tenant._name x
           ∧ Tenant._config (body x tr).1.1 = Tenant._config x) →
  ∀ l tr,
    map (fun kx => (kx.1, (Tenant._name kx.2, Tenant._config kx.2)))
      (Coll.forEach_value body l tr).1.1
    = map (fun kx => (kx.1, (Tenant._name kx.2, Tenant._config kx.2))) l.
Proof.
  intros Hbody. induction l as [|[k x] l IH]; intros tr; [done|].
  cbn [Coll.forEach_value]. specialize (Hbody x tr).
  destruct (body x tr) as [[x' tr'] [e|u]]; simpl in Hbody; destruct Hbody as [Hn Hc].
  - simpl. by rewrite Hn, Hc.
  - specialize (IH tr').
    destruct (Coll.forEach_value body l tr') as [[l' tr''] r]. simpl in *.
    by rewrite Hn, Hc, IH.
Qed.

Lemma forEach_values_contents (body : M Tenant.t unit) c tr :
  (∀ x tr, Tenant._name (body x tr).1.1 = Tenant._name x
           ∧ Tenant._config (body x tr).1.1 = Tenant._config x) →
  contents (Coll.forEach_values body c tr).1.1 = contents c
  ∧ Coll.proto (Coll.forEach_values body c tr).1.1 = Coll.proto c.
Proof.
  intros Hbody. unfold Coll.forEach_values, contents.
  pose proof (forEach_value_contents body Hbody (Coll.own c) tr) as H.
  by destruct (Coll.forEach_value body (Coll.own c) tr) as [[l tr'] r].
Qed.

Lemma attach_one_contents get_path f fin p x tr :
  Tenant._name (attach_one get_path f fin p x tr).1.1 = Tenant._name x
  ∧ Tenant._config (attach_one get_path f fin p x tr).1.1 = Tenant._config x.
Proof.
  rewrite attach_one_eq.
  destruct (configured get_path p x); [|done].
  destruct (handle_truthy (Tenant._db x)); [done|].
  by destruct (f _).
Qed.

Lemma detach_one_contents x tr :
  Tenant._name (Landlord.detach_one x tr).1.1 = Tenant._name x
  ∧ Tenant._config (Landlord.detach_one x tr).1.1 = Tenant._config x.
Proof.
  rewrite LandlordFacts.detach_one_eq.
  by destruct (Tenant.finalizer_call x) as [[e|u]|].
Qed.

Lemma attachDatabases_contents get_path db c tr :
  contents (attachDatabases get_path db c tr).1.1 = contents c
  ∧ Coll.proto (attachDatabases get_path db c tr).1.1 = Coll.proto c.
Proof.
  unfold attachDatabases.
  destruct db as [[[f|] [fin|] [p|]]|]; try done.
  destruct (String.eqb p ""); [done|].
  apply forEach_values_contents. intros x tr'. apply attach_one_contents.
Qed.

Lemma detachDatabases_contents c tr :
  contents (Landlord.detachDatabases c tr).1.1 = contents c
  ∧ Coll.proto (Landlord.detachDatabases c tr).1.1 = Coll.proto c.
Proof.
  rewrite detachDatabases_eq.
  pose proof (forEach_value_contents Landlord.detach_one detach_one_contents
                (Coll.own c) (tr ++ [ELog "landlord: Cleaning up..."])) as H.
  unfold contents.
  by destruct (Coll.forEach_value _ _ _) as [[l tr'] [e|u]].
Qed.

Lemma names_contents c c' : contents c' = contents c → names c' = names c.
Proof.
  unfold contents, names. intros H.
  apply (f_equal (map (fun kn : string * (string * obj) => (kn.1, kn.2.1)))) in H.
  by rewrite !map_map in H.
Qed.

(** X12.  Whatever the options, and whether the call returns or throws:
    [attachDatabases] and [detachDatabases] add, remove, reorder and rename
    no record and leave the prototype of the object as it was, for
    callbacks that act on nothing but the value they are handed.
    [detachDatabases], whose finalizers are handed the handle only, leaves
    the config of every record as it was, too.  Nothing is stated about
    the configs after [attachDatabases]: the factory is handed a value
    inside the config of the record and may write into it. *)
Theorem databases_keep_contents get_path db c tr :
  (names (attachDatabases get_path db c tr).1.1 = names c
   ∧ Coll.proto (attachDatabases get_path db c tr).1.1 = Coll.proto c)
  ∧ (contents (Landlord.detachDatabases c tr).1.1 = contents c
     ∧ Coll.proto (Landlord.detachDatabases c tr).1.1 = Coll.proto c).
Proof.
  split; [|apply detachDatabases_contents].
  destruct (attachDatabases_contents get_path db c tr) as [Hc Hp].
  split; [by apply names_contents|done].
Qed.

End AttachFacts.

(* ===================================================================== *)
(** * Computations that call no finalizer *)
(* ===================================================================== *)

Module QuietFacts.
Import Json Effects Attach.

Lemma quiet_silent {St A} (m : M St A) :
  (∀ s tr, (m s tr).1.2 = tr) → quiet m.
Proof. intros H s tr. exists []. by rewrite H, app_nil_r. Qed.

Lemma quiet_ret {St A} (a : A) : quiet (ret (St := St) a).
Proof. by apply quiet_silent. Qed.

Lemma quiet_throw {St A} e : quiet (throw (St := St) (A := A) e).
Proof. by apply quiet_silent. Qed.

Lemma quiet_get {St} : quiet (get (St := St)).
Proof. by apply quiet_silent. Qed.

Lemma quiet_put {St} (s : St) : quiet (put s).
Proof. by apply quiet_silent. Qed.

Lemma quiet_modify {St} (f : St → St) : quiet (modify f).
Proof. by apply quiet_silent. Qed.

Lemma quiet_lift {St A} (r : exn + A) : quiet (lift (St := St) r).
Proof. destruct r; by apply quiet_silent. Qed.

Lemma quiet_emit {St} ev :
  finalized [ev] = [] → quiet (emit (St := St) ev).
Proof. intros H s tr. by exists [ev]. Qed.

Lemma quiet_log {St} msg : quiet (log (St := St) msg).
Proof. by apply quiet_emit. Qed.

Lemma quiet_bind {St A B} (m : M St A) (k : A → M St B) :
  quiet m → (∀ a, quiet (k a)) → quiet (bind m k).
Proof.
  intros Hm Hk s tr. unfold bind. destruct (Hm s tr) as (tr1 & E1 & F1).
  destruct (m s tr) as [[s' tr'] [e|a]]; simpl in E1; subst tr'.
  - by exists tr1.
  - destruct (Hk a s' (tr ++ tr1)) as (tr2 & E2 & F2).
    exists (tr1 ++ tr2). rewrite E2, <- app_assoc. split; [done|].
    by rewrite AttachFacts.finalized_app, F1, F2.
Qed.

Lemma quiet_forEach {St A} (body : A → M St unit) l :
  (∀ a, quiet (body a)) → quiet (forEach body l).
Proof.
  intros H. induction l as [|a l IH]; [apply quiet_ret|].
  simpl. apply quiet_bind; [apply H|]. by intros _.
Qed.

Lemma quiet_forEach_from {St A} (body : nat → A → M St unit) i l :
  (∀ i a, quiet (body i a)) → quiet (forEach_from i body l).
Proof.
  intros H. revert i. induction l as [|a l IH]; intros i; [apply quiet_ret|].
  simpl. apply quiet_bind; [apply H|]. intros _. apply IH.
Qed.

Lemma quiet_forEach_values (body : M Tenant.t unit) :
  quiet body → quiet (Coll.forEach_values body).
Proof.
  intros H c tr. unfold Coll.forEach_values.
  assert (∀ l tr, ∃ tr', (Coll.forEach_value body l tr).1.2 = tr ++ tr'
                         ∧ finalized tr' = []) as Hl.
  { clear c tr. induction l as [|[k x] l IH]; intros tr.
    - exists []. by rewrite app_nil_r.
    - cbn [Coll.forEach_value]. destruct (H x tr) as (tr1 & E1 & F1).
      destruct (body x tr) as [[x' tr'] [e|u]]; simpl in E1; subst tr'.
      + by exists tr1.
      + destruct (IH (tr ++ tr1)) as (tr2 & E2 & F2).
        destruct (Coll.forEach_value body l (tr ++ tr1)) as [[l' tr''] r].
        simpl in *. subst tr''. exists (tr1 ++ tr2). rewrite <- app_assoc.
        split; [done|]. by rewrite AttachFacts.finalized_app, F1, F2. }
  destruct (Hl (Coll.own c) tr) as (tr' & E & F).
  destruct (Coll.forEach_value body (Coll.own c) tr) as [[l tr''] r].
  by exists tr'.
Qed.

Lemma quiet_call_loadTenants {St} i p : quiet (Landlord.call_loadTenants (St := St) i p).
Proof.
  unfold Landlord.call_loadTenants. destruct (Landlord.method p) as [ld|].
  - apply quiet_bind; [by apply quiet_emit|]. intros _.
    apply quiet_bind; [apply quiet_forEach; intros; apply quiet_log|]. intros _.
    apply quiet_bind; [apply quiet_lift|]. intros found. apply quiet_ret.
  - apply quiet_throw.
Qed.

Lemma quiet_add_tenant x : quiet (Landlord.add_tenant x).
Proof.
  unfold Landlord.add_tenant. apply quiet_bind; [apply quiet_get|]. intros c.
  destruct (Coll.has c (Tenant._name x)).
  - apply quiet_bind; [apply quiet_lift|]. intros d.
    apply quiet_bind; [apply quiet_lift|]. intros c'.
    apply quiet_bind; [apply quiet_put|]. intros _. apply quiet_log.
  - apply quiet_bind; [apply quiet_lift|]. intros c'.
    apply quiet_bind; [apply quiet_put|]. intros _. apply quiet_log.
Qed.

Lemma quiet_collect ps : quiet (Landlord.collect ps).
Proof.
  unfold Landlord.collect. apply quiet_forEach_from. intros i p.
  apply quiet_bind; [apply quiet_call_loadTenants|]. intros found.
  apply quiet_forEach. apply quiet_add_tenant.
Qed.

Lemma quiet_finish : quiet Landlord.finish.
Proof.
  unfold Landlord.finish. apply quiet_bind; [apply quiet_get|]. intros c.
  destruct (length (Coll.keys c) =? 0)%nat; [apply quiet_throw|].
  apply quiet_bind; [apply quiet_lift|]. intros d.
  destruct (negb (Landlord.arg_truthy d)); [apply quiet_ret|].
  apply quiet_bind; [apply quiet_log|]. intros _.
  apply quiet_bind; [apply quiet_forEach_values, quiet_modify|]. intros _.
  apply quiet_bind; [apply quiet_log|]. intros _. apply quiet_get.
Qed.

Lemma quiet_loadTenants_body o : quiet (Landlord.loadTenants_body o).
Proof.
  unfold Landlord.loadTenants_body.
  assert (quiet (bind (forEach Landlord.validate (Landlord.normalize (Landlord.providers o)))
                   (fun _ => bind (Landlord.collect (Landlord.normalize (Landlord.providers o)))
                               (fun _ => Landlord.finish)))) as H.
  { apply quiet_bind.
    - apply quiet_forEach. intros p. unfold Landlord.validate.
      destruct p as [u|ty [ld|]]; [apply quiet_throw|apply quiet_ret|apply quiet_throw].
    - intros _. apply quiet_bind; [apply quiet_collect|]. intros _. apply quiet_finish. }
  destruct (negb (Landlord.present (Landlord.providers o))); [apply quiet_throw|exact H].
Qed.

(** [loadTenants] calls no finalizer. *)
Lemma finalized_loadTenants o : finalized (Landlord.loadTenants o).1 = [].
Proof.
  unfold Landlord.loadTenants.
  destruct (quiet_loadTenants_body o Coll.empty []) as (tr' & E & F).
  destruct (Landlord.loadTenants_body o Coll.empty []) as [[c tr] r].
  simpl in *. by subst tr.
Qed.

Lemma quiet_attachDatabase f fin cfg : quiet (Tenant.attachDatabase f fin cfg).
Proof.
  unfold Tenant.attachDatabase. apply quiet_bind; [apply quiet_get|]. intros x.
  destruct (handle_truthy (Tenant._db x)); [apply quiet_throw|].
  apply quiet_bind.
  - unfold Tenant.call_factory. apply quiet_bind; [by apply quiet_emit|].
    intros _. apply quiet_lift.
  - intros h. apply quiet_bind; [apply quiet_modify|]. intros _. apply quiet_modify.
Qed.

Lemma quiet_attachDatabases get_path db : quiet (attachDatabases get_path db).
Proof.
  unfold attachDatabases.
  destruct db as [[[f|] [fin|] [p|]]|]; try apply quiet_log.
  destruct (String.eqb p ""); [apply quiet_log|].
  apply quiet_forEach_values. unfold attach_one.
  apply quiet_bind; [apply quiet_get|]. intros x.
  apply quiet_bind; [apply quiet_log|]. intros _.
  destruct (Landlord.arg_truthy _); [|apply quiet_log].
  apply quiet_bind; [apply quiet_attachDatabase|]. intros _. apply quiet_log.
Qed.

End QuietFacts.

(* ===================================================================== *)
(** * What [loadTenants] returns *)
(* ===================================================================== *)

Module LoadedFacts.
Import Json Effects Attach.

(** Every own record is as a new tenant: no handle, no finalizer. *)
Lemma detached_applyDefaults d x :
  detached (Tenant.applyDefaults d x) = detached x.
Proof. done. Qed.

Lemma detached_replace k x (l : Coll.props) :
  detached x = true → forallb detached l.*2 = true →
  forallb detached (Coll.replace k x l).*2 = true.
Proof.
  intros Hx. induction l as [|[k' x'] l IH]; [done|]. simpl.
  intros [Hx' Hl]%andb_true_iff.
  destruct (String.eqb k k'); simpl; rewrite ?Hx, ?Hx'; [done|]. by apply IH.
Qed.

Lemma detached_place k x (l : Coll.props) :
  detached x = true → forallb detached l.*2 = true →
  forallb detached (Coll.place k x l).*2 = true.
Proof.
  intros Hx. induction l as [|[k' x'] l IH]; simpl; [by rewrite Hx|].
  intros [Hx' Hl]%andb_true_iff.
  destruct (Coll.precedes k k'); simpl; rewrite ?Hx, ?Hx', ?Hl; [done|]. by apply IH.
Qed.

Lemma detached_set c k x c' :
  detached x = true → forallb detached (Coll.own c).*2 = true →
  Coll.set c k x = inr c' → forallb detached (Coll.own c').*2 = true.
Proof.
  intros Hx Hc. unfold Coll.set.
  destruct (Coll.lookup k (Coll.own c)).
  - intros [= <-]. by apply detached_replace.
  - destruct (String.eqb k "__proto__"); [by intros [= <-]|].
    destruct (match Coll.proto c with Some _ => _ | None => _ end); [done|].
    intros [= <-]. by apply detached_place.
Qed.

Lemma detached_add_tenant x c tr :
  detached x = true → forallb detached (Coll.own c).*2 = true →
  forallb detached (Coll.own (Landlord.add_tenant x c tr).1.1).*2 = true.
Proof.
  intros Hx Hc. unfold Landlord.add_tenant, bind, get. simpl.
  destruct (Coll.has c (Tenant._name x)).
  - unfold lift at 1. destruct (Coll.read_config _) as [e|d]; simpl; [done|].
    destruct (Coll.set c _ _) as [e|c'] eqn:Hset; simpl; [done|].
    by apply (detached_set _ _ _ _ (eq_trans (detached_applyDefaults d x) Hx) Hc Hset).
  - destruct (Coll.set c _ _) as [e|c'] eqn:Hset; simpl; [done|].
    by apply (detached_set _ _ _ _ Hx Hc Hset).
Qed.

Lemma detached_forEach_add_tenant (l : list Tenant.t) c tr :
  forallb detached l = true → forallb detached (Coll.own c).*2 = true →
  forallb detached (Coll.own (forEach Landlord.add_tenant l c tr).1.1).*2 = true.
Proof.
  revert c tr. induction l as [|x l IH]; intros c tr; [done|]. simpl.
  intros [Hx Hl]%andb_true_iff Hc. unfold bind.
  pose proof (detached_add_tenant x c tr Hx Hc) as H.
  destruct (Landlord.add_tenant x c tr) as [[c' tr'] [e|u]]; [done|].
  by apply IH.
Qed.

Lemma call_loadTenants_eq i p (c : Coll.t) tr :
  Landlord.call_loadTenants i p c tr =
    match Landlord.method p with
    | None => (c, tr, inl (TypeError "provider.loadTenants is not a function"))
    | Some ld =>
        (c, (tr ++ [ELoadTenants i]) ++ map ELog (Landlord.lines ld),
         match Landlord.outcome ld with
         | inl e => inl e
         | inr found => inr (map (fun nc => Tenant.make nc.1 nc.2) found)
         end)
    end.
Proof.
  unfold Landlord.call_loadTenants. destruct (Landlord.method p) as [ld|]; [|done].
  unfold bind at 1. unfold emit at 1. unfold bind at 1.
  rewrite LandlordFacts.forEach_log. unfold bind, lift.
  by destruct (Landlord.outcome ld) as [e|found].
Qed.

Lemma call_loadTenants_state i p (c : Coll.t) tr :
  (Landlord.call_loadTenants i p c tr).1.1 = c
  ∧ match (Landlord.call_loadTenants i p c tr).2 with
    | inr l => forallb detached l = true
    | inl _ => True
    end.
Proof.
  rewrite call_loadTenants_eq. destruct (Landlord.method p) as [ld|]; [|done].
  simpl. split; [done|]. destruct (Landlord.outcome ld) as [e|found]; [done|].
  by induction found.
Qed.

Lemma detached_collect_from i ps c tr :
  forallb detached (Coll.own c).*2 = true →
  forallb detached (Coll.own (forEach_from i
    (fun i p => bind (Landlord.call_loadTenants i p)
                  (fun found => forEach Landlord.add_tenant found)) ps c tr).1.1).*2 = true.
Proof.
  revert i c tr. induction ps as [|p ps IH]; intros i c tr Hc; [done|].
  simpl. unfold bind at 1. unfold bind at 1.
  destruct (call_loadTenants_state i p c tr) as [Hs Hl].
  destruct (Landlord.call_loadTenants i p c tr) as [[c' tr'] [e|l]];
    simpl in Hs; subst c'; [done|].
  pose proof (detached_forEach_add_tenant l c tr' Hl Hc) as H.
  destruct (forEach Landlord.add_tenant l c tr') as [[c' tr''] [e|u]]; [done|].
  by apply IH.
Qed.

Lemma forEach_validate_state ps (c : Coll.t) tr :
  (forEach Landlord.validate ps c tr).1.1 = c.
Proof.
  revert tr. induction ps as [|p ps IH]; intros tr; [done|]. simpl.
  unfold bind, Landlord.validate. destruct p as [u|ty [ld|]]; [done| |done]. apply IH.
Qed.

Lemma detached_map_applyDefaults d (l : Coll.props) :
  forallb detached (map (fun kx => (kx.1, Tenant.applyDefaults d kx.2)) l).*2
  = forallb detached l.*2.
Proof.
  induction l as [|[k x] l IH]; [done|].
  cbn [map fmap list_fmap snd forallb]. by rewrite <- IH.
Qed.

Lemma finish_returns c tr c1 tr1 c2 :
  Landlord.finish c tr = (c1, tr1, inr c2) →
  c1 = c2 ∧ Coll.keys c2 = Coll.keys c ∧ Coll.keys c ≠ []
  ∧ (forallb detached (Coll.own c).*2 = true →
     forallb detached (Coll.own c2).*2 = true).
Proof.
  unfold Landlord.finish, bind, get. simpl.
  destruct (Coll.keys c) as [|k ks] eqn:Hk; [done|]. simpl.
  unfold lift. destruct (Landlord.default_config c) as [e|d]; [done|]. simpl.
  destruct (Landlord.arg_truthy d); simpl.
  - unfold log, emit. rewrite CollFacts.forEach_values_modify. simpl.
    intros [= <- _ <-]. split; [done|]. split.
    + unfold Coll.keys in *. simpl. by rewrite CollFacts.keys_map_values.
    + split; [done|]. cbn [Coll.own]. by rewrite detached_map_applyDefaults.
  - intros [= <- _ <-]. by rewrite Hk.
Qed.

Lemma loadTenants_returns o tr c :
  Landlord.loadTenants o = (tr, inr c) →
  Coll.keys c ≠ [] ∧ forallb detached (Coll.own c).*2 = true.
Proof.
  destruct o as [a]. destruct a as [|[u|ty m]|ps]; [done|done| |];
    rewrite LandlordFacts.loadTenants_eq by done.
  all: match goal with |- context [forEach Landlord.validate ?l _ _] =>
         pose proof (forEach_validate_state l Coll.empty []) as Hv;
         destruct (forEach Landlord.validate l Coll.empty []) as [[c0 tr0] [e|u]];
           [done|]; simpl in Hv; subst c0;
         pose proof (detached_collect_from 0 l Coll.empty tr0 eq_refl) as Hc;
         unfold Landlord.collect;
         destruct (forEach_from 0 _ l Coll.empty tr0) as [[c1 tr1] [e|u']]; [done|];
         simpl in Hc;
         destruct (Landlord.finish c1 tr1) as [[c2 tr2] [e|c3]] eqn:Hf; [done|];
         intros [= <- <-];
         destruct (finish_returns _ _ _ _ _ Hf) as (_ & Hk & Hne & Hd);
         split; [by rewrite Hk|by apply Hd]
       end.
Qed.

Lemma forEach_from_app {St A} (body : nat → A → M St unit) i l1 l2 s tr :
  forEach_from i body (l1 ++ l2) s tr
  = match forEach_from i body l1 s tr with
    | (s', tr', inl e) => (s', tr', inl e)
    | (s', tr', inr _) => forEach_from (i + length l1) body l2 s' tr'
    end.
Proof.
  revert i s tr. induction l1 as [|a l1 IH]; intros i s tr; simpl.
  - by rewrite Nat.add_0_r.
  - unfold bind. destruct (body i a s tr) as [[s' tr'] [e|u]]; [done|].
    by rewrite IH, Nat.add_succ_r.
Qed.

(** X24.  A provider whose [loadTenants] throws.  Every provider has a
    [loadTenants] function; the providers before the failing one return,
    with no tenant named [__proto__].  Then [Landlord.loadTenants] throws
    the exception of that provider, right after the lines the provider has
    logged: no later provider is called, no default is applied, and the
    tenants collected from the earlier providers are lost with the
    object. *)
Theorem loadTenants_provider_exception a ps1 p ps2 ld e :
  Landlord.normalize a = ps1 ++ p :: ps2 →
  forallb Landlord.loads ps1 = true →
  Landlord.ordinary_names (Landlord.records ps1) = true →
  forallb Landlord.has_loadTenants ps2 = true →
  Landlord.method p = Some ld →
  Landlord.outcome ld = inl e →
  ∃ tr0,
    Landlord.loadTenants {| Landlord.providers := a |}
    = ((tr0 ++ [ELoadTenants (length ps1)]) ++ map ELog (Landlord.lines ld), inl e).
Proof.
  intros Hnorm Hps1 Hnames Hps2 Hp Hld.
  assert (Landlord.present a = true) as Ha.
  { destruct a as [|[u|ty m]|qs]; [by destruct ps1| |done..].
    cbn [Landlord.normalize] in Hnorm.
    destruct ps1 as [|q [|q' ps1]]; [|done..].
    injection Hnorm as <- _. done. }
  rewrite LandlordFacts.loadTenants_eq by done. rewrite Hnorm.
  rewrite LandlordFacts.forEach_validate_ok.
  - unfold Landlord.collect. rewrite forEach_from_app.
    destruct (LandlordFacts.collect_from 0 ps1 Coll.empty ∅ []
                LandlordFacts.holds_empty Hps1
                (LandlordFacts.ordinary_names_spec _ Hnames))
      as (c & tr & -> & _).
    cbn [forEach_from]. unfold bind at 1. unfold bind at 1.
    rewrite call_loadTenants_eq, Hp, Hld. by exists tr.
  - rewrite forallb_app. cbn [forallb].
    rewrite (LandlordFacts.loads_has _ Hps1), Hps2.
    unfold Landlord.has_loadTenants. by rewrite Hp.
Qed.

Lemma loadTenants_provider_exception_witness :
  ∃ tr0,
    Landlord.loadTenants
      {| Landlord.providers := Landlord.Array
           [Samples.source [("t", ∅)];
            Providers.InMemoryData.provider
              {| Providers.InMemoryData._data :=
                   [Providers.InMemoryData.Data (Some "u") None] |};
            Samples.source [("v", ∅)]] |}
    = ((tr0 ++ [ELoadTenants 1]) ++ [],
       inl Providers.InMemoryData.missing_name_or_config).
Proof.
  exact (loadTenants_provider_exception
    (Landlord.Array
       [Samples.source [("t", ∅)];
        Providers.InMemoryData.provider
          {| Providers.InMemoryData._data :=
               [Providers.InMemoryData.Data (Some "u") None] |};
        Samples.source [("v", ∅)]])
    [Samples.source [("t", ∅)]] _ [Samples.source [("v", ∅)]]
    {| Landlord.lines := [];
       Landlord.outcome := inl Providers.InMemoryData.missing_name_or_config |}
    Providers.InMemoryData.missing_name_or_config
    eq_refl eq_refl eq_refl eq_refl eq_refl eq_refl).
Defined.

End LoadedFacts.

(* ===================================================================== *)
(** * Properties of [ExpressLandlord] *)
(* ===================================================================== *)

Module ExpressLandlordFacts.
Import Json Effects Attach ExpressLandlord.

Lemma use_eq get_path this tr :
  use get_path this tr =
    match Landlord.loadTenants {| Landlord.providers := providers (_options this) |} with
    | (trL, inl e) => (this, tr ++ trL, inl e)
    | (trL, inr c) =>
        match attachDatabases get_path (db (_options this)) c (tr ++ trL) with
        | (c', tr', r) => (set_tenants c' this, tr', r)
        end
    end.
Proof.
  unfold use, bind, get, call, modify, on_tenants. simpl.
  destruct (Landlord.loadTenants _) as [trL [e|c]]; [done|]. simpl.
  by destruct (attachDatabases _ _ _ _) as [[c' tr'] r].
Qed.

Lemma cleanup_eq this tr :
  cleanup this tr =
    if (length (Coll.keys (_tenants this)) =? 0)%nat then (this, tr, inr tt)
    else
      match Landlord.detachDatabases (_tenants this) tr with
      | (c, tr', r) => (set_tenants c this, tr', r)
      end.
Proof.
  unfold cleanup, bind, get, on_tenants. simpl.
  by destruct (length (Coll.keys (_tenants this)) =? 0)%nat.
Qed.

Lemma contents_keys c c' : contents c' = contents c → Coll.keys c' = Coll.keys c.
Proof.
  unfold contents, Coll.keys. intros H.
  apply (f_equal (map fst)) in H. by rewrite !map_map in H.
Qed.

(** Records that agree in name and config, cleared on one side and new on
    the other, are the same records. *)
Lemma clear_all_contents (l' l : Coll.props) :
  map (fun kx => (kx.1, (Tenant._name kx.2, Tenant._config kx.2))) l'
  = map (fun kx => (kx.1, (Tenant._name kx.2, Tenant._config kx.2))) l →
  forallb detached l.*2 = true →
  Landlord.clear_all l' = l.
Proof.
  revert l. induction l' as [|[k' x'] l' IH]; intros [|[k x] l]; try done.
  cbn [map fmap list_fmap snd fst forallb Landlord.clear_all].
  intros [= -> Hn Hc Hl] [Hx Hd]%andb_true_iff.
  f_equal; [|by apply IH]. f_equal.
  destruct x as [n c d f], x' as [n' c' d' f']. unfold detached in Hx.
  simpl in *. subst. by destruct d, f.
Qed.

(** X13.  Whenever [loadTenants] returns, the object it returns has at
    least one own key, and every own record is as the constructor leaves a
    tenant: [_db] and [_dbFinalizer] are [null].  The providers return new
    tenants, as the two providers of the library do; merging and applying
    the defaults change the config only. *)
Theorem loadTenants_returns_new_records o tr c :
  Landlord.loadTenants o = (tr, inr c) →
  0 < length (Coll.keys c)
  ∧ forallb detached (Coll.own c).*2 = true.
Proof.
  intros H. destruct (LoadedFacts.loadTenants_returns o tr c H) as [Hk Hd].
  split; [|done]. destruct (Coll.keys c); [done|simpl; lia].
Qed.

Lemma loadTenants_returns_new_records_witness :
  0 < length (Coll.keys {| Coll.own := [("t", Tenant.make "t" ∅)]; Coll.proto := None |})
  ∧ forallb detached
      (Coll.own {| Coll.own := [("t", Tenant.make "t" ∅)]; Coll.proto := None |}).*2 = true.
Proof.
  exact (loadTenants_returns_new_records
           {| Landlord.providers := Landlord.Single (Samples.source [("t", ∅)]) |}
           [ELoadTenants 0; ELog "landlord: Loaded t."]
           {| Coll.own := [("t", Tenant.make "t" ∅)]; Coll.proto := None |}
           eq_refl).
Defined.

(** X14.  [cleanup()] on an instance that holds no tenants does nothing:
    no call is made and the instance is left as it was.  That is the case
    of a new instance, and of an instance whose [use()] failed while
    loading: [use()] then throws the exception of [loadTenants], attaches
    nothing and leaves [_tenants] as it was. *)
Theorem cleanup_without_tenants get_path o tr :
  cleanup (new o) tr = (new o, tr, inr tt)
  ∧ ∀ this trL e,
      Landlord.loadTenants {| Landlord.providers := providers (_options this) |}
      = (trL, inl e) →
      use get_path this tr = (this, tr ++ trL, inl e).
Proof.
  split; [done|]. intros this trL e H. by rewrite use_eq, H.
Qed.

Lemma cleanup_without_tenants_witness :
  let o := {| providers := Landlord.Array []; req := None; db := None |} in
  use get_key (new o) [] = (new o, [], inl Landlord.no_configs)
  ∧ cleanup (new o) [] = (new o, [], inr tt).
Proof.
  split.
  - exact (proj2 (cleanup_without_tenants get_key
                    {| providers := Landlord.Array []; req := None; db := None |} [])
             (new {| providers := Landlord.Array []; req := None; db := None |})
             [] Landlord.no_configs eq_refl).
  - exact (proj1 (cleanup_without_tenants get_key
                    {| providers := Landlord.Array []; req := None; db := None |} [])).
Defined.



Lemma detached_finalizer_returns (l : list Tenant.t) :
  forallb detached l = true →
  forallb Tenant.finalizer_returns l = true ∧ omap finalizable l = [].
Proof.
  induction l as [|x l IH]; [done|]. cbn [forallb].
  intros [Hx Hl]%andb_true_iff. destruct (IH Hl) as [IH1 IH2].
  assert (Tenant.finalizer_call x = None) as Hcall.
  { unfold detached in Hx. unfold Tenant.finalizer_call.
    by destruct (Tenant._db x). }
  split.
  - unfold Tenant.finalizer_returns at 1. by rewrite Hcall, IH1.
  - cbn [omap list_omap]. unfold finalizable at 1. by rewrite Hcall.
Qed.

(** X10.  An instance without database options: [options.db] is missing,
    or its [factory], [finalizer] or [configPath] is missing or falsy.
    Then [attachDatabases] logs that database connectivity was skipped and
    leaves any collection as it is.  So when its load returns, [use()]
    returns, adds that one line after the calls of the load and holds the
    collection as loaded; and [cleanup()] after it returns, calls no
    finalizer and leaves the collection as loaded. *)
Theorem use_without_database get_path this tr trL c0 :
  incomplete (db (_options this)) = true →
  Landlord.loadTenants {| Landlord.providers := providers (_options this) |}
  = (trL, inr c0) →
  (∀ c tr', attachDatabases get_path (db (_options this)) c tr'
            = (c, tr' ++ [ELog skipped], inr tt))
  ∧ use get_path this tr = (set_tenants c0 this, (tr ++ trL) ++ [ELog skipped], inr tt)
  ∧ ∃ tr2,
      cleanup (set_tenants c0 this) ((tr ++ trL) ++ [ELog skipped])
      = (set_tenants c0 this, tr2, inr tt)
      ∧ finalized tr2 = finalized tr.
Proof.
  intros Hdb Hload. split; [|split].
  - intros c tr'. by apply AttachFacts.attachDatabases_skipped.
  - by rewrite use_eq, Hload, AttachFacts.attachDatabases_skipped.
  - destruct (LoadedFacts.loadTenants_returns _ _ _ Hload) as [Hk Hd].
    destruct (detached_finalizer_returns _ Hd) as [Hfin Hnone].
    rewrite cleanup_eq. cbn [_tenants set_tenants].
    destruct (Coll.keys c0) as [|k ks] eqn:Hks; [done|]. cbn [length Nat.eqb].
    rewrite (AttachFacts.detachDatabases_all _ _ Hfin).
    assert ({| Coll.own := Landlord.clear_all (Coll.own c0); Coll.proto := Coll.proto c0 |}
            = c0) as ->.
    { destruct c0 as [own0 pr0]. simpl in *. f_equal.
      by apply clear_all_contents. }
    eexists. split; [reflexivity|].
    rewrite !AttachFacts.finalized_app, AttachFacts.finalized_detach_traces, Hnone.
    pose proof (QuietFacts.finalized_loadTenants
                  {| Landlord.providers := providers (_options this) |}) as HL.
    rewrite Hload in HL. simpl in HL. rewrite HL. simpl. by rewrite !app_nil_r.
Qed.

Lemma use_without_database_witness :
  let o := {| providers := Landlord.Single
                (Samples.source [("t", {["db" := Samples.num 5]})]);
              req := None;
              db := Some {| factory := Some Samples.client_factory; finalizer := None;
                            configPath := Some "db" |} |} in
  let c0 := {| Coll.own := [("t", Tenant.make "t" {["db" := Samples.num 5]})];
               Coll.proto := None |} in
  use get_key (new o) []
  = (set_tenants c0 (new o),
     [ELoadTenants 0; ELog "landlord: Loaded t.";
      ELog "landlord: Database connectivity was skipped."], inr tt)
  ∧ ∃ tr2,
      cleanup (set_tenants c0 (new o))
        [ELoadTenants 0; ELog "landlord: Loaded t.";
         ELog "landlord: Database connectivity was skipped."]
      = (set_tenants c0 (new o), tr2, inr tt)
      ∧ finalized tr2 = [].
Proof.
  exact (proj2 (use_without_database get_key
           (new {| providers := Landlord.Single
                     (Samples.source [("t", {["db" := Samples.num 5]})]);
                   req := None;
                   db := Some {| factory := Some Samples.client_factory;
                                 finalizer := None; configPath := Some "db" |} |})
           [] [ELoadTenants 0; ELog "landlord: Loaded t."]
           {| Coll.own := [("t", Tenant.make "t" {["db" := Samples.num 5]})];
              Coll.proto := None |} eq_refl eq_refl)).
Defined.

(** X16.  [use()] calls no finalizer: its providers log and return
    tenants, and the attach calls factories only.  And when its load
    returns, what it does and leaves does not depend on the collection the
    instance held before: a second [use()] loads and attaches anew and
    replaces [_tenants]; the handles of the earlier collection are not
    finalized by it, nor are they reachable from the instance
    afterwards. *)
Theorem use_drops_previous_tenants get_path this c tr :
  (∃ tr', (use get_path this tr).1.2 = tr ++ tr' ∧ finalized tr' = [])
  ∧ ∀ trL c0,
      Landlord.loadTenants {| Landlord.providers := providers (_options this) |}
      = (trL, inr c0) →
      use get_path (set_tenants c this) tr = use get_path this tr.
Proof.
  split.
  - rewrite use_eq.
    pose proof (QuietFacts.finalized_loadTenants
                  {| Landlord.providers := providers (_options this) |}) as HL.
    destruct (Landlord.loadTenants _) as [trL [e|c0]]; simpl in HL.
    + by exists trL.
    + destruct (QuietFacts.quiet_attachDatabases get_path (db (_options this)) c0
                  (tr ++ trL)) as (tra & Htr & Hq).
      destruct (attachDatabases _ _ _ _) as [[c1 tr1] r]. simpl in *. subst tr1.
      exists (trL ++ tra). rewrite <- app_assoc. split; [done|].
      by rewrite AttachFacts.finalized_app, HL, Hq.
  - intros trL c0 Hload. rewrite !use_eq. cbn [set_tenants _options]. rewrite Hload.
    by destruct (attachDatabases _ _ _ _) as [[c1 tr1] r].
Qed.

Lemma use_drops_previous_tenants_witness :
  let o := {| providers := Landlord.Single
                (Samples.source [("t", {["db" := Samples.num 5]})]);
              req := None;
              db := complete Samples.client_factory Samples.failing_finalizer "db" |} in
  let s1 := (use get_key (new o) []).1.1 in
  Tenant._db <$> Coll.lookup "t" (Coll.own (_tenants s1)) = Some (HObject 7)
  ∧ use get_key s1 [] = use get_key (new o) []
  ∧ finalized (use get_key s1 []).1.2 = [].
Proof.
  split; [reflexivity|]. split.
  - exact (proj2 (use_drops_previous_tenants get_key
             (new {| providers := Landlord.Single
                       (Samples.source [("t", {["db" := Samples.num 5]})]);
                     req := None;
                     db := complete Samples.client_factory Samples.failing_finalizer
                             "db" |})
             (_tenants (use get_key
                (new {| providers := Landlord.Single
                          (Samples.source [("t", {["db" := Samples.num 5]})]);
                        req := None;
                        db := complete Samples.client_factory Samples.failing_finalizer
                                "db" |}) []).1.1) [])
             [ELoadTenants 0; ELog "landlord: Loaded t."]
             {| Coll.own := [("t", Tenant.make "t" {["db" := Samples.num 5]})];
                Coll.proto := None |} eq_refl).
  - reflexivity.
Defined.

(** ** The middleware and the collection *)

Lemma lookup_None_contents c c' k :
  contents c' = contents c →
  Coll.lookup k (Coll.own c') = None ↔ Coll.lookup k (Coll.own c) = None.
Proof.
  intros H%contents_keys. unfold Coll.keys in H.
  by rewrite !CollFacts.lookup_None_keys, H.
Qed.

Lemma get_truthy_contents c c' k :
  contents c' = contents c → Coll.proto c' = Coll.proto c →
  Coll.pv_truthy (Coll.get c' k) = Coll.pv_truthy (Coll.get c k).
Proof.
  intros Hc Hp. unfold Coll.get. rewrite Hp.
  pose proof (lookup_None_contents c c' k Hc) as Hk.
  destruct (Coll.lookup k (Coll.own c')) as [x'|], (Coll.lookup k (Coll.own c)) as [x|];
    try done;
    try (by destruct Hk as [H1 H2];
         first [specialize (H1 eq_refl)|specialize (H2 eq_refl)]).
  destruct (Coll.proto c) as [pr|]; [|done].
  destruct (Coll.tenant_field pr k); [done|].
  destruct (Coll.mem k Coll.tenant_getter_names); [|done].
  pose proof (lookup_None_contents c c' ("_" +:+ k) Hc) as Hk'.
  destruct (Coll.lookup ("_" +:+ k) (Coll.own c')) as [y'|],
           (Coll.lookup ("_" +:+ k) (Coll.own c)) as [y|];
    try done;
    by destruct Hk' as [H1 H2];
       first [specialize (H1 eq_refl)|specialize (H2 eq_refl)].
Qed.

(** X17.  [cleanup()] does not change which requests the middleware lets
    through.  Whatever the finalizers do, a request that was bound to a
    tenant before [cleanup()] is bound and passed on after it, and a
    request that got the 403 error still gets it: the collection the
    middleware reads keeps its keys, and only the handles are gone. *)
Theorem cleanup_keeps_admission this tr request :
  (middleware (cleanup this tr).1.1 request).2 = (middleware this request).2
  ∧ contents (_tenants (cleanup this tr).1.1) = contents (_tenants this).
Proof.
  rewrite cleanup_eq.
  destruct (length (Coll.keys (_tenants this)) =? 0)%nat; [done|].
  destruct (AttachFacts.detachDatabases_contents (_tenants this) tr) as [Hc Hp].
  destruct (Landlord.detachDatabases (_tenants this) tr) as [[c tr'] r].
  simpl in *. split; [|done].
  unfold middleware, Express.bindTenantToRequest. cbn [set_tenants _options _tenants].
  rewrite (get_truthy_contents _ _ _ Hc Hp).
  by destruct (Coll.pv_truthy _).
Qed.

Lemma clear_all_values (l : Coll.props) :
  (Landlord.clear_all l).*2 = map Tenant.clear l.*2.
Proof.
  unfold Landlord.clear_all. induction l as [|[k x] l IH]; [done|].
  cbn [map fmap list_fmap snd]. f_equal. exact IH.
Qed.

Lemma clear_all_keys (l : Coll.props) : (Landlord.clear_all l).*1 = l.*1.
Proof. apply CollFacts.keys_map_values. Qed.

Lemma clear_all_idem (l : Coll.props) :
  Landlord.clear_all (Landlord.clear_all l) = Landlord.clear_all l.
Proof.
  unfold Landlord.clear_all. rewrite map_map. apply map_ext. by intros [k x].
Qed.

Lemma cleared_records (l : list Tenant.t) :
  forallb Tenant.finalizer_returns (map Tenant.clear l) = true
  ∧ omap finalizable (map Tenant.clear l) = [].
Proof.
  induction l as [|x l [IH1 IH2]]; [done|]. split.
  - cbn [map forallb]. by rewrite IH1.
  - cbn [map]. change (omap finalizable (Tenant.clear x :: map Tenant.clear l))
      with (omap finalizable (map Tenant.clear l)). exact IH2.
Qed.

Lemma detached_cleared (l : list Tenant.t) :
  forallb detached (map Tenant.clear l) = true.
Proof. induction l as [|x l IH]; [done|]. cbn [map forallb]. by rewrite IH. Qed.

(** X23.  [cleanup()] twice.  When every finalizer the first [cleanup()]
    calls returns, it returns and leaves every record without handle and
    finalizer; a second [cleanup()] then returns as well, calls no
    finalizer and leaves the instance as the first one left it. *)
Theorem cleanup_twice this tr :
  forallb Tenant.finalizer_returns (Coll.own (_tenants this)).*2 = true →
  ∃ s1 tr1 tr2,
    cleanup this tr = (s1, tr1, inr tt)
    ∧ forallb detached (Coll.own (_tenants s1)).*2 = true
    ∧ (Coll.own (_tenants s1)).*2 = map Tenant.clear (Coll.own (_tenants this)).*2
    ∧ cleanup s1 tr1 = (s1, tr2, inr tt)
    ∧ finalized tr2 = finalized tr1.
Proof.
  intros Hfin. rewrite cleanup_eq.
  destruct (length (Coll.keys (_tenants this)) =? 0)%nat eqn:Hk.
  - exists this, tr, tr. rewrite cleanup_eq, Hk. unfold Coll.keys in Hk.
    by destruct (Coll.own (_tenants this)) as [|[k x] l].
  - rewrite (AttachFacts.detachDatabases_all _ _ Hfin).
    eexists _, _, _. split; [reflexivity|]. cbn [_tenants set_tenants Coll.own].
    rewrite clear_all_values. split; [apply detached_cleared|].
    split; [done|].
    rewrite cleanup_eq. cbn [_tenants set_tenants].
    unfold Coll.keys in *. cbn [Coll.own]. rewrite clear_all_keys, Hk.
    rewrite AttachFacts.detachDatabases_all; cbn [Coll.own Coll.proto].
    + rewrite clear_all_idem. split; [reflexivity|].
      rewrite !AttachFacts.finalized_app, !AttachFacts.finalized_detach_traces.
      rewrite clear_all_values, (proj2 (cleared_records _)). simpl.
      by rewrite !app_nil_r.
    + rewrite clear_all_values. apply cleared_records.
Qed.

Lemma cleanup_twice_witness :
  let this := {| _options := {| providers := Landlord.Absent; req := None; db := None |};
                 _tenants := {| Coll.own := [("a", Samples.attached "a" 1
                                                     Samples.quiet_finalizer)];
                                Coll.proto := None |} |} in
  ∃ s1 tr1 tr2,
    cleanup this [] = (s1, tr1, inr tt)
    ∧ forallb detached (Coll.own (_tenants s1)).*2 = true
    ∧ (Coll.own (_tenants s1)).*2 = map Tenant.clear (Coll.own (_tenants this)).*2
    ∧ cleanup s1 tr1 = (s1, tr2, inr tt)
    ∧ finalized tr2 = finalized tr1.
Proof.
  exact (cleanup_twice
           {| _options := {| providers := Landlord.Absent; req := None; db := None |};
              _tenants := {| Coll.own := [("a", Samples.attached "a" 1
                                                  Samples.quiet_finalizer)];
                             Coll.proto := None |} |} [] eq_refl).
Defined.




End ExpressLandlordFacts.

(* ===================================================================== *)
(** * Properties of the route reporter *)
(* ===================================================================== *)

Module RouteReporterFacts.
Import Json Effects JsString JsStringFacts RouteReporter.

Lemma has_char_cons c d s : has_char c (String d s) = Ascii.eqb c d || has_char c s.
Proof. done. Qed.

Lemma has_char_app c a b : has_char c (a +:+ b) = has_char c a || has_char c b.
Proof.
  induction a as [|d a IH]; [done|]. rewrite append_cons, !has_char_cons.
  by rewrite IH, orb_assoc.
Qed.

Lemma escape_slashes_cons c s :
  escape_slashes (String c s) =
    if Ascii.eqb c "/" then String "\" (String "/" (escape_slashes s))
    else String c (escape_slashes s).
Proof. done. Qed.

Lemma has_char_escape_slashes c p :
  Ascii.eqb c "\" = false →
  has_char c (escape_slashes p) = has_char c p.
Proof.
  intros Hc. induction p as [|d p IH]; [done|].
  rewrite escape_slashes_cons. destruct (Ascii.eqb d "/") eqn:Hd.
  - apply Ascii.eqb_eq in Hd as ->. rewrite !has_char_cons, IH, Hc.
    by destruct (Ascii.eqb c "/").
  - by rewrite !has_char_cons, IH.
Qed.

Lemma unescape_slashes_cons c s :
  Ascii.eqb c "\" = false →
  unescape_slashes (String c s) = String c (unescape_slashes s).
Proof. intros H. simpl. by rewrite H. Qed.

(** Unescaping undoes the escaping of a text without backslash. *)
Lemma unescape_escape p t :
  has_char "\" p = false →
  unescape_slashes (escape_slashes p +:+ t) = p +:+ unescape_slashes t.
Proof.
  induction p as [|d p IH]; [done|]. rewrite has_char_cons.
  intros [Hd Hp]%orb_false_elim. rewrite escape_slashes_cons.
  destruct (Ascii.eqb d "/") eqn:Hs.
  - apply Ascii.eqb_eq in Hs as ->. rewrite !append_cons. simpl. by rewrite IH.
  - rewrite !append_cons, unescape_slashes_cons, IH; [done..|].
    by rewrite Ascii.eqb_sym.
Qed.

(** The end of a mount regexp does not start inside a text without
    question mark. *)
Lemma mount_end_not_here d u :
  has_char "?" (String d u) = false →
  String.prefix "\/?(?=\/|$)/i" (String d (u +:+ "\/?(?=\/|$)/i")) = false.
Proof.
  rewrite has_char_cons. intros [_ Hu]%orb_false_elim.
  rewrite prefix_cons. destruct (Ascii.eqb "\" d); [|done]. rewrite andb_true_l.
  destruct u as [|e u]; [done|]. rewrite append_cons, prefix_cons.
  destruct (Ascii.eqb "/" e); [|done]. rewrite andb_true_l.
  destruct u as [|g u]; [done|]. rewrite append_cons, prefix_cons.
  rewrite !has_char_cons in Hu. apply orb_false_elim in Hu as [_ Hu].
  by apply orb_false_elim in Hu as [-> _].
Qed.

Lemma replace_mount_end u :
  has_char "?" u = false →
  replace "\/?(?=\/|$)/i" "" (u +:+ "\/?(?=\/|$)/i") = u.
Proof.
  induction u as [|d u IH]; [done|]. intros Hu.
  rewrite append_cons, replace_eq, (mount_end_not_here d u Hu).
  f_equal. apply IH. rewrite has_char_cons in Hu. by apply orb_false_elim in Hu as [_ ?].
Qed.

Lemma scrubRegex_mount p :
  has_char "\" p = false → has_char "?" p = false →
  scrubRegex (mount_regexp p) = p.
Proof.
  intros Hb Hq. unfold scrubRegex, mount_regexp.
  rewrite (replace_here "/^"), append_nil_l.
  rewrite (replace_past "?" "$/i") by by rewrite has_char_escape_slashes.
  change (replace "?$/i" "" "\/?(?=\/|$)/i") with "\/?(?=\/|$)/i".
  rewrite replace_mount_end by by rewrite has_char_escape_slashes.
  rewrite <- (append_nil_r (escape_slashes p)), unescape_escape by done.
  apply append_nil_r.
Qed.

Lemma scrubRegex_route p :
  has_char "\" p = false → has_char "?" p = false →
  scrubRegex (route_regexp p) = p +:+ "/".
Proof.
  intros Hb Hq. unfold scrubRegex, route_regexp.
  rewrite (replace_here "/^"), append_nil_l.
  rewrite (replace_past "?" "$/i") by by rewrite has_char_escape_slashes.
  change (replace "?$/i" "" "\/?$/i") with "\/".
  rewrite replace_absent.
  - by rewrite unescape_escape.
  - apply (occurs_has_char "?"); [done|].
    by rewrite has_char_app, has_char_escape_slashes, Hq.
Qed.

(** X19.  What [scrubRegex] makes of the text of a regular expression,
    for a path without backslash and question mark.  From the text of a
    mount regexp, [/^] then the path with its slashes escaped then
    [\/?(?=\/|$)/i], it gives back the path.  From the text of a route
    regexp, which ends in [\/?$/i], it gives the path followed by a
    slash. *)
Theorem scrubRegex_gives_the_path p :
  has_char "\" p = false →
  has_char "?" p = false →
  scrubRegex (mount_regexp p) = p
  ∧ scrubRegex (route_regexp p) = p +:+ "/".
Proof.
  intros Hb Hq. split; [by apply scrubRegex_mount|by apply scrubRegex_route].
Qed.

Lemma scrubRegex_gives_the_path_witness :
  scrubRegex "/^\/modules\/users\/?(?=\/|$)/i" = "/modules/users"
  ∧ scrubRegex "/^\/test1\/?$/i" = "/test1/".
Proof.
  split.
  - exact (proj1 (scrubRegex_gives_the_path "/modules/users" eq_refl eq_refl)).
  - exact (proj2 (scrubRegex_gives_the_path "/test1" eq_refl eq_refl)).
Defined.

(** ** The walk of the stack *)

Lemma layer_ind' (P : layer → Prop) :
  (∀ route name regexp, P (Layer route name regexp None)) →
  (∀ route name regexp st, Forall P st → P (Layer route name regexp (Some st))) →
  ∀ l, P l.
Proof.
  intros H0 H1. fix F 1. intros [route name regexp [st|]]; [|apply H0].
  apply H1. induction st as [|l st IH]; constructor; [apply F|exact IH].
Qed.

Lemma flatMap_app {A B} (body : A → exn + list B) l1 l2 :
  flatMap body (l1 ++ l2) =
    match flatMap body l1 with
    | inl e => inl e
    | inr bs1 =>
        match flatMap body l2 with
        | inl e => inl e
        | inr bs2 => inr (bs1 ++ bs2)
        end
    end.
Proof.
  induction l1 as [|a l1 IH]; simpl.
  - by destruct (flatMap body l2).
  - destruct (body a) as [e|bs]; [done|]. rewrite IH.
    destruct (flatMap body l1) as [e|bs1]; [done|].
    destruct (flatMap body l2) as [e|bs2]; [done|]. by rewrite List.app_assoc.
Qed.

Lemma flatMap_ext {A B} (f g : A → exn + list B) l :
  Forall (fun a => f a = g a) l → flatMap f l = flatMap g l.
Proof.
  induction 1 as [|a l Ha _ IH]; [done|]. simpl. by rewrite Ha, IH.
Qed.

Lemma flatMap_fmap {A B} (h : B → B) (body : A → exn + list B) l :
  flatMap (fun a => match body a with inl e => inl e | inr bs => inr (map h bs) end) l
  = match flatMap body l with inl e => inl e | inr bs => inr (map h bs) end.
Proof.
  induction l as [|a l IH]; [done|]. simpl.
  destruct (body a) as [e|bs]; [done|]. rewrite IH.
  destruct (flatMap body l) as [e|bs']; [done|]. by rewrite map_app.
Qed.

(** A layer the filter drops yields nothing. *)
Lemma visit_not_kept p l : kept l = false → visit p l = inr [].
Proof.
  destruct l as [[r|] name [re|] stack]; unfold kept; simpl; try done.
  - by destruct (String.eqb name "router"), (String.eqb name "<anonymous>").
  - by destruct (String.eqb name "router"), (String.eqb name "<anonymous>").
Qed.

(** [findRoutes] as the source writes it: the filter, then the body on the
    layers kept. *)
Lemma findRoutes_filter stack p :
  findRoutes stack p = flatMap (visit p) (filter (fun l => kept l = true) stack).
Proof.
  unfold findRoutes. induction stack as [|l stack IH]; [done|].
  destruct (kept l) eqn:Hk.
  - rewrite filter_cons_True by done. simpl. by rewrite IH.
  - rewrite filter_cons_False by by rewrite Hk.
    cbn [flatMap]. rewrite (visit_not_kept p l Hk), IH. clear IH.
    destruct (flatMap (visit p) _) as [e|bs]; reflexivity.
Qed.

(** Walking a stack under a longer base path gives the same elements
    under that longer path. *)
Lemma visit_base l : ∀ p b,
  visit (b ++ p) l =
    match visit p l with
    | inl e => inl e
    | inr es => inr (map (rebase b) es)
    end.
Proof.
  induction l as [route name regexp|route name regexp st IH] using layer_ind';
    intros p b.
  - destruct route as [r|]; [done|]. simpl.
    destruct (String.eqb name "<anonymous>"); [by destruct regexp|].
    destruct (String.eqb name "router"); [by destruct regexp|done].
  - destruct route as [r|]; [done|]. simpl.
    destruct (String.eqb name "<anonymous>"); [by destruct regexp|].
    destruct (String.eqb name "router"); [|done].
    destruct regexp as [re|]; [|done].
    rewrite <- List.app_assoc, <- flatMap_fmap. apply flatMap_ext.
    eapply Forall_impl; [exact IH|]. intros l Hl. apply Hl.
Qed.

Lemma join_cons b base : join (b :: base) = b +:+ join base.
Proof. done. Qed.

Lemma report_rebase b e : report (rebase [b] e) = map (prefixed b) (report e).
Proof.
  unfold report, rebase, prefixed. cbn [found_route basePath method reported_route].
  rewrite map_map. apply map_ext. intros m. cbn [method reported_route app].
  by rewrite join_cons, JsStringFacts.append_assoc.
Qed.

Lemma flat_map_report_rebase b es :
  flat_map report (map (rebase [b]) es) = map (prefixed b) (flat_map report es).
Proof.
  induction es as [|e es IH]; [done|]. simpl.
  by rewrite report_rebase, IH, map_app.
Qed.

Lemma visit_router p re st :
  visit p (router re st) = flatMap (visit (p ++ [scrubRegex re])) st.
Proof. reflexivity. Qed.

(** X20.  The routes of a router mounted in a stack are the routes of the
    router's own stack, in the same order and with the same methods, each
    with the scrubbed text of the mount regexp put before its path; and an
    exception of the walk of the router's stack is the exception of the
    walk of the outer stack. *)
Theorem getRoutes_of_mounted_router re stack :
  getRoutes [router re stack] =
    match getRoutes stack with
    | inl e => inl e
    | inr routes => inr (map (prefixed (scrubRegex re)) routes)
    end.
Proof.
  unfold getRoutes, findRoutes. cbn [flatMap]. rewrite visit_router.
  change ([] ++ [scrubRegex re]) with ([scrubRegex re] ++ []).
  rewrite (flatMap_ext _ (fun l => match visit [] l with
                                    | inl e => inl e
                                    | inr es => inr (map (rebase [scrubRegex re]) es)
                                    end)).
  - rewrite flatMap_fmap. destruct (flatMap (visit []) stack) as [e|es]; [done|].
    by rewrite List.app_nil_r, flat_map_report_rebase.
  - apply Forall_forall. intros l _. apply visit_base.
Qed.

Lemma findRoutes_app s1 s2 p :
  findRoutes (s1 ++ s2) p =
    match findRoutes s1 p with
    | inl e => inl e
    | inr es1 =>
        match findRoutes s2 p with
        | inl e => inl e
        | inr es2 => inr (es1 ++ es2)
        end
    end.
Proof. apply flatMap_app. Qed.

Lemma getRoutes_app s1 s2 :
  getRoutes (s1 ++ s2) =
    match getRoutes s1 with
    | inl e => inl e
    | inr r1 =>
        match getRoutes s2 with
        | inl e => inl e
        | inr r2 => inr (r1 ++ r2)
        end
    end.
Proof.
  unfold getRoutes. rewrite findRoutes_app.
  destruct (findRoutes s1 []) as [e|es1]; [done|].
  destruct (findRoutes s2 []) as [e|es2]; [done|].
  by rewrite flat_map_app.
Qed.

Lemma getRoutes_cons l s :
  getRoutes (l :: s) =
    match getRoutes [l] with
    | inl e => inl e
    | inr r1 =>
        match getRoutes s with
        | inl e => inl e
        | inr r2 => inr (r1 ++ r2)
        end
    end.
Proof. apply (getRoutes_app [l] s). Qed.

(** X21.  The report of a stack is the report of its parts, one after the
    other: the routes of the layers before come first, and the first
    exception met in the order of the stack is the outcome.  A layer that
    is neither a route, nor named [router], nor an anonymous function with
    a regexp adds nothing, wherever it stands. *)
Theorem getRoutes_of_stack_parts s1 s2 :
  getRoutes (s1 ++ s2) =
    match getRoutes s1 with
    | inl e => inl e
    | inr r1 =>
        match getRoutes s2 with
        | inl e => inl e
        | inr r2 => inr (r1 ++ r2)
        end
    end
  ∧ ∀ l, kept l = false → getRoutes (s1 ++ l :: s2) = getRoutes (s1 ++ s2).
Proof.
  split; [apply getRoutes_app|]. intros l Hl.
  rewrite !getRoutes_app, (getRoutes_cons l s2).
  assert (getRoutes [l] = inr []) as ->.
  { unfold getRoutes, findRoutes. simpl. by rewrite (visit_not_kept [] l Hl). }
  destruct (getRoutes s1) as [e|r1]; [done|].
  by destruct (getRoutes s2) as [e|r2].
Qed.

Lemma getRoutes_of_stack_parts_witness :
  let users := Layer (Some {| path := "/profile"; methods := ["get"; "post"] |})
                 "bound dispatch" (Some "/^\/profile\/?$/i") None in
  let query := Layer None "query" (Some "/^\/?(?=\/|$)/i") None in
  getRoutes [query; router (mount_regexp "/users") [users]; query]
  = inr [{| method := "get"; reported_route := "/users/profile" |};
         {| method := "post"; reported_route := "/users/profile" |}].
Proof.
  apply (eq_trans (proj2 (getRoutes_of_stack_parts []
           [router (mount_regexp "/users")
              [Layer (Some {| path := "/profile"; methods := ["get"; "post"] |})
                 "bound dispatch" (Some "/^\/profile\/?$/i") None];
            Layer None "query" (Some "/^\/?(?=\/|$)/i") None])
           (Layer None "query" (Some "/^\/?(?=\/|$)/i") None) eq_refl)).
  reflexivity.
Defined.

(** X22.  A layer named [router] whose handle has no stack, such as a
    middleware function that happens to be called [router], makes
    [getRoutes] throw a [TypeError] when the walk reaches it: the routes
    found before it are lost, and the layers after it are not looked
    at. *)
Theorem getRoutes_router_without_stack s1 r1 re s2 :
  getRoutes s1 = inr r1 →
  getRoutes (s1 ++ Layer None "router" (Some re) None :: s2) = inl not_a_stack.
Proof.
  intros H1. by rewrite getRoutes_app, H1, getRoutes_cons.
Qed.

Lemma getRoutes_router_without_stack_witness :
  getRoutes
    [Layer (Some {| path := "/"; methods := ["get"] |}) "bound dispatch"
       (Some "/^\/?$/i") None;
     Layer None "router" (Some "/^\/api\/?(?=\/|$)/i") None]
  = inl not_a_stack.
Proof.
  exact (getRoutes_router_without_stack
           [Layer (Some {| path := "/"; methods := ["get"] |}) "bound dispatch"
              (Some "/^\/?$/i") None]
           [{| method := "get"; reported_route := "/" |}]
           "/^\/api\/?(?=\/|$)/i" [] eq_refl).
Defined.

End RouteReporterFacts.
